(** * LiteyukiBot: the SQLite object-relational adapter of [liteyuki/utils/data.py]

    A shallow embedding of class [Database] (auto_migrate, upsert, _flat,
    first, all, delete, convert_to_dict) over an explicit model of the
    [sqlite3] connection it drives, and the properties of the persistence
    engine stated over that embedding.

    Layout:
    - [Py]: the Python values the adapter handles, the string methods it
      calls, [json.dumps] and [json.loads];
    - [Sqlite]: the store: tables, rows, column affinity, the statements the
      adapter issues, and the connection with its pending transaction;
    - [Database]: the methods of the class, written in a state-and-exception
      monad over the connection;
    - the theorems. *)

From Stdlib Require Import String Ascii ZArith List Bool Lia.
From Stdlib Require Import DecimalString DecimalZ.
Import ListNotations.

Set Warnings "-register-all".

Open Scope string_scope.
Open Scope Z_scope.

(* ================================================================== *)
(** ** Python values, strings and JSON *)
(* ================================================================== *)

Module Py.

(** A Python float is carried by its [repr] text, the only view of it this
    code takes: [json.dumps] prints it and SQLite stores it.  Strings are
    sequences of code points below 256.  A set is given in the order in
    which it is iterated. *)
Inductive value : Type :=
| VNone
| VBool (b : bool)
| VInt (z : Z)
| VFloat (r : string)
| VStr (s : string)
| VList (l : list value)
| VTuple (l : list value)
| VSet (l : list value)
| VDict (d : list (string * value))
| VModel (cls : string) (fields : list (string * value))  (* a LiteModel instance: class name and __dict__ *)
| VObject (cls : string).                                 (* an instance of any other class *)

(** [isinstance(v, BaseIterable)] with [BaseIterable = list | tuple | set | dict]. *)
Definition is_BaseIterable (v : value) : bool :=
  match v with
  | VList _ | VTuple _ | VSet _ | VDict _ => true
  | _ => false
  end.

(** Exceptions the adapter and its two libraries raise. *)
Inductive exn : Type :=
| ValueError (msg : string)
| TypeError
| AttributeError
| IndexError
| JSONDecodeError
| OperationalError (msg : string)
| IntegrityError
| ProgrammingError
| OverflowError
| RecursionError.

(** *** Dictionaries: insertion-ordered, assignment overwrites in place *)

Fixpoint dict_set {A : Type} (k : string) (v : A) (d : list (string * A)) : list (string * A) :=
  match d with
  | [] => [(k, v)]
  | (k', v') :: r => if String.eqb k' k then (k, v) :: r else (k', v') :: dict_set k v r
  end.

Fixpoint dict_get {A : Type} (k : string) (d : list (string * A)) : option A :=
  match d with
  | [] => None
  | (k', v) :: r => if String.eqb k' k then Some v else dict_get k r
  end.

(** *** String methods *)

(** [s.startswith(p)] *)
Definition startswith (s p : string) : bool := String.prefix p s.

(** [s.replace(old, '')]: every non-overlapping occurrence of [old], scanned
    from the left, is removed.  [skip] counts the characters of the current
    occurrence still to be dropped. *)
Fixpoint remove_from (old : string) (skip : nat) (s : string) : string :=
  match s with
  | EmptyString => EmptyString
  | String c r =>
      match skip with
      | S k => remove_from old k r
      | O =>
          if String.prefix old s
          then remove_from old (Nat.pred (String.length old)) r
          else String c (remove_from old O r)
      end
  end.

Definition remove_all (old s : string) : string :=
  match old with
  | EmptyString => s
  | _ => remove_from old O s
  end.

(** [s.split(sep, maxsplit)] for a one-character separator. *)
Fixpoint split (sep : ascii) (maxsplit : nat) (s : string) : list string :=
  match s with
  | EmptyString => [EmptyString]
  | String c r =>
      match maxsplit with
      | O => [s]
      | S k =>
          if Ascii.eqb c sep then EmptyString :: split sep k r
          else match split sep maxsplit r with
               | h :: t => String c h :: t
               | [] => [String c EmptyString]
               end
      end
  end.

(** [sep.join(parts)] *)
Fixpoint join (sep : string) (parts : list string) : string :=
  match parts with
  | [] => EmptyString
  | [p] => p
  | p :: r => p ++ sep ++ join sep r
  end.

(** [str(n)] for an integer. *)
Definition str_of_int (z : Z) : string := NilZero.string_of_int (Z.to_int z).

(** The integer a decimal text denotes, as [int(s)] or SQLite's numeric
    conversion read it: an optional minus sign and digits. *)
Definition int_of_str (s : string) : option Z :=
  option_map Z.of_int (NilZero.int_of_string s).

(** [f'{v}'] for the values the adapter formats into text. *)
Definition py_str (v : value) : string :=
  match v with
  | VNone => "None"
  | VBool true => "True"
  | VBool false => "False"
  | VInt z => str_of_int z
  | VFloat r => r
  | VStr s => s
  | VObject cls => "<" ++ cls ++ " object>"
  | _ => "<container>"
  end.

(** *** json.dumps *)

(** The double-quote and the backslash, as one-character texts. *)
Definition dquote : string := String (ascii_of_nat 34) EmptyString.
Definition backslash : string := String (ascii_of_nat 92) EmptyString.

Definition hex_digit (n : nat) : ascii :=
  match n with
  | 0%nat => "0" | 1%nat => "1" | 2%nat => "2" | 3%nat => "3"
  | 4%nat => "4" | 5%nat => "5" | 6%nat => "6" | 7%nat => "7"
  | 8%nat => "8" | 9%nat => "9" | 10%nat => "a" | 11%nat => "b"
  | 12%nat => "c" | 13%nat => "d" | 14%nat => "e" | _ => "f"
  end%char.

(** One character of a JSON string under [ensure_ascii=True]: the quote and
    the backslash are escaped, the usual control characters have short
    escapes, everything else outside [' '..'~'] becomes a [u00xx] escape. *)
Definition json_escape_char (c : ascii) : string :=
  let n := nat_of_ascii c in
  if Nat.eqb n 34 then backslash ++ dquote
  else if Nat.eqb n 92 then backslash ++ backslash
  else if Nat.eqb n 10 then backslash ++ "n"
  else if Nat.eqb n 13 then backslash ++ "r"
  else if Nat.eqb n 9 then backslash ++ "t"
  else if Nat.eqb n 8 then backslash ++ "b"
  else if Nat.eqb n 12 then backslash ++ "f"
  else if (Nat.ltb n 32 || Nat.ltb 126 n)%bool
       then backslash ++ "u00" ++ String (hex_digit (n / 16)) (String (hex_digit (n mod 16)) EmptyString)
       else String c EmptyString.

Fixpoint json_escape (s : string) : string :=
  match s with
  | EmptyString => EmptyString
  | String c r => json_escape_char c ++ json_escape r
  end.

Definition json_quote (s : string) : string := dquote ++ json_escape s ++ dquote.

Definition all_some {A : Type} (l : list (option A)) : option (list A) :=
  fold_right (fun o acc => match o, acc with
                           | Some a, Some r => Some (a :: r)
                           | _, _ => None
                           end) (Some []) l.

(** [json.dumps(v)] with the default separators; [None] stands for the
    [TypeError] raised at a value that is not JSON serializable. *)
Fixpoint json_dumps (v : value) : option string :=
  match v with
  | VNone => Some "null"
  | VBool true => Some "true"
  | VBool false => Some "false"
  | VInt z => Some (str_of_int z)
  | VFloat r =>
      Some (if String.eqb r "nan" then "NaN"
            else if String.eqb r "inf" then "Infinity"
            else if String.eqb r "-inf" then "-Infinity"
            else r)
  | VStr s => Some (json_quote s)
  | VList l | VTuple l =>
      option_map (fun items => "[" ++ join ", " items ++ "]")
                 (all_some (map json_dumps l))
  | VDict d =>
      option_map (fun items => "{" ++ join ", " items ++ "}")
                 (all_some (map (fun kv => option_map (fun t => json_quote (fst kv) ++ ": " ++ t)
                                                     (json_dumps (snd kv))) d))
  | VSet _ | VModel _ _ | VObject _ => None
  end.

(** *** json.loads *)

Definition is_ws (c : ascii) : bool :=
  let n := nat_of_ascii c in
  (Nat.eqb n 32 || Nat.eqb n 9 || Nat.eqb n 10 || Nat.eqb n 13)%bool.

Fixpoint skip_ws (s : string) : string :=
  match s with
  | String c r => if is_ws c then skip_ws r else s
  | EmptyString => EmptyString
  end.

Definition is_digit (c : ascii) : bool :=
  let n := nat_of_ascii c in (Nat.leb 48 n && Nat.leb n 57)%bool.

(** The longest prefix of digits, and what follows it. *)
Fixpoint span_digits (s : string) : string * string :=
  match s with
  | String c r =>
      if is_digit c then let (d, t) := span_digits r in (String c d, t)
      else (EmptyString, s)
  | EmptyString => (EmptyString, EmptyString)
  end.

Definition hex_value (c : ascii) : option nat :=
  let n := nat_of_ascii c in
  if (Nat.leb 48 n && Nat.leb n 57)%bool then Some (n - 48)%nat
  else if (Nat.leb 97 n && Nat.leb n 102)%bool then Some (n - 87)%nat
  else if (Nat.leb 65 n && Nat.leb n 70)%bool then Some (n - 55)%nat
  else None.

(** The character a one-letter escape stands for. *)
Definition unescape (c : ascii) : option ascii :=
  let n := nat_of_ascii c in
  if Nat.eqb n 34 then Some (ascii_of_nat 34)
  else if Nat.eqb n 92 then Some (ascii_of_nat 92)
  else if Nat.eqb n 47 then Some (ascii_of_nat 47)
  else if Nat.eqb n 98 then Some (ascii_of_nat 8)
  else if Nat.eqb n 102 then Some (ascii_of_nat 12)
  else if Nat.eqb n 110 then Some (ascii_of_nat 10)
  else if Nat.eqb n 114 then Some (ascii_of_nat 13)
  else if Nat.eqb n 116 then Some (ascii_of_nat 9)
  else None.

Definition cons_char (c : ascii) (p : option (string * string)) : option (string * string) :=
  match p with
  | Some (body, rest) => Some (String c body, rest)
  | None => None
  end.

(** The body of a JSON string, read after its opening quote up to the
    closing one.  A four-digit unicode escape is decoded when its code point
    is below 256, the alphabet of this model. *)
Fixpoint parse_string_body (s : string) : option (string * string) :=
  match s with
  | EmptyString => None
  | String c r =>
      let n := nat_of_ascii c in
      if Nat.eqb n 34 then Some (EmptyString, r)
      else if Nat.eqb n 92 then
        match r with
        | String e r' =>
            if Nat.eqb (nat_of_ascii e) 117 then
              match r' with
              | String h1 (String h2 (String h3 (String h4 r''))) =>
                  match hex_value h1, hex_value h2, hex_value h3, hex_value h4 with
                  | Some 0%nat, Some 0%nat, Some a, Some b =>
                      cons_char (ascii_of_nat (16 * a + b)) (parse_string_body r'')
                  | _, _, _, _ => None
                  end
              | _ => None
              end
            else match unescape e with
                 | Some ch => cons_char ch (parse_string_body r')
                 | None => None
                 end
        | EmptyString => None
        end
      else if Nat.ltb n 32 then None
      else cons_char c (parse_string_body r)
  end.

(** A JSON number: an optional minus sign, [0] or a digit sequence without
    leading zero, an optional fraction, an optional exponent.  Without
    fraction and exponent it is an integer; otherwise a float, carried by
    the text as written ([json.dumps] only writes [repr] texts). *)
Definition parse_int_part (s : string) : option (string * string) :=
  match s with
  | String c r =>
      if Nat.eqb (nat_of_ascii c) 48 then Some (String c EmptyString, r)
      else if is_digit c then Some (span_digits s)
      else None
  | EmptyString => None
  end.

Definition parse_frac (s : string) : string * string :=
  match s with
  | String c r =>
      if Nat.eqb (nat_of_ascii c) 46 then
        match span_digits r with
        | (EmptyString, _) => (EmptyString, s)
        | (d, t) => (String c d, t)
        end
      else (EmptyString, s)
  | EmptyString => (EmptyString, s)
  end.

Definition parse_exp (s : string) : string * string :=
  match s with
  | String c r =>
      if (Nat.eqb (nat_of_ascii c) 101 || Nat.eqb (nat_of_ascii c) 69)%bool then
        let (sign, r1) :=
          match r with
          | String g r' =>
              if (Nat.eqb (nat_of_ascii g) 43 || Nat.eqb (nat_of_ascii g) 45)%bool
              then (String g EmptyString, r') else (EmptyString, r)
          | EmptyString => (EmptyString, r)
          end in
        match span_digits r1 with
        | (EmptyString, _) => (EmptyString, s)
        | (d, t) => (String c (sign ++ d), t)
        end
      else (EmptyString, s)
  | EmptyString => (EmptyString, s)
  end.

Definition parse_number (s : string) : option (value * string) :=
  let (sign, s1) :=
    match s with
    | String c r => if Nat.eqb (nat_of_ascii c) 45 then ("-", r) else (EmptyString, s)
    | EmptyString => (EmptyString, s)
    end in
  match parse_int_part s1 with
  | None => None
  | Some (ip, s2) =>
      let (fp, s3) := parse_frac s2 in
      let (ep, s4) := parse_exp s3 in
      match fp, ep with
      | EmptyString, EmptyString =>
          match int_of_str (sign ++ ip) with
          | Some z => Some (VInt z, s4)
          | None => None
          end
      | _, _ => Some (VFloat (sign ++ ip ++ fp ++ ep), s4)
      end
  end.

(** [text] with the literal [lit] taken off its front. *)
Definition strip_literal (lit text : string) : option string :=
  if String.prefix lit text
  then Some (String.substring (String.length lit) (String.length text - String.length lit) text)
  else None.

(** The scanner of the decoder.  The text handed to [parse_value] starts at
    the value; [parse_elements] and [parse_members] read what follows an
    opening bracket or brace that was not closed at once.  Every call spends
    one unit of [fuel]; [json_loads] supplies more than any text can use. *)
Fixpoint parse_value (fuel : nat) (s : string) {struct fuel} : option (value * string) :=
  match fuel with
  | O => None
  | S k =>
      match s with
      | EmptyString => None
      | String c r =>
          let n := nat_of_ascii c in
          if Nat.eqb n 34 then
            match parse_string_body r with
            | Some (body, rest) => Some (VStr body, rest)
            | None => None
            end
          else if Nat.eqb n 91 then
            match skip_ws r with
            | String c' r' =>
                if Nat.eqb (nat_of_ascii c') 93 then Some (VList [], r')
                else match parse_elements k (String c' r') with
                     | Some (items, rest) => Some (VList items, rest)
                     | None => None
                     end
            | EmptyString => None
            end
          else if Nat.eqb n 123 then
            match skip_ws r with
            | String c' r' =>
                if Nat.eqb (nat_of_ascii c') 125 then Some (VDict [], r')
                else match parse_members k (String c' r') with
                     | Some (pairs, rest) =>
                         Some (VDict (fold_left (fun d kv => dict_set (fst kv) (snd kv) d) pairs []), rest)
                     | None => None
                     end
            | EmptyString => None
            end
          else
            match strip_literal "null" s, strip_literal "true" s, strip_literal "false" s with
            | Some rest, _, _ => Some (VNone, rest)
            | _, Some rest, _ => Some (VBool true, rest)
            | _, _, Some rest => Some (VBool false, rest)
            | _, _, _ =>
                match strip_literal "NaN" s, strip_literal "Infinity" s, strip_literal "-Infinity" s with
                | Some rest, _, _ => Some (VFloat "nan", rest)
                | _, Some rest, _ => Some (VFloat "inf", rest)
                | _, _, Some rest => Some (VFloat "-inf", rest)
                | _, _, _ => parse_number s
                end
            end
      end
  end
with parse_elements (fuel : nat) (s : string) {struct fuel} : option (list value * string) :=
  match fuel with
  | O => None
  | S k =>
      match parse_value k s with
      | None => None
      | Some (v, rest) =>
          match skip_ws rest with
          | String c r =>
              if Nat.eqb (nat_of_ascii c) 93 then Some ([v], r)
              else if Nat.eqb (nat_of_ascii c) 44 then
                match parse_elements k (skip_ws r) with
                | Some (vs, rest') => Some (v :: vs, rest')
                | None => None
                end
              else None
          | EmptyString => None
          end
      end
  end
with parse_members (fuel : nat) (s : string) {struct fuel} : option (list (string * value) * string) :=
  match fuel with
  | O => None
  | S k =>
      match s with
      | String q r0 =>
          if Nat.eqb (nat_of_ascii q) 34 then
            match parse_string_body r0 with
            | None => None
            | Some (key, r1) =>
                match skip_ws r1 with
                | String c r2 =>
                    if Nat.eqb (nat_of_ascii c) 58 then
                      match parse_value k (skip_ws r2) with
                      | None => None
                      | Some (v, rest) =>
                          match skip_ws rest with
                          | String c' r3 =>
                              if Nat.eqb (nat_of_ascii c') 125 then Some ([(key, v)], r3)
                              else if Nat.eqb (nat_of_ascii c') 44 then
                                match parse_members k (skip_ws r3) with
                                | Some (ps, rest') => Some ((key, v) :: ps, rest')
                                | None => None
                                end
                              else None
                          | EmptyString => None
                          end
                      end
                    else None
                | EmptyString => None
                end
            end
          else None
      | EmptyString => None
      end
  end.

(** [json.loads(s)] for a text [s]; [None] stands for [JSONDecodeError]. *)
Definition json_loads (s : string) : option value :=
  match parse_value (2 * String.length s + 2) (skip_ws s) with
  | Some (v, rest) =>
      match skip_ws rest with
      | EmptyString => Some v
      | _ => None
      end
  | None => None
  end.

End Py.

Import Py.

(* ================================================================== *)
(** ** The store: SQLite tables behind a [sqlite3] connection *)
(* ================================================================== *)

(** The part of SQLite the adapter relies on.  Table, column and class names
    are taken to be identifiers SQLite accepts unquoted, none of them the
    name of an internal table; the text of a caller's condition is
    represented by the predicate it denotes; rows come back in rowid order;
    rowids stay below 2^63. *)
Module Sqlite.

Inductive coltype : Type := TEXT | INTEGER | REAL.

Inductive sqlval : Type :=
| SNull
| SInt (z : Z)
| SReal (r : string)
| SText (s : string).

Definition sqlval_eqb (a b : sqlval) : bool :=
  match a, b with
  | SNull, SNull => true
  | SInt x, SInt y => Z.eqb x y
  | SReal x, SReal y => String.eqb x y
  | SText x, SText y => String.eqb x y
  | _, _ => false
  end.

(** SQLite compares identifiers without regard to ASCII case. *)
Definition lower_char (c : ascii) : ascii :=
  let n := nat_of_ascii c in
  if (Nat.leb 65 n && Nat.leb n 90)%bool then ascii_of_nat (n + 32) else c.

Fixpoint lower (s : string) : string :=
  match s with
  | EmptyString => EmptyString
  | String c r => String (lower_char c) (lower r)
  end.

Definition same_name (a b : string) : bool := String.eqb (lower a) (lower b).

Fixpoint lookup_ci {A : Type} (k : string) (l : list (string * A)) : option A :=
  match l with
  | [] => None
  | (k', v) :: r => if same_name k' k then Some v else lookup_ci k r
  end.

Definition has_name {A : Type} (k : string) (l : list (string * A)) : bool :=
  existsb (fun kv => same_name (fst kv) k) l.

(** A row holds a value for every column of its table, in column order. *)
Definition row : Type := list (string * sqlval).

Record table : Type := mkTable {
  tname : string;                   (* as written in CREATE TABLE *)
  tcols : list (string * coltype);  (* declared columns; [id] is the primary key *)
  tauto : bool;                     (* AUTOINCREMENT *)
  tseq : Z;                         (* largest rowid handed out so far (sqlite_sequence) *)
  trows : list (Z * row)            (* rows by ascending rowid *)
}.

Definition db : Type := list table.

Fixpoint find_table (name : string) (d : db) : option table :=
  match d with
  | [] => None
  | t :: r => if same_name (tname t) name then Some t else find_table name r
  end.

Fixpoint update_table (name : string) (f : table -> table) (d : db) : db :=
  match d with
  | [] => []
  | t :: r => if same_name (tname t) name then f t :: r else t :: update_table name f r
  end.

(** [SELECT * FROM sqlite_master WHERE type = "table" AND name = ?]: the
    catalogue keeps names as written and this comparison is exact. *)
Definition in_master (name : string) (d : db) : bool :=
  existsb (fun t => String.eqb (tname t) name) d.

(** Column affinity, applied to a value on its way into a column (and to the
    other operand of a comparison with the column).  Conversions between
    text and numbers are modelled for decimal integers. *)
Definition apply_affinity (ty : coltype) (v : sqlval) : sqlval :=
  match ty, v with
  | INTEGER, SText s => match int_of_str s with Some z => SInt z | None => v end
  | REAL, SText s => match int_of_str s with Some z => SReal (str_of_int z ++ ".0") | None => v end
  | REAL, SInt z => SReal (str_of_int z ++ ".0")
  | TEXT, SInt z => SText (str_of_int z)
  | TEXT, SReal r => SText r
  | _, _ => v
  end.

(** [col = ?] for a column of declared type [ty] holding [v]. *)
Definition sql_eq (ty : coltype) (v p : sqlval) : bool :=
  match v, apply_affinity ty p with
  | SNull, _ | _, SNull => false
  | a, b => sqlval_eqb a b
  end.

(** The meaning of a condition text with its parameters bound. *)
Definition condition : Type := table -> row -> bool.

(** ["id = ?"] with parameter [p]. *)
Definition id_eq (p : sqlval) : condition :=
  fun t r =>
    match lookup_ci "id" (tcols t), lookup_ci "id" r with
    | Some ty, Some v => sql_eq ty v p
    | _, _ => false
    end.

(** *** Statements, as functions on the database *)

Definition no_such_table (name : string) : exn := OperationalError ("no such table: " ++ name).

(** [CREATE TABLE IF NOT EXISTS name (id <id_type> PRIMARY KEY [AUTOINCREMENT])] *)
Definition create_table (name : string) (id_type : coltype) (auto : bool) (d : db) : db :=
  match find_table name d with
  | Some _ => d
  | None => (d ++ [mkTable name [("id", id_type)] auto 0 []])%list
  end.

(** [PRAGMA table_info(name)], column 1 of every line: the column names. *)
Definition table_info (name : string) (d : db) : list string :=
  match find_table name d with
  | Some t => map fst (tcols t)
  | None => []
  end.

(** A table with one more column: existing rows read NULL in it. *)
Definition table_add_column (c : string) (ty : coltype) (t : table) : table :=
  mkTable (tname t) (tcols t ++ [(c, ty)])%list (tauto t) (tseq t)
          (map (fun ir => (fst ir, (snd ir ++ [(c, SNull)])%list)) (trows t)).

(** [ALTER TABLE name ADD COLUMN c ty] *)
Definition add_column (name c : string) (ty : coltype) (d : db) : exn + db :=
  match find_table name d with
  | None => inl (no_such_table name)
  | Some t =>
      if has_name c (tcols t) then inl (OperationalError ("duplicate column name: " ++ c))
      else inr (update_table name (table_add_column c ty) d)
  end.

Definition backfill_row (c : string) (v : sqlval) (r : row) : row :=
  map (fun kv => if same_name (fst kv) c
                 then match snd kv with SNull => (fst kv, v) | _ => kv end
                 else kv) r.

Definition table_backfill (c : string) (v : sqlval) (t : table) : table :=
  mkTable (tname t) (tcols t) (tauto t) (tseq t)
          (map (fun ir => (fst ir, backfill_row c v (snd ir))) (trows t)).

(** [UPDATE name SET c = ? WHERE c IS NULL] with parameter [v]. *)
Definition update_null (name c : string) (v : sqlval) (d : db) : exn + db :=
  match find_table name d with
  | None => inl (no_such_table name)
  | Some t =>
      match lookup_ci c (tcols t) with
      | None => inl (OperationalError ("no such column: " ++ c))
      | Some ty => inr (update_table name (table_backfill c (apply_affinity ty v)) d)
      end
  end.

Definition without_name {A : Type} (c : string) (l : list (string * A)) : list (string * A) :=
  filter (fun kv => negb (same_name (fst kv) c)) l.

Definition table_drop_column (c : string) (t : table) : table :=
  mkTable (tname t) (without_name c (tcols t)) (tauto t) (tseq t)
          (map (fun ir => (fst ir, without_name c (snd ir))) (trows t)).

(** [ALTER TABLE name DROP COLUMN c]: refused for the primary key and for
    the last column of a table. *)
Definition drop_column (name c : string) (d : db) : exn + db :=
  match find_table name d with
  | None => inl (no_such_table name)
  | Some t =>
      if negb (has_name c (tcols t)) then inl (OperationalError ("no such column: " ++ c))
      else if same_name c "id" then inl (OperationalError ("cannot drop PRIMARY KEY column: " ++ c))
      else if Nat.leb (List.length (tcols t)) 1 then inl (OperationalError ("cannot drop column: " ++ c))
      else inr (update_table name (table_drop_column c) d)
  end.

Definition max_rowid (rows : list (Z * row)) : Z :=
  fold_right (fun ir m => Z.max (fst ir) m) 0 rows.

(** The rowid SQLite picks for a row inserted without one, as long as the
    largest rowid in use is below 2^63 - 1.  At that bound SQLite raises
    SQLITE_FULL for an AUTOINCREMENT table and tries rowids at random
    otherwise; the statements that name the rowid handed out assume a table
    with room below the bound. *)
Definition next_rowid (t : table) : Z :=
  if tauto t then Z.max (tseq t) (max_rowid (trows t)) + 1
  else match trows t with
       | [] => 1
       | ir :: rest => fold_right (fun ir m => Z.max (fst ir) m) (fst ir) rest + 1
       end.

Fixpoint insert_sorted (ir : Z * row) (rows : list (Z * row)) : list (Z * row) :=
  match rows with
  | [] => [ir]
  | jr :: rest => if Z.ltb (fst ir) (fst jr) then ir :: rows else jr :: insert_sorted ir rest
  end.

(** The first value given for column [c] in the column list of an INSERT. *)
Fixpoint given (c : string) (keys : list string) (vals : list sqlval) : option sqlval :=
  match keys, vals with
  | k :: ks, v :: vs => if same_name k c then Some v else given c ks vs
  | _, _ => None
  end.

Definition new_row (cols : list (string * coltype)) (keys : list string) (vals : list sqlval) : row :=
  map (fun cty => (fst cty,
                   match given (fst cty) keys vals with
                   | Some v => apply_affinity (snd cty) v
                   | None => SNull
                   end)) cols.

Definition set_id (v : sqlval) (r : row) : row :=
  map (fun kv => if same_name (fst kv) "id" then (fst kv, v) else kv) r.

(** The identity of a record: what its row holds in the column [id]. *)
Definition identity (r : row) : option sqlval := lookup_ci "id" r.

(** With [id INTEGER PRIMARY KEY] the column is the rowid itself: NULL asks
    for a fresh rowid, and the row that already has the rowid is replaced. *)
Definition insert_rowid (t : table) (r : row) : exn + (table * (Z * row)) :=
  match identity r with
  | Some SNull | None =>
      let rid := next_rowid t in
      inr (mkTable (tname t) (tcols t) (tauto t)
                   (if tauto t then Z.max (tseq t) rid else tseq t)
                   (insert_sorted (rid, set_id (SInt rid) r) (trows t)),
           (rid, set_id (SInt rid) r))
  | Some (SInt rid) =>
      inr (mkTable (tname t) (tcols t) (tauto t)
                   (if tauto t then Z.max (tseq t) rid else tseq t)
                   (insert_sorted (rid, r)
                      (filter (fun ir => negb (Z.eqb (fst ir) rid)) (trows t))),
           (rid, r))
  | Some _ => inl IntegrityError
  end.

(** With another type of [id] the rowid is hidden and always fresh, and a
    row with an equal, non-NULL [id] gives way to the new row [r]. *)
Definition no_conflict (r : row) (ir : Z * row) : bool :=
  match identity r, identity (snd ir) with
  | Some SNull, _ | None, _ | _, None => true
  | Some v, Some w => negb (sqlval_eqb v w)
  end.

Definition insert_plain (t : table) (r : row) : table * (Z * row) :=
  let rid := next_rowid t in
  (mkTable (tname t) (tcols t) (tauto t) (tseq t)
           (insert_sorted (rid, r) (filter (no_conflict r) (trows t))),
   (rid, r)).

(** [INSERT OR REPLACE INTO name (keys) VALUES (vals)]: the new table, and
    the new row under its rowid. *)
Definition insert_into (t : table) (keys : list string) (vals : list sqlval)
  : exn + (table * (Z * row)) :=
  match find (fun k => negb (has_name k (tcols t))) keys with
  | Some k => inl (OperationalError ("table " ++ tname t ++ " has no column named " ++ k))
  | None =>
      if negb (Nat.eqb (List.length keys) (List.length vals)) then inl ProgrammingError
      else
        let r := new_row (tcols t) keys vals in
        match lookup_ci "id" (tcols t) with
        | Some INTEGER => insert_rowid t r
        | _ => inr (insert_plain t r)
        end
  end.

Definition insert_or_replace (name : string) (keys : list string) (vals : list sqlval) (d : db)
  : exn + (db * (Z * row)) :=
  match find_table name d with
  | None => inl (no_such_table name)
  | Some t =>
      match insert_into t keys vals with
      | inl e => inl e
      | inr (t', ir) => inr (update_table name (fun _ => t') d, ir)
      end
  end.

(** [SELECT * FROM name WHERE cond] *)
Definition select_where (name : string) (cond : condition) (d : db) : exn + list row :=
  match find_table name d with
  | None => inl (no_such_table name)
  | Some t => inr (map snd (filter (fun ir => cond t (snd ir)) (trows t)))
  end.

(** [SELECT * FROM name WHERE id = ?] with parameter [p], as the loader
    issues it. *)
Definition select_by_id (name : string) (p : sqlval) (d : db) : exn + list row :=
  match find_table name d with
  | None => inl (no_such_table name)
  | Some t =>
      if has_name "id" (tcols t) then select_where name (id_eq p) d
      else inl (OperationalError "no such column: id")
  end.

(** [DELETE FROM name WHERE cond] *)
Definition delete_where (name : string) (cond : condition) (d : db) : exn + db :=
  match find_table name d with
  | None => inl (no_such_table name)
  | Some t =>
      inr (update_table name
             (fun t => mkTable (tname t) (tcols t) (tauto t) (tseq t)
                               (filter (fun ir => negb (cond t (snd ir))) (trows t)))
             d)
  end.

(** *** The connection *)

(** What changed in the store, newest first. *)
Inductive event : Type :=
| EvCreateTable (t : string)
| EvAddColumn (t c : string) (ty : coltype)
| EvDropColumn (t c : string)
| EvBackfill (t c : string) (v : sqlval)
| EvInsert (t : string) (rowid : Z) (ident : option sqlval)
| EvDelete (t : string)
| EvCommit.

(** A [sqlite3] connection in its default transaction mode, with its one
    cursor: what is on disk, what this connection sees, whether a
    transaction is open, and [cursor.lastrowid]. *)
Record conn : Type := mkConn {
  committed : db;
  working : db;
  in_txn : bool;
  lastrowid : Z;
  journal : list event
}.

End Sqlite.

Import Sqlite.

(* ================================================================== *)
(** ** The adapter: class [Database] *)
(* ================================================================== *)

Module Database.

(** *** Computations over the connection *)

Inductive outcome (A : Type) : Type :=
| Ok (a : A)
| Raise (e : exn).

Arguments Ok {A} a.
Arguments Raise {A} e.

(** A method body: it ends with a value or an exception, and leaves the
    connection in a new state either way. *)
Definition M (A : Type) : Type := conn -> outcome A * conn.

Definition ret {A : Type} (a : A) : M A := fun c => (Ok a, c).

Definition raise {A : Type} (e : exn) : M A := fun c => (Raise e, c).

Definition bind {A B : Type} (m : M A) (k : A -> M B) : M B :=
  fun c => match m c with
           | (Ok a, c') => k a c'
           | (Raise e, c') => (Raise e, c')
           end.

Notation "x <- m ;; k" := (bind m (fun x => k))
  (at level 61, m at next level, right associativity).
Notation "m ;;; k" := (bind m (fun _ => k))
  (at level 61, right associativity).

(** [l.append(x)] *)
Definition append {A : Type} (l : list A) (x : A) : list A := (l ++ [x])%list.

(** A computation that does not touch the connection. *)
Definition lift {A : Type} (r : exn + A) : M A :=
  fun c => match r with
           | inl e => (Raise e, c)
           | inr a => (Ok a, c)
           end.

(** [for x in l: acc = body(acc, x)] *)
Fixpoint for_each {A S : Type} (l : list A) (body : S -> A -> M S) (acc : S) : M S :=
  match l with
  | [] => ret acc
  | x :: r => acc' <- body acc x ;; for_each r body acc'
  end.

(** The same loop for code that only reads the store. *)
Fixpoint fold_err {A S : Type} (l : list A) (body : S -> A -> exn + S) (acc : S) : exn + S :=
  match l with
  | [] => inr acc
  | x :: r => match body acc x with
              | inl e => inl e
              | inr acc' => fold_err r body acc'
              end
  end.

(** *** [cursor.execute] and [conn.commit] *)

(** A Python value bound to a [?]. *)
Definition bind_param (v : value) : exn + sqlval :=
  match v with
  | VNone => inr SNull
  | VBool b => inr (SInt (if b then 1 else 0))
  | VInt z => if ((- 2 ^ 63 <=? z) && (z <? 2 ^ 63))%bool then inr (SInt z) else inl OverflowError
  | VFloat r => inr (SReal r)
  | VStr s => inr (SText s)
  | _ => inl ProgrammingError
  end.

Fixpoint bind_params (vs : list value) : exn + list sqlval :=
  match vs with
  | [] => inr []
  | v :: r => match bind_param v, bind_params r with
              | inl e, _ => inl e
              | _, inl e => inl e
              | inr a, inr b => inr (a :: b)
              end
  end.

(** A value read from a row. *)
Definition to_py (v : sqlval) : value :=
  match v with
  | SNull => VNone
  | SInt z => VInt z
  | SReal r => VFloat r
  | SText s => VStr s
  end.

(** [dict(row)] for a [sqlite3.Row]. *)
Definition dict_of_row (r : row) : value :=
  VDict (map (fun kv => (fst kv, to_py (snd kv))) r).

(** The implicit BEGIN before INSERT, UPDATE, DELETE and REPLACE. *)
Definition begin (c : conn) : conn :=
  mkConn (committed c) (working c) true (lastrowid c) (journal c).

(** A statement that changes the schema runs in the open transaction, or is
    committed at once when none is open. *)
Definition execute_ddl (stmt : db -> exn + db) (ev : event) : M unit :=
  fun c => match stmt (working c) with
           | inl e => (Raise e, c)
           | inr d' => (Ok tt, mkConn (if in_txn c then committed c else d') d'
                                      (in_txn c) (lastrowid c) (ev :: journal c))
           end.

Definition execute_create (name : string) (id_type : coltype) (auto : bool) : M unit :=
  fun c => match find_table name (working c) with
           | Some _ => (Ok tt, c)
           | None => execute_ddl (fun d => inr (create_table name id_type auto d)) (EvCreateTable name) c
           end.

(** A read: the connection sees its own pending changes. *)
Definition query {A : Type} (stmt : db -> exn + A) : M A :=
  fun c => match stmt (working c) with
           | inl e => (Raise e, c)
           | inr a => (Ok a, c)
           end.

(** [UPDATE name SET c = ? WHERE c IS NULL]: prepared, then the transaction
    is opened, then the parameter is bound and the statement runs. *)
Definition execute_update_null (name c : string) (p : value) : M unit :=
  fun st => match update_null name c SNull (working st) with
            | inl e => (Raise e, st)
            | inr _ =>
                let st1 := begin st in
                match bind_param p with
                | inl e => (Raise e, st1)
                | inr v =>
                    match update_null name c v (working st1) with
                    | inl e => (Raise e, st1)
                    | inr d' => (Ok tt, mkConn (committed st1) d' true (lastrowid st1)
                                               (EvBackfill name c v :: journal st1))
                    end
                end
            end.

(** What preparing [INSERT OR REPLACE INTO name (keys) ...] rejects. *)
Definition prepare_insert (name : string) (keys : list string) (d : db) : option exn :=
  match find_table name d with
  | None => Some (no_such_table name)
  | Some t =>
      match find (fun k => negb (has_name k (tcols t))) keys with
      | Some k => Some (OperationalError ("table " ++ tname t ++ " has no column named " ++ k))
      | None => None
      end
  end.

Definition execute_insert (name : string) (keys : list string) (params : list value) : M unit :=
  fun st => match prepare_insert name keys (working st) with
            | Some e => (Raise e, st)
            | None =>
                let st1 := begin st in
                match bind_params params with
                | inl e => (Raise e, st1)
                | inr vals =>
                    match insert_or_replace name keys vals (working st1) with
                    | inl e => (Raise e, st1)
                    | inr (d', (rid, r)) =>
                        (Ok tt, mkConn (committed st1) d' true rid
                                       (EvInsert name rid (identity r) :: journal st1))
                    end
                end
            end.

Definition execute_delete (name : string) (cond : condition) : M unit :=
  fun st => match delete_where name cond (working st) with
            | inl e => (Raise e, st)
            | inr d' => (Ok tt, mkConn (committed st) d' true (lastrowid st)
                                       (EvDelete name :: journal st))
            end.

Definition commit : M unit :=
  fun st => (Ok tt, mkConn (working st) (working st) false (lastrowid st) (EvCommit :: journal st)).

(** *** Declarations: model classes and their annotations *)

Inductive pytype : Type :=
| TyStr | TyInt | TyFloat | TyBool | TyList | TyDict   (* the classes str, int, float, bool, list, dict *)
| TyNone                                               (* the annotation None *)
| TyModel (name : string)                              (* a pydantic model class *)
| TyAlias (origin : pytype) (args : list pytype)       (* a types.GenericAlias: list[int], dict[str, int], tuple[int, str] *)
| TyOther (name : string).                             (* any other class or typing form *)

Fixpoint pytype_eqb (a b : pytype) : bool :=
  match a, b with
  | TyStr, TyStr | TyInt, TyInt | TyFloat, TyFloat | TyBool, TyBool
  | TyList, TyList | TyDict, TyDict | TyNone, TyNone => true
  | TyModel x, TyModel y => String.eqb x y
  | TyOther x, TyOther y => String.eqb x y
  | TyAlias o xs, TyAlias p ys =>
      pytype_eqb o p &&
      (fix all2 (xs ys : list pytype) : bool :=
         match xs, ys with
         | [], [] => true
         | x :: xs', y :: ys' => pytype_eqb x y && all2 xs' ys'
         | _, _ => false
         end) xs ys
  | _, _ => false
  end.

(** A model class: [__name__] and [__annotations__]. *)
Record model : Type := mkModel {
  __name__ : string;
  __annotations__ : list (string * pytype)
}.

(** [x in l] for texts and for types. *)
Definition str_in (x : string) (l : list string) : bool := existsb (String.eqb x) l.
Definition type_in (x : pytype) (l : list pytype) : bool := existsb (pytype_eqb x) l.

(** *** Class attributes *)

Definition type_map (t : pytype) : option coltype :=
  match t with
  | TyStr => Some TEXT
  | TyInt => Some INTEGER
  | TyFloat => Some REAL
  | TyBool => Some INTEGER
  | TyList => Some TEXT
  | _ => None
  end.

Definition type_map_get (t : pytype) (default : coltype) : coltype :=
  match type_map t with
  | Some ty => ty
  | None => default
  end.

Definition DEFAULT_VALUE (ty : coltype) : value :=
  match ty with
  | TEXT => VStr ""
  | INTEGER => VInt 0
  | REAL => VFloat "0.0"
  end.

Definition FOREIGNID : string := "FOREIGNID".
Definition JSON : string := "JSON".
Definition LIST : string := "LIST".
Definition DICT : string := "DICT".
Definition ID : string := "$ID".

(** *** auto_migrate *)

(** The body of the loop that builds [model_fields] and [model_types]: the
    column a declared field gets. *)
Definition model_column (field : string) (r_type : pytype) : string * coltype :=
  match r_type with
  | TyModel _ => (FOREIGNID ++ field, TEXT)
  | _ =>
      if type_in r_type [TyAlias TyList [TyStr]; TyAlias TyList [TyInt]; TyAlias TyList [TyFloat];
                         TyAlias TyList [TyBool]; TyList]
      then (LIST ++ field, TEXT)
      else if type_in r_type [TyAlias TyDict [TyStr; TyStr]; TyAlias TyDict [TyStr; TyInt];
                              TyAlias TyDict [TyStr; TyFloat]; TyAlias TyDict [TyStr; TyBool]; TyDict]
      then (DICT ++ field, TEXT)
      else match r_type with
           | TyAlias _ _ => (JSON ++ field, TEXT)
           | _ => (field, type_map_get r_type TEXT)
           end
  end.

Definition model_columns (m : model) : list (string * coltype) :=
  map (fun ft => model_column (fst ft) (snd ft)) (__annotations__ m).

(** The body of the loop over the model's columns: a column the table
    lacks is added, and its NULLs are replaced by the default of its type. *)
Definition add_missing (table_name : string) (table_fields : list string)
           (col : string * coltype) : M unit :=
  let (field_changed, type_) := col in
  if negb (str_in field_changed table_fields) then
    execute_ddl (add_column table_name field_changed type_)
                (EvAddColumn table_name field_changed type_) ;;;
    execute_update_null table_name field_changed (DEFAULT_VALUE type_)
  else ret tt.

(** The body of the loop over the table's columns: a column the model does
    not declare is dropped, [id] apart. *)
Definition drop_extra (table_name : string) (model_fields : list string)
           (field : string) : M unit :=
  if (negb (str_in field model_fields) && negb (String.eqb field "id"))%bool then
    execute_ddl (drop_column table_name field) (EvDropColumn table_name field)
  else ret tt.

(** The body of [for model in args]. *)
Definition migrate_one (m : model) : M unit :=
  let table_name := __name__ m in
  match dict_get "id" (__annotations__ m) with
  | Some TyNone | None => execute_create table_name INTEGER true
  | Some id_ann => execute_create table_name (type_map_get id_ann TEXT) false
  end ;;;
  table_fields <- query (fun d => inr (table_info table_name d)) ;;
  match __annotations__ m with
  | [] => raise (ValueError "not enough values to unpack (expected 2, got 0)")
  | _ => ret tt
  end ;;;
  let model_fields := map fst (model_columns m) in
  for_each (model_columns m) (fun _ col => add_missing table_name table_fields col) tt ;;;
  for_each table_fields (fun _ field => drop_extra table_name model_fields field) tt.

Definition auto_migrate (args : list model) : M unit :=
  for_each args (fun _ m => migrate_one m) tt ;;;
  commit.

(** *** _detect_for_table *)

Definition _detect_for_table (table_name : string) : M bool :=
  query (fun d => inr (in_master table_name d)).

(** *** upsert and _flat *)

(** The reference token [f'{ID}:{class name}:{identity}']. *)
Definition token (cls : string) (identity : value) : string :=
  ID ++ ":" ++ cls ++ ":" ++ py_str identity.

Definition dumps (v : value) : M string :=
  match json_dumps v with
  | Some s => ret s
  | None => raise TypeError
  end.

(** The bodies of the loops of [upsert] and [_flat], over the two methods
    they call back. *)
Section Bodies.

Variable upsert_ : list value -> M value.
Variable _flat_ : value -> M string.

(** One field of [model.__dict__] in [upsert], and one item of a dict in
    [_flat]: the key under its prefix, and the value to store. *)
Definition prefixed_entry (fv : string * value) : M (string * value) :=
  let (field, v) := fv in
  match v with
  | VModel cls _ =>
      i <- upsert_ [v] ;;
      ret (FOREIGNID ++ field, VStr (token cls i))
  | VList _ =>
      s <- _flat_ v ;;
      ret (LIST ++ field, VStr s)
  | VDict _ =>
      s <- _flat_ v ;;
      ret (DICT ++ field, VStr s)
  | VTuple _ | VSet _ =>
      s <- _flat_ v ;;
      ret (JSON ++ field, VStr s)
  | _ => ret (field, v)
  end.

(** One element of a list, tuple or set in [_flat]. *)
Definition flat_element (v : value) : M value :=
  match v with
  | VModel cls _ =>
      i <- upsert_ [v] ;;
      ret (VStr (token cls i))
  | VList _ | VDict _ | VTuple _ | VSet _ =>
      s <- _flat_ v ;;
      ret (VStr s)
  | _ => ret v
  end.

(** [key_list] and [value_list] for the fields of one model. *)
Definition key_values (fields : list (string * value)) : M (list string * list value) :=
  for_each fields
    (fun acc fv =>
       e <- prefixed_entry fv ;;
       ret (append (fst acc) (fst e), append (snd acc) (snd e)))
    ([], []).

(** The body of [for model in models]: the rowid of the row written. *)
Definition upsert_model (m : value) : M Z :=
  match m with
  | VModel table_name fields =>
      found <- _detect_for_table table_name ;;
      if negb found
      then raise (ValueError ("表" ++ table_name ++ "不存在，请先迁移"))
      else
        kv <- key_values fields ;;
        execute_insert table_name (fst kv) (snd kv) ;;;
        fun st => (Ok (lastrowid st), st)
  | _ => raise AttributeError
  end.

End Bodies.

(** The two methods call each other; [fuel] bounds the depth of the calls
    (the interpreter's recursion limit) and both raise [RecursionError] when
    it is used up. *)
Fixpoint upsert (fuel : nat) (models : list value) {struct fuel} : M value :=
  match fuel with
  | O => raise RecursionError
  | S k =>
      ids <- for_each models
               (fun ids m =>
                  i <- upsert_model (upsert k) (_flat k) m ;;
                  ret (append ids i)) [] ;;
      commit ;;;
      ret (match ids with
           | [i] => VInt i
           | _ => VTuple (map VInt ids)
           end)
  end
with _flat (fuel : nat) (data : value) {struct fuel} : M string :=
  match fuel with
  | O => raise RecursionError
  | S k =>
      match data with
      | VDict items =>
          return_data <- for_each items
                           (fun return_data kv =>
                              e <- prefixed_entry (upsert k) (_flat k) kv ;;
                              ret (dict_set (fst e) (snd e) return_data)) [] ;;
          dumps (VDict return_data)
      | VList items | VTuple items | VSet items =>
          return_data <- for_each items
                           (fun return_data v =>
                              x <- flat_element (upsert k) (_flat k) v ;;
                              ret (append return_data x)) [] ;;
          dumps (VList return_data)
      | _ => raise (ValueError "数据类型错误")
      end
  end.

(** *** convert_to_dict *)

(** The call of the model class on the loaded keyword arguments: the
    instance is identified with its class name and the arguments it is built
    from.  pydantic's validation is not part of this code: it rejects
    arguments that are not of the declared classes and builds instances from
    the dicts of nested records.  The statements that name the instance
    returned assume arguments the class keeps as they are. *)
Definition instantiate (m : model) (kwargs : value) : exn + value :=
  match kwargs with
  | VDict d => inr (VModel (__name__ m) d)
  | _ => inl TypeError
  end.

(** [dict(cursor.execute('SELECT * FROM {name} WHERE id = ?', (ident,)).fetchone())]
    where [name] and [ident] are fields 1 and 2 of [v.split(":", 2)]. *)
Definition fetch_reference (d : db) (v : string) : exn + value :=
  let parts := split ":" 2 v in
  match nth_error parts 1, nth_error parts 2 with
  | Some name, Some ident =>
      match select_by_id name (SText ident) d with
      | inl e => inl e
      | inr [] => inl TypeError
      | inr (r :: _) => inr (dict_of_row r)
      end
  | _, _ => inl IndexError
  end.

(** [json.loads(v)] after [if v == '': v = empty]. *)
Definition loads_or (empty : string) (v : value) : exn + value :=
  match v with
  | VStr s =>
      match json_loads (if String.eqb s "" then empty else s) with
      | Some x => inr x
      | None => inl JSONDecodeError
      end
  | _ => inl TypeError
  end.

(** The nested function [load].  It follows references through the store,
    so a cycle of references never ends: [fuel] is the recursion limit. *)
Fixpoint load (fuel : nat) (store : db) (d : value) {struct fuel} : exn + value :=
  match fuel with
  | O => inl RecursionError
  | S n =>
      match d with
      | VDict items =>
          match fold_err items
                  (fun (new_d : list (string * value)) kv =>
                     let (k, v) := kv in
                     if startswith k FOREIGNID then
                       match v with
                       | VStr s =>
                           match fetch_reference store s with
                           | inl e => inl e
                           | inr r =>
                               match load n store r with
                               | inl e => inl e
                               | inr x => inr (dict_set (remove_all FOREIGNID k) x new_d)
                               end
                           end
                       | _ => inl AttributeError
                       end
                     else if startswith k LIST then
                       match loads_or "[]" v with
                       | inl e => inl e
                       | inr j => match load n store j with
                                  | inl e => inl e
                                  | inr x => inr (dict_set (remove_all LIST k) x new_d)
                                  end
                       end
                     else if startswith k DICT then
                       match loads_or "{}" v with
                       | inl e => inl e
                       | inr j => match load n store j with
                                  | inl e => inl e
                                  | inr x => inr (dict_set (remove_all DICT k) x new_d)
                                  end
                       end
                     else if startswith k JSON then
                       match loads_or "[]" v with
                       | inl e => inl e
                       | inr j => match load n store j with
                                  | inl e => inl e
                                  | inr x => inr (dict_set (remove_all JSON k) x new_d)
                                  end
                       end
                     else inr (dict_set k v new_d)) []
          with
          | inl e => inl e
          | inr new_d => inr (VDict new_d)
          end
      | VList items | VTuple items | VSet items =>
          match fold_err items
                  (fun (new_d : list value) v =>
                     match v with
                     | VStr s =>
                         if startswith s ID then
                           match fetch_reference store s with
                           | inl e => inl e
                           | inr r => match load n store r with
                                      | inl e => inl e
                                      | inr x => inr (append new_d x)
                                      end
                           end
                         else inr new_d
                     | VList _ | VTuple _ | VSet _ | VDict _ =>
                         match load n store v with
                         | inl e => inl e
                         | inr x => inr (append new_d x)
                         end
                     | _ => inr new_d
                     end) []
          with
          | inl e => inl e
          | inr new_d => inr (VList new_d)
          end
      | _ => inr d
      end
  end.

Definition convert_to_dict (fuel : nat) (data : value) : M value :=
  query (fun d => load fuel d data).

(** *** first, all, delete *)

Definition first (fuel : nat) (m : model) (conditions : condition) (default : value) : M value :=
  let table_name := __name__ m in
  found <- _detect_for_table table_name ;;
  if negb found then ret default
  else
    rows <- query (select_where table_name conditions) ;;
    match rows with
    | row_data :: _ =>
        let data := dict_of_row row_data in
        kwargs <- convert_to_dict fuel data ;;
        lift (instantiate m kwargs)
    | [] => ret default
    end.

(** [conditions] is [None] for a missing or empty condition text. *)
Definition all (fuel : nat) (m : model) (conditions : option condition) (default : value) : M value :=
  let table_name := __name__ m in
  found <- _detect_for_table table_name ;;
  if negb found then ret default
  else
    row_datas <- match conditions with
                 | Some cond => query (select_where table_name cond)
                 | None => query (select_where table_name (fun _ _ => true))
                 end ;;
    match row_datas with
    | _ :: _ =>
        let datas := map dict_of_row row_datas in
        match datas with
        | _ :: _ =>
            ms <- for_each datas
                    (fun acc d =>
                       kwargs <- convert_to_dict fuel d ;;
                       x <- lift (instantiate m kwargs) ;;
                       ret (append acc x)) [] ;;
            ret (VList ms)
        | [] => ret default
        end
    | [] => ret default
    end.

Definition delete (m : model) (conditions : condition) : M unit :=
  let table_name := __name__ m in
  found <- _detect_for_table table_name ;;
  if negb found then ret tt
  else
    execute_delete table_name conditions ;;;
    commit.

(** A connection to a new, empty database file. *)
Definition connect : conn := mkConn [] [] false 0 [].

End Database.

Import Database.

(* ================================================================== *)
(** ** Vocabulary of the statements *)
(* ================================================================== *)

(** [preserves I m]: whatever [m] does and however it ends, it keeps [I]. *)
Definition preserves {A : Type} (I : conn -> Prop) (m : M A) : Prop :=
  forall st r st', m st = (r, st') -> I st -> I st'.

(** The rows of [t] that a query of [all] selects. *)
Definition matching (conditions : option condition) (t : table) : list (Z * row) :=
  filter (fun ir => match conditions with
                    | Some cond => cond t (snd ir)
                    | None => true
                    end) (trows t).

(** Table [t] holds a record of identity [o]; where the identity is the
    rowid, the row is filed under it. *)
Definition record_at (t : table) (o : option sqlval) : Prop :=
  exists rid r,
    In (rid, r) (trows t) /\ identity r = o /\
    (lookup_ci "id" (tcols t) = Some INTEGER -> o = Some (SInt rid)).

(** The values that hold no model instance, at any depth. *)
Fixpoint no_model (v : value) : bool :=
  match v with
  | VModel _ _ => false
  | VList l | VTuple l | VSet l => forallb no_model l
  | VDict d => forallb (fun kv => no_model (snd kv)) d
  | _ => true
  end.

(** The value holds, at some depth, a record of class [T]. *)
Fixpoint mentions (T : string) (v : value) : bool :=
  match v with
  | VModel cls fields =>
      (String.eqb cls T || existsb (fun fv => mentions T (snd fv)) fields)%bool
  | VList l | VTuple l | VSet l => existsb (mentions T) l
  | VDict d => existsb (fun kv => mentions T (snd kv)) d
  | _ => false
  end.

(** A record without nested records. *)
Definition flat_model (m : value) : bool :=
  match m with
  | VModel _ fields => forallb (fun fv => no_model (snd fv)) fields
  | _ => true
  end.

(** Table [T] of database [d] has a row under rowid [rid]. *)
Definition row_in (d : db) (T : string) (rid : Z) : Prop :=
  exists t r, find_table T d = Some t /\ In (rid, r) (trows t).

(** Table [T] of database [d] has a record of identity [o]. *)
Definition has_record (d : db) (T : string) (o : option sqlval) : Prop :=
  exists t rid r, find_table T d = Some t /\ In (rid, r) (trows t) /\ identity r = o.

(** The same, with the row filed under its rowid where that is the
    identity. *)
Definition filed (d : db) (T : string) (o : option sqlval) : Prop :=
  exists t, find_table T d = Some t /\ record_at t o.

(** The invariant of a call of [upsert], for the events [new] added to the
    journal since it read [j0]: a record of identity [o] written to [T] is
    in the working store, and it is in the committed store once a COMMIT
    followed. *)
Definition writes_kept (j0 : list event) (T : string) (o : option sqlval) (st : conn) : Prop :=
  exists new,
    journal st = (new ++ j0)%list /\
    ((exists rid, In (EvInsert T rid o) new) -> filed (working st) T o) /\
    (forall l1 l2, new = (l1 ++ EvCommit :: l2)%list ->
                   (exists rid, In (EvInsert T rid o) l2) -> filed (committed st) T o).

(** The column names of a table, as [PRAGMA table_info] lists them. *)
Definition names (t : table) : list string := map fst (tcols t).

(** No two columns of a table have the same name up to case; SQLite keeps
    every table so. *)
Definition distinct (l : list string) : Prop := NoDup (map lower l).

(** Every row of the table has exactly the table's columns. *)
Definition aligned (t : table) : Prop :=
  forall ir, In ir (trows t) -> map fst (snd ir) = names t.

(** The zero value of a storage type: [DEFAULT_VALUE], once bound and
    stored. *)
Definition zero (ty : coltype) : sqlval :=
  match ty with
  | TEXT => SText ""
  | INTEGER => SInt 0
  | REAL => SReal "0.0"
  end.

(** [t] with the columns [A] appended, every row reading the zero of the
    column's type in each of them. *)
Definition extend (A : list (string * coltype)) (t : table) : table :=
  mkTable (tname t) (tcols t ++ A)%list (tauto t) (tseq t)
          (map (fun ir => (fst ir, (snd ir ++ map (fun c => (fst c, zero (snd c))) A)%list))
               (trows t)).

(** The name [k] is none of [D], up to case. *)
Definition kept (D : list string) (k : string) : bool :=
  forallb (fun x => negb (same_name k x)) D.

(** [t] without the columns named in [D]. *)
Definition shrink (D : list string) (t : table) : table :=
  mkTable (tname t) (filter (fun kv => kept D (fst kv)) (tcols t)) (tauto t) (tseq t)
          (map (fun ir => (fst ir, filter (fun kv => kept D (fst kv)) (snd ir))) (trows t)).

(** The columns the loop adds: the model's columns whose name is not among
    the table's. *)
Definition added (fields0 : list string) (cols : list (string * coltype)) : list (string * coltype) :=
  filter (fun c => negb (str_in (fst c) fields0)) cols.

(** The columns the second loop drops. *)
Definition dropped (model_fields fields0 : list string) : list string :=
  filter (fun f => (negb (str_in f model_fields) && negb (String.eqb f "id"))%bool) fields0.

(** *** Further vocabulary: schema, errors, declarations *)

(** The tables of a database with their columns: the schema. *)
Definition schema (d : db) : list (string * list (string * coltype)) :=
  map (fun t => (tname t, tcols t)) d.

(** [m] never ends in the exception [e0]. *)
Definition never_raises {A : Type} (e0 : exn) (m : M A) : Prop :=
  forall st e st', m st = (Raise e, st') -> e <> e0.

(** The error [_flat] raises at data it cannot iterate. *)
Definition data_type_error : exn := ValueError "数据类型错误".

(** The values [upsert] hands to SQLite as they are. *)
Definition is_scalar (v : value) : bool :=
  match v with
  | VNone | VBool _ | VInt _ | VFloat _ | VStr _ => true
  | _ => false
  end.

(** The classes [str], [int], [float] and [bool]. *)
Definition plain (ty : pytype) : bool := type_in ty [TyStr; TyInt; TyFloat; TyBool].

(** A field declared [ty] holds [v]: a scalar under a plain class, a record
    under a model class, a list under [list] or [list[plain]], a dict under
    [dict] or [dict[str, plain]], a tuple or a set under a parameterized
    form of another class ([tuple[int, str]], [set[str]]). *)
Definition declared_as (ty : pytype) (v : value) : bool :=
  match ty, v with
  | TyModel _, VModel _ _ => true
  | TyList, VList _ => true
  | TyAlias TyList [a], VList _ => plain a
  | TyDict, VDict _ => true
  | TyAlias TyDict [TyStr; a], VDict _ => plain a
  | TyAlias (TyOther _) _, (VTuple _ | VSet _) => true
  | (TyStr | TyInt | TyFloat | TyBool), _ => is_scalar v
  | _, _ => false
  end.

(** *** Further vocabulary: names and prefixes *)

(** [p in s] for two texts. *)
Fixpoint contains (p s : string) : bool :=
  match s with
  | EmptyString => String.prefix p s
  | String _ r => (String.prefix p s || contains p r)%bool
  end.

(** None of the adapter's prefixes starts the name [k]. *)
Definition unprefixed (k : string) : bool :=
  negb (startswith k FOREIGNID || startswith k LIST || startswith k DICT || startswith k JSON).

(** The elements of a sequence that [load] keeps: the texts that start like
    a reference token, and the containers. *)
Definition loadable (v : value) : bool :=
  match v with
  | VStr s => startswith s ID
  | _ => is_BaseIterable v
  end.

(** *** Further vocabulary: keyed tables and records of scalars *)

(** [t] with the rows [rows] in place of its own. *)
Definition with_rows (t : table) (rows : list (Z * row)) : table :=
  mkTable (tname t) (tcols t) (tauto t) (tseq t) rows.

(** A table made with [id INTEGER PRIMARY KEY], as SQLite keeps it: each
    row holds its rowid in [id], and no two rows share a rowid. *)
Definition keyed (t : table) : Prop :=
  lookup_ci "id" (tcols t) = Some INTEGER /\
  (forall rid r, In (rid, r) (trows t) -> identity r = Some (SInt rid)) /\
  NoDup (map fst (trows t)).











(** *** Further vocabulary: JSON texts and the loop of the loader *)

(** The scalars that JSON writes and reads back as they are: [None], the
    booleans, the integers and the texts. *)
Definition json_exact (v : value) : bool :=
  match v with
  | VNone | VBool _ | VInt _ | VStr _ => true
  | _ => false
  end.

(** What may follow a value inside a JSON array or object: a comma or the
    closing bracket or brace. *)
Definition closing (rest : string) : Prop :=
  exists c r, rest = String c r /\ (c = "," \/ c = "}" \/ c = "]")%char.

(** The text of one item of a dict. *)
Definition member_text (kv : string * value) (it : string) : Prop :=
  exists t, json_dumps (snd kv) = Some t /\ it = json_quote (fst kv) ++ ": " ++ t.




(* ================================================================== *)
(** ** Classes, records and connections of the examples *)
(* ================================================================== *)

(** [class User(LiteModel): id: int = None; name: str; tags: list[str]] and
    two of its instances. *)
Definition User : model :=
  mkModel "User" [("id", TyInt); ("name", TyStr); ("tags", TyAlias TyList [TyStr])].

Definition user_a : value :=
  VModel "User" [("id", VNone); ("name", VStr "a"); ("tags", VList [VStr "x"; VStr "y"])].

Definition user_no_tags : value :=
  VModel "User" [("id", VNone); ("name", VStr "b"); ("tags", VList [])].

(** [class Child(LiteModel): id: int = None; name: str] and
    [class Parent(LiteModel): id: int = None; child: Child]. *)
Definition Child : model := mkModel "Child" [("id", TyInt); ("name", TyStr)].
Definition Parent : model := mkModel "Parent" [("id", TyInt); ("child", TyModel "Child")].

Definition child_n : value := VModel "Child" [("id", VNone); ("name", VStr "n")].
Definition parent_of_n : value := VModel "Parent" [("id", VNone); ("child", child_n)].

(** A record of a class that was never migrated. *)
Definition stray : value := VModel "Stray" [("id", VNone)].

(** The connection after [db.auto_migrate(Parent, Child, User)]. *)
Definition migrated : conn := snd (auto_migrate [Parent; Child; User] connect).

(** [class Grid(LiteModel): id: int = None; cells: list[list[int]]] *)
Definition Grid : model :=
  mkModel "Grid" [("id", TyInt); ("cells", TyAlias TyList [TyAlias TyList [TyInt]])].

Definition grid_1 : value :=
  VModel "Grid" [("id", VNone); ("cells", VList [VList [VInt 1]])].

(** [class Label(LiteModel): id: str; text: str] and
    [class Note(LiteModel): id: int = None; label: Label] *)
Definition Label : model := mkModel "Label" [("id", TyStr); ("text", TyStr)].
Definition Note : model := mkModel "Note" [("id", TyInt); ("label", TyModel "Label")].

Definition note_1 : value :=
  VModel "Note" [("id", VInt 1);
                 ("label", VModel "Label" [("id", VStr "k"); ("text", VStr "t")])].

(** An older declaration of [User], with a field [nick] and no [tags], and
    the connection after [auto_migrate] of it and one [upsert]. *)
Definition User_v0 : model :=
  mkModel "User" [("id", TyInt); ("name", TyStr); ("nick", TyStr)].

Definition legacy : conn :=
  snd ((auto_migrate [User_v0] ;;;
        upsert 10 [VModel "User" [("id", VNone); ("name", VStr "a"); ("nick", VStr "al")]]) connect).

Definition legacy_users : table :=
  mkTable "User" [("id", INTEGER); ("name", TEXT); ("nick", TEXT)] false 0
          [(1, [("id", SInt 1); ("name", SText "a"); ("nick", SText "al")])].




(** A class that declares nothing of its own: [class Empty(LiteModel): pass]. *)
Definition Empty : model := mkModel "Empty" [].

(** The connection after a call that failed at its second record. *)
Definition half_written : conn := snd (upsert 10 [child_n; stray] migrated).

(* ================================================================== *)
(** ** Reasoning about method bodies *)
(* ================================================================== *)

Section MonadFacts.

Context {A B : Type}.

Lemma bind_inv (m : M A) (k : A -> M B) (st st' : conn) (r : outcome B) :
  bind m k st = (r, st') ->
  (exists a st1, m st = (Ok a, st1) /\ k a st1 = (r, st')) \/
  (exists e, m st = (Raise e, st') /\ r = Raise e).
Proof.
  unfold bind. destruct (m st) as [[a | e] st1] eqn:E; intros H.
  - left. exists a, st1. split; [reflexivity | exact H].
  - right. exists e. inversion H; subst. split; reflexivity.
Qed.

Lemma bind_ok (m : M A) (k : A -> M B) (st st1 : conn) (a : A) :
  m st = (Ok a, st1) -> bind m k st = k a st1.
Proof. unfold bind. intros ->. reflexivity. Qed.

Lemma bind_raise (m : M A) (k : A -> M B) (st st1 : conn) (e : exn) :
  m st = (Raise e, st1) -> bind m k st = (Raise e, st1).
Proof. unfold bind. intros ->. reflexivity. Qed.

End MonadFacts.

Section Preservation.

Variable I : conn -> Prop.

Lemma preserves_ret {A : Type} (a : A) : preserves I (ret a).
Proof. intros st r st' H HI. inversion H; subst. exact HI. Qed.

Lemma preserves_raise {A : Type} (e : exn) : preserves I (@raise A e).
Proof. intros st r st' H HI. inversion H; subst. exact HI. Qed.

Lemma preserves_bind {A B : Type} (m : M A) (k : A -> M B) :
  preserves I m -> (forall a, preserves I (k a)) -> preserves I (bind m k).
Proof.
  intros Hm Hk st r st' H HI.
  destruct (bind_inv _ _ _ _ _ H) as [(a & st1 & E1 & E2) | (e & E1 & _)].
  - eapply Hk; [exact E2 | eapply Hm; eauto].
  - eapply Hm; eauto.
Qed.

Lemma preserves_query {A : Type} (stmt : db -> exn + A) : preserves I (query stmt).
Proof.
  intros st r st' H HI. unfold query in H.
  destruct (stmt (working st)); inversion H; subst; exact HI.
Qed.

Lemma preserves_for_each {A S : Type} (body : S -> A -> M S) (l : list A) :
  (forall acc x, In x l -> preserves I (body acc x)) ->
  forall acc, preserves I (for_each l body acc).
Proof.
  induction l as [| x l IH]; intros Hb acc; simpl.
  - apply preserves_ret.
  - apply preserves_bind.
    + apply Hb. left. reflexivity.
    + intros a. apply IH. intros acc' y Hy. apply Hb. right. exact Hy.
Qed.

Lemma preserves_dumps (v : value) : preserves I (dumps v).
Proof. unfold dumps. destruct (json_dumps v); [apply preserves_ret | apply preserves_raise]. Qed.

Lemma preserves_detect (name : string) : preserves I (_detect_for_table name).
Proof. apply preserves_query. Qed.

End Preservation.

Lemma for_each_app {A S : Type} (body : S -> A -> M S) (l1 l2 : list A) (acc : S) (st : conn) :
  for_each (l1 ++ l2)%list body acc st =
  bind (for_each l1 body acc) (fun acc' => for_each l2 body acc') st.
Proof.
  revert acc st. induction l1 as [| x l1 IH]; intros acc st; simpl.
  - reflexivity.
  - unfold bind. destruct (body acc x st) as [[a | e] st1].
    + rewrite IH. unfold bind. reflexivity.
    + reflexivity.
Qed.

(* ================================================================== *)
(** ** Missing tables on the read side *)
(* ================================================================== *)

(** C5.  Against a record type whose table is not in the store, [first] and
    [all] return the caller's default and [delete] returns normally; none of
    them raises and none of them changes the connection. *)
Theorem missing_table_returns_default :
  forall (fuel : nat) (m : model) (cond : condition) (ocond : option condition)
         (default : value) (st : conn),
    in_master (__name__ m) (working st) = false ->
    first fuel m cond default st = (Ok default, st) /\
    all fuel m ocond default st = (Ok default, st) /\
    delete m cond st = (Ok tt, st).
Proof.
  intros fuel m cond ocond default st H.
  unfold first, all, delete, _detect_for_table, bind, query.
  rewrite H. simpl. repeat split.
Qed.

Lemma select_where_rows (name : string) (cond : condition) (d : db) (t : table) :
  find_table name d = Some t ->
  select_where name cond d = inr (map snd (filter (fun ir => cond t (snd ir)) (trows t))).
Proof. unfold select_where. intros ->. reflexivity. Qed.

Lemma for_each_grows {X Y : Type} (body : list X -> Y -> M (list X)) (l : list Y) :
  (forall acc d st out st',
      body acc d st = (Ok out, st') -> List.length out = S (List.length acc)) ->
  forall (acc out : list X) (st st' : conn),
    for_each l body acc st = (Ok out, st') ->
    List.length out = (List.length acc + List.length l)%nat.
Proof.
  intros Hb. induction l as [| d l IH]; intros acc out st st' H; simpl in H.
  - inversion H; subst. simpl. lia.
  - destruct (bind_inv _ _ _ _ _ H) as [(a & st1 & E1 & E2) | (e & _ & E)]; [| discriminate].
    apply Hb in E1. apply IH in E2. simpl. lia.
Qed.

(** C10.  When the table exists and no row matches, [all] returns the
    caller's default; and whatever [all] returns without raising is either
    that default or a list with at least one record: it is never an empty
    list, unless the caller passed one as the default. *)
Theorem all_returns_default_never_empty_list :
  forall (fuel : nat) (m : model) (conditions : option condition) (default : value)
         (st : conn) (t : table),
    in_master (__name__ m) (working st) = true ->
    find_table (__name__ m) (working st) = Some t ->
    (matching conditions t = [] -> all fuel m conditions default st = (Ok default, st)) /\
    (forall v st', all fuel m conditions default st = (Ok v, st') ->
                   (v = default \/ exists x xs, v = VList (x :: xs)) /\
                   (default <> VList [] -> v <> VList [])).
Proof.
  intros fuel m conditions default st t Hm Ht. split.
  - intros Hnone. unfold all, _detect_for_table.
    unfold bind at 1. unfold query at 1. rewrite Hm. simpl.
    unfold matching in Hnone.
    destruct conditions as [cond |]; unfold bind, query;
      rewrite (select_where_rows _ _ _ _ Ht), Hnone; reflexivity.
  - intros v st' H.
    assert (Hv : v = default \/ exists x xs, v = VList (x :: xs));
      [| split; [exact Hv |];
         intros Hd; destruct Hv as [-> | (x & xs & ->)]; [exact Hd | discriminate]].
    unfold all, _detect_for_table in H.
    unfold bind at 1 in H. unfold query at 1 in H. rewrite Hm in H. simpl in H.
    destruct (bind_inv _ _ _ _ _ H) as [(rows & st1 & _ & E2) | (e & _ & E)]; [| discriminate].
    destruct rows as [| r rows]; cbn [map] in E2.
    + inversion E2. left. reflexivity.
    + right.
      destruct (bind_inv _ _ _ _ _ E2) as [(ms & st2 & E3 & E4) | (e & _ & E)]; [| discriminate].
      inversion E4; subst.
      apply for_each_grows in E3.
      * destruct ms as [| x xs]; [simpl in E3; lia |]. exists x, xs. reflexivity.
      * intros acc d st0 out st0' Hb.
        destruct (bind_inv _ _ _ _ _ Hb) as [(kw & st3 & _ & E5) | (e & _ & E)]; [| discriminate].
        destruct (bind_inv _ _ _ _ _ E5) as [(x & st4 & _ & E6) | (e & _ & E)]; [| discriminate].
        inversion E6; subst. unfold append. rewrite length_app. simpl. lia.
Qed.

(* ================================================================== *)
(** ** Facts about the store *)
(* ================================================================== *)

Lemma same_name_iff (a b : string) : same_name a b = true <-> lower a = lower b.
Proof. unfold same_name. apply String.eqb_eq. Qed.

Lemma same_name_false (a b : string) : same_name a b = false <-> lower a <> lower b.
Proof. unfold same_name. apply String.eqb_neq. Qed.

Lemma same_name_refl (a : string) : same_name a a = true.
Proof. apply same_name_iff. reflexivity. Qed.

(** Turns every [same_name] test in sight into an equation between folded
    names, then lets [congruence] finish. *)
Ltac names :=
  repeat match goal with
         | H : same_name _ _ = true |- _ => apply same_name_iff in H
         | H : same_name _ _ = false |- _ => apply same_name_false in H
         | |- same_name _ _ = true => apply same_name_iff
         | |- same_name _ _ = false => apply same_name_false
         end;
  try congruence.

Lemma find_table_name (n : string) (d : db) (t : table) :
  find_table n d = Some t -> same_name (tname t) n = true.
Proof.
  induction d as [| t0 d IH]; simpl; [discriminate |].
  destruct (same_name (tname t0) n) eqn:E; intros H.
  - inversion H; subst. exact E.
  - apply IH. exact H.
Qed.

Lemma find_table_In (n : string) (d : db) (t : table) :
  find_table n d = Some t -> In t d.
Proof.
  induction d as [| t0 d IH]; simpl; [discriminate |].
  destruct (same_name (tname t0) n); intros H.
  - inversion H. left. reflexivity.
  - right. apply IH. exact H.
Qed.

(** Replacing the table found under [n'] by one of the same name: what a
    lookup under [n] sees afterwards. *)
Lemma find_table_update (n n' : string) (f : table -> table) (d : db) (t0 : table) :
  find_table n' d = Some t0 ->
  tname (f t0) = tname t0 ->
  find_table n (update_table n' f d) =
  if same_name n' n then Some (f t0) else find_table n d.
Proof.
  intros H Hn. induction d as [| t d IH]; simpl in *; [discriminate |].
  destruct (same_name (tname t) n') eqn:E.
  - inversion H; subst t0. simpl. rewrite Hn.
    destruct (same_name (tname t) n) eqn:E1, (same_name n' n) eqn:E2; try reflexivity;
      exfalso; names.
  - simpl. specialize (IH H).
    destruct (same_name (tname t) n) eqn:E1.
    + destruct (same_name n' n) eqn:E2; [exfalso; names | reflexivity].
    + exact IH.
Qed.

Lemma in_master_update (n n' : string) (f : table -> table) (d : db) (t0 : table) :
  find_table n' d = Some t0 ->
  tname (f t0) = tname t0 ->
  in_master n (update_table n' f d) = in_master n d.
Proof.
  intros H Hn. induction d as [| t d IH]; simpl in *; [discriminate |].
  destruct (same_name (tname t) n') eqn:E.
  - inversion H; subst t0. simpl. unfold in_master. simpl. rewrite Hn. reflexivity.
  - unfold in_master in *. simpl. rewrite (IH H). reflexivity.
Qed.

Lemma In_insert_sorted (x y : Z * row) (l : list (Z * row)) :
  In x (insert_sorted y l) <-> x = y \/ In x l.
Proof.
  induction l as [| z l IH]; simpl.
  - intuition congruence.
  - destruct (fst y <? fst z); simpl; rewrite ?IH; intuition congruence.
Qed.

Lemma sqlval_eqb_eq (a b : sqlval) : sqlval_eqb a b = true -> a = b.
Proof.
  destruct a, b; simpl; intros H; try discriminate; try reflexivity.
  - apply Z.eqb_eq in H. subst. reflexivity.
  - apply String.eqb_eq in H. subst. reflexivity.
  - apply String.eqb_eq in H. subst. reflexivity.
Qed.

(** An INSERT keeps the table's name and columns. *)
Lemma insert_rowid_schema (t t' : table) (r : row) (ir : Z * row) :
  insert_rowid t r = inr (t', ir) -> tname t' = tname t /\ tcols t' = tcols t.
Proof.
  unfold insert_rowid. destruct (identity r) as [[| z | x | x] |];
    intros H; inversion H; subst; simpl; split; reflexivity.
Qed.

Lemma insert_into_schema (t t' : table) (keys : list string) (vals : list sqlval) (ir : Z * row) :
  insert_into t keys vals = inr (t', ir) ->
  tname t' = tname t /\ tcols t' = tcols t.
Proof.
  unfold insert_into.
  destruct (find _ keys); [discriminate |].
  destruct (negb _); [discriminate |].
  destruct (lookup_ci "id" (tcols t)) as [[| |] |];
    try (intros H; inversion H; subst; simpl; split; reflexivity).
  apply insert_rowid_schema.
Qed.

Lemma new_row_has (k : string) (cols : list (string * coltype)) (keys : list string)
      (vals : list sqlval) (ty : coltype) :
  lookup_ci k cols = Some ty -> lookup_ci k (new_row cols keys vals) <> None.
Proof.
  unfold new_row. induction cols as [| [c cty] cols IH]; simpl; [discriminate |].
  destruct (same_name c k); [discriminate | exact IH].
Qed.

Lemma set_id_identity (v w : sqlval) (r : row) :
  identity r = Some w -> identity (set_id v r) = Some v.
Proof.
  unfold identity, set_id. induction r as [| [k x] r IH]; simpl; [discriminate |].
  destruct (same_name k "id") eqn:E; simpl; rewrite E; [reflexivity | exact IH].
Qed.

Lemma insert_rowid_records (t t' : table) (r0 : row) (rid : Z) (r : row) :
  lookup_ci "id" (tcols t) = Some INTEGER ->
  identity r0 <> None ->
  insert_rowid t r0 = inr (t', (rid, r)) ->
  record_at t' (identity r) /\ (forall o, record_at t o -> record_at t' o).
Proof.
  intros Hty Hhas. unfold insert_rowid.
  destruct (identity r0) as [[| z | x | x] |] eqn:Hr0; try discriminate; [| | contradiction].
  - intros H. inversion H; subst t' rid r. clear H. split.
    + exists (next_rowid t), (set_id (SInt (next_rowid t)) r0).
      split; [apply In_insert_sorted; left; reflexivity |].
      split; [reflexivity |]. intros _. eapply set_id_identity. exact Hr0.
    + intros o (rid0 & r1 & Hin & Hid & Hc). exists rid0, r1.
      split; [apply In_insert_sorted; right; exact Hin |]. split; assumption.
  - intros H. inversion H; subst t' rid r. clear H. split.
    + exists z, r0. split; [apply In_insert_sorted; left; reflexivity |].
      split; [reflexivity | intros _; exact Hr0].
    + intros o (rid0 & r1 & Hin & Hid & Hc). simpl.
      destruct (Z.eq_dec rid0 z) as [-> | Hne].
      * exists z, r0. split; [apply In_insert_sorted; left; reflexivity |].
        split; [| exact Hc]. rewrite (Hc Hty). exact Hr0.
      * exists rid0, r1. split; [| split; assumption].
        apply In_insert_sorted. right. apply filter_In. split; [exact Hin |].
        simpl. apply negb_true_iff. apply Z.eqb_neq. exact Hne.
Qed.

Lemma no_conflict_false (r0 : row) (ir : Z * row) :
  no_conflict r0 ir = false -> identity (snd ir) = identity r0.
Proof.
  unfold no_conflict.
  destruct (identity r0) as [v |]; [| discriminate].
  destruct (identity (snd ir)) as [w |]; [| destruct v; discriminate].
  intros H.
  assert (E : sqlval_eqb v w = true) by (destruct v; try discriminate; apply negb_false_iff; exact H).
  apply sqlval_eqb_eq in E. congruence.
Qed.

Lemma insert_plain_records (t : table) (r0 : row) :
  lookup_ci "id" (tcols t) <> Some INTEGER ->
  record_at (fst (insert_plain t r0)) (identity r0) /\
  (forall o, record_at t o -> record_at (fst (insert_plain t r0)) o).
Proof.
  intros Hty. unfold insert_plain. simpl. split.
  - exists (next_rowid t), r0. split; [apply In_insert_sorted; left; reflexivity |].
    split; [reflexivity | intros Hc; simpl in Hc; contradiction].
  - intros o (rid0 & r1 & Hin & Hid & _).
    destruct (no_conflict r0 (rid0, r1)) eqn:Ek.
    + exists rid0, r1. split.
      * apply In_insert_sorted. right. apply filter_In. split; assumption.
      * split; [exact Hid | intros Hc; simpl in Hc; contradiction].
    + apply no_conflict_false in Ek. simpl in Ek.
      exists (next_rowid t), r0. split; [apply In_insert_sorted; left; reflexivity |].
      split; [congruence | intros Hc; simpl in Hc; contradiction].
Qed.

(** An INSERT OR REPLACE leaves the record it wrote in the table, and a
    record under every identity that was there: what it removes, it
    replaces by a row of the same identity. *)
Lemma insert_into_records (t t' : table) (keys : list string) (vals : list sqlval)
      (rid : Z) (r : row) :
  insert_into t keys vals = inr (t', (rid, r)) ->
  record_at t' (identity r) /\ (forall o, record_at t o -> record_at t' o).
Proof.
  unfold insert_into.
  destruct (find _ keys); [discriminate |].
  destruct (negb _); [discriminate |].
  set (r0 := new_row (tcols t) keys vals).
  destruct (lookup_ci "id" (tcols t)) as [ty |] eqn:Hty.
  - destruct ty.
    + intros H. inversion H; subst t' rid r. clear H.
      apply (insert_plain_records t r0). rewrite Hty. discriminate.
    + apply insert_rowid_records; [exact Hty |].
      unfold identity, r0. eapply new_row_has. exact Hty.
    + intros H. inversion H; subst t' rid r. clear H.
      apply (insert_plain_records t r0). rewrite Hty. discriminate.
  - intros H. inversion H; subst t' rid r. clear H.
    apply (insert_plain_records t r0). rewrite Hty. discriminate.
Qed.

(* ================================================================== *)
(** ** Invariants of [upsert] and [_flat] *)
(* ================================================================== *)

(** The loop bodies keep an invariant that the two callbacks keep on the
    values [Q] they are handed, and that an INSERT keeps. *)
Section Bodies_preserve.

Variable I : conn -> Prop.
Variable Q : value -> Prop.
Variable upsert_ : list value -> M value.
Variable _flat_ : value -> M string.

Hypothesis upsert_keeps :
  forall cls fields, Q (VModel cls fields) -> preserves I (upsert_ [VModel cls fields]).
Hypothesis flat_keeps : forall v, Q v -> preserves I (_flat_ v).
Hypothesis insert_keeps : forall name keys params, preserves I (execute_insert name keys params).

Lemma prefixed_entry_keeps (fv : string * value) :
  Q (snd fv) -> preserves I (prefixed_entry upsert_ _flat_ fv).
Proof.
  destruct fv as [field v]. simpl. intros Hq.
  destruct v; simpl;
    try apply preserves_ret;
    (apply preserves_bind; [auto | intros; apply preserves_ret]).
Qed.

Lemma flat_element_keeps (v : value) :
  Q v -> preserves I (flat_element upsert_ _flat_ v).
Proof.
  intros Hq. destruct v; simpl;
    try apply preserves_ret;
    (apply preserves_bind; [auto | intros; apply preserves_ret]).
Qed.

Lemma key_values_keeps (fields : list (string * value)) :
  (forall fv, In fv fields -> Q (snd fv)) ->
  preserves I (key_values upsert_ _flat_ fields).
Proof.
  intros Hq. unfold key_values. apply preserves_for_each.
  intros acc fv Hin. apply preserves_bind.
  - apply prefixed_entry_keeps. apply Hq. exact Hin.
  - intros e. apply preserves_ret.
Qed.

Lemma upsert_model_keeps (m : value) :
  (forall cls fields fv, m = VModel cls fields -> In fv fields -> Q (snd fv)) ->
  preserves I (upsert_model upsert_ _flat_ m).
Proof.
  intros Hq. destruct m; simpl; try apply preserves_raise.
  apply preserves_bind; [apply preserves_detect |].
  intros found. destruct (negb found); [apply preserves_raise |].
  apply preserves_bind.
  - apply key_values_keeps. intros fv Hin. eapply Hq; [reflexivity | exact Hin].
  - intros kv. apply preserves_bind; [apply insert_keeps |].
    intros _ st r st' H HI. inversion H; subst. exact HI.
Qed.

End Bodies_preserve.

(** [_flat] on a value without model instances writes nothing: it keeps
    every property of the connection. *)
Lemma flat_no_model_keeps (I : conn -> Prop) :
  forall (fuel : nat) (v : value), no_model v = true -> preserves I (_flat fuel v).
Proof.
  induction fuel as [| k IH]; intros v Hv; simpl; [apply preserves_raise |].
  assert (Hentry : forall fv, no_model (snd fv) = true ->
                              preserves I (prefixed_entry (upsert k) (_flat k) fv)).
  { intros [field x] Hx. simpl in *.
    destruct x; simpl; try discriminate; try apply preserves_ret;
      (apply preserves_bind; [apply IH; exact Hx | intros; apply preserves_ret]). }
  assert (Helem : forall x, no_model x = true ->
                            preserves I (flat_element (upsert k) (_flat k) x)).
  { intros x Hx. destruct x; simpl; try discriminate; try apply preserves_ret;
      (apply preserves_bind; [apply IH; exact Hx | intros; apply preserves_ret]). }
  destruct v; simpl in Hv; try apply preserves_raise;
    (apply preserves_bind; [| intros; apply preserves_dumps]);
    apply preserves_for_each; intros acc x Hin;
    (apply preserves_bind; [| intros; apply preserves_ret]).
  - apply Helem. rewrite forallb_forall in Hv. apply Hv. exact Hin.
  - apply Helem. rewrite forallb_forall in Hv. apply Hv. exact Hin.
  - apply Helem. rewrite forallb_forall in Hv. apply Hv. exact Hin.
  - apply Hentry. rewrite forallb_forall in Hv. apply (Hv x). exact Hin.
Qed.

(** Writing a record without nested records keeps whatever an INSERT keeps:
    no nested [upsert] runs, so nothing is committed on the way. *)
Lemma upsert_flat_model_keeps (I : conn -> Prop) (fuel : nat) (m : value) :
  (forall name keys params, preserves I (execute_insert name keys params)) ->
  flat_model m = true ->
  preserves I (upsert_model (upsert fuel) (_flat fuel) m).
Proof.
  intros Hins Hm.
  apply upsert_model_keeps with (Q := fun v => no_model v = true).
  - intros cls fields Hv. simpl in Hv. discriminate.
  - intros v Hv. apply flat_no_model_keeps. exact Hv.
  - exact Hins.
  - intros cls fields fv -> Hin. simpl in Hm. rewrite forallb_forall in Hm.
    apply (Hm fv). exact Hin.
Qed.

(** Both methods keep every invariant that INSERT and COMMIT keep. *)
Lemma upsert_and_flat_keep (I : conn -> Prop) :
  (forall name keys params, preserves I (execute_insert name keys params)) ->
  preserves I commit ->
  forall fuel : nat,
    (forall models, preserves I (upsert fuel models)) /\
    (forall data, preserves I (_flat fuel data)).
Proof.
  intros Hins Hcommit.
  induction fuel as [| k [IHu IHf]]; simpl.
  - split; intros; apply preserves_raise.
  - assert (Hentry : forall fv, preserves I (prefixed_entry (upsert k) (_flat k) fv)).
    { intros fv. apply prefixed_entry_keeps with (Q := fun _ => True); auto. }
    assert (Helem : forall x, preserves I (flat_element (upsert k) (_flat k) x)).
    { intros x. apply flat_element_keeps with (Q := fun _ => True); auto. }
    split.
    + intros models. apply preserves_bind.
      * apply preserves_for_each. intros acc m _. apply preserves_bind.
        -- apply upsert_model_keeps with (Q := fun _ => True); auto.
        -- intros i. apply preserves_ret.
      * intros ids. apply preserves_bind; [exact Hcommit | intros; apply preserves_ret].
    + intros data.
      destruct data; try apply preserves_raise;
        (apply preserves_bind; [| intros; apply preserves_dumps]);
        apply preserves_for_each; intros acc x _;
        (apply preserves_bind; [| intros; apply preserves_ret]); auto.
Qed.

(** What a successful INSERT did to the connection. *)
Lemma execute_insert_ok (name : string) (keys : list string) (params : list value)
      (st st' : conn) :
  execute_insert name keys params st = (Ok tt, st') ->
  exists t t' vals rid r,
    find_table name (working st) = Some t /\
    insert_into t keys vals = inr (t', (rid, r)) /\
    working st' = update_table name (fun _ => t') (working st) /\
    committed st' = committed st /\
    journal st' = EvInsert name rid (identity r) :: journal st /\
    lastrowid st' = rid.
Proof.
  unfold execute_insert.
  destruct (prepare_insert name keys (working st)); [discriminate |].
  destruct (bind_params params) as [e | vals]; [discriminate |].
  simpl. unfold insert_or_replace.
  destruct (find_table name (working st)) as [t |] eqn:Ht; [| discriminate].
  destruct (insert_into t keys vals) as [e | [t' [rid r]]] eqn:Hi; [discriminate |].
  intros H. inversion H; subst; simpl.
  exists t, t', vals, rid, r. repeat split; assumption.
Qed.

(** A failed INSERT changed nothing but, at most, opened the transaction. *)
Lemma execute_insert_raise (name : string) (keys : list string) (params : list value)
      (st st' : conn) (e : exn) :
  execute_insert name keys params st = (Raise e, st') ->
  working st' = working st /\ committed st' = committed st /\ journal st' = journal st.
Proof.
  unfold execute_insert.
  destruct (prepare_insert name keys (working st)).
  - intros H. inversion H; subst. repeat split.
  - destruct (bind_params params) as [e' | vals].
    + intros H. inversion H; subst. repeat split.
    + destruct (insert_or_replace name keys vals (working (begin st))) as [e' | [d' [rid r]]];
        intros H; inversion H; subst; repeat split.
Qed.

Lemma execute_insert_cases (name : string) (keys : list string) (params : list value)
      (st st' : conn) (r : outcome unit) :
  execute_insert name keys params st = (r, st') ->
  r = Ok tt \/ exists e, r = Raise e.
Proof. destruct r as [[] | e]; intros _; [left; reflexivity | right; exists e; reflexivity]. Qed.

(* ================================================================== *)
(** ** Writes to a missing table *)
(* ================================================================== *)

(** A loop raises when one of its turns raises in every state that keeps
    [I], and all turns keep [I]. *)
Lemma for_each_raises {A S : Type} (I : conn -> Prop) (body : S -> A -> M S) (l : list A) :
  (forall acc x, In x l -> preserves I (body acc x)) ->
  (exists x, In x l /\ forall acc s, I s -> exists e s', body acc x s = (Raise e, s')) ->
  forall acc s, I s -> exists e s', for_each l body acc s = (Raise e, s').
Proof.
  induction l as [| x0 l IH]; intros Hkeep (x & Hin & Hx) acc s HI; [contradiction |].
  simpl. unfold bind. destruct (body acc x0 s) as [[a | e] s1] eqn:E.
  - destruct Hin as [-> | Hin].
    + destruct (Hx acc s HI) as (e & s' & E'). congruence.
    + apply IH.
      * intros acc' y Hy. apply Hkeep. right. exact Hy.
      * exists x. split; [exact Hin | exact Hx].
      * eapply Hkeep; [left; reflexivity | exact E | exact HI].
  - exists e, s1. reflexivity.
Qed.

Lemma bind_raises {A B : Type} (m : M A) (k : A -> M B) (s : conn) :
  (exists e s', m s = (Raise e, s')) -> exists e s', bind m k s = (Raise e, s').
Proof. intros (e & s' & E). exists e, s'. apply bind_raise. exact E. Qed.

(** An INSERT and a COMMIT create no table. *)
Lemma no_table_insert (T : string) (name : string) (keys : list string) (params : list value) :
  preserves (fun s => in_master T (working s) = false) (execute_insert name keys params).
Proof.
  intros s r s' H Hm.
  destruct (execute_insert_cases _ _ _ _ _ _ H) as [-> | [e ->]].
  - apply execute_insert_ok in H.
    destruct H as (t & t' & vals & rid & r0 & Ht & Hi & Hw & _).
    rewrite Hw. rewrite (in_master_update T name _ _ t Ht); [exact Hm |].
    apply insert_into_schema in Hi. apply Hi.
  - apply execute_insert_raise in H. destruct H as (Hw & _). rewrite Hw. exact Hm.
Qed.

Lemma no_table_commit (T : string) :
  preserves (fun s => in_master T (working s) = false) commit.
Proof. intros s r s' H Hm. unfold commit in H. inversion H; subst. exact Hm. Qed.

(** A call that comes upon a record of a class without table, at any depth,
    ends in an error. *)
Lemma missing_table_raises (T : string) :
  forall fuel : nat,
    (forall models s, in_master T (working s) = false ->
                      existsb (mentions T) models = true ->
                      exists e s', upsert fuel models s = (Raise e, s')) /\
    (forall data s, in_master T (working s) = false ->
                    mentions T data = true ->
                    exists e s', _flat fuel data s = (Raise e, s')).
Proof.
  set (I := fun s : conn => in_master T (working s) = false).
  assert (Hkeep : forall fuel, (forall models, preserves I (upsert fuel models)) /\
                               (forall data, preserves I (_flat fuel data))).
  { apply upsert_and_flat_keep; [apply no_table_insert | apply no_table_commit]. }
  induction fuel as [| k [IHu IHf]].
  - split; intros; exists RecursionError, s; reflexivity.
  - destruct (Hkeep k) as [Hku Hkf].
    assert (Hentry_keep : forall fv, preserves I (prefixed_entry (upsert k) (_flat k) fv)).
    { intros fv. apply prefixed_entry_keeps with (Q := fun _ => True); auto. }
    assert (Helem_keep : forall x, preserves I (flat_element (upsert k) (_flat k) x)).
    { intros x. apply flat_element_keeps with (Q := fun _ => True); auto. }
    assert (Hentry : forall field v s, I s -> mentions T v = true ->
                       exists e s', prefixed_entry (upsert k) (_flat k) (field, v) s = (Raise e, s')).
    { intros field v s HI Hv. destruct v; simpl in Hv; try discriminate; simpl;
        apply bind_raises; try (apply IHf; [exact HI | exact Hv]).
      apply IHu; [exact HI |]. simpl. rewrite Hv. reflexivity. }
    assert (Helem : forall v s, I s -> mentions T v = true ->
                      exists e s', flat_element (upsert k) (_flat k) v s = (Raise e, s')).
    { intros v s HI Hv. destruct v; simpl in Hv; try discriminate; simpl;
        apply bind_raises; try (apply IHf; [exact HI | exact Hv]).
      apply IHu; [exact HI |]. simpl. rewrite Hv. reflexivity. }
    split.
    + intros models s HI Hm. cbn [upsert]. apply bind_raises.
      apply existsb_exists in Hm. destruct Hm as (m & Hin & Hm).
      apply (for_each_raises I); [| | exact HI].
      * intros acc x _. apply preserves_bind; [| intros; apply preserves_ret].
        apply upsert_model_keeps with (Q := fun _ => True); auto.
        intros. apply no_table_insert.
      * exists m. split; [exact Hin |]. intros acc s0 HI0. apply bind_raises.
        destruct m; simpl in Hm; try discriminate;
          try (eexists; eexists; reflexivity).
        cbn [upsert_model]. unfold bind at 1. unfold _detect_for_table, query.
        destruct (in_master cls (working s0)) eqn:Ecls; simpl;
          [| eexists; eexists; reflexivity].
        apply bind_raises. apply orb_true_iff in Hm. destruct Hm as [Hm | Hm].
        -- apply String.eqb_eq in Hm. subst cls. unfold I in HI0. congruence.
        -- apply existsb_exists in Hm. destruct Hm as ([field v] & Hfin & Hv). simpl in Hv.
           unfold key_values. apply (for_each_raises I); [| | exact HI0].
           ++ intros acc0 fv _. apply preserves_bind; [apply Hentry_keep | intros; apply preserves_ret].
           ++ exists (field, v). split; [exact Hfin |]. intros acc0 s1 HI1.
              apply bind_raises. apply Hentry; assumption.
    + intros data s HI Hd. cbn [_flat].
      destruct data; simpl in Hd; try discriminate;
        try (eexists; eexists; reflexivity);
        apply bind_raises; apply existsb_exists in Hd; destruct Hd as (x & Hin & Hx);
        (apply (for_each_raises I); [| | exact HI]).
      * intros acc y _. apply preserves_bind; [apply Helem_keep | intros; apply preserves_ret].
      * exists x. split; [exact Hin |]. intros acc s1 HI1. apply bind_raises. apply Helem; assumption.
      * intros acc y _. apply preserves_bind; [apply Helem_keep | intros; apply preserves_ret].
      * exists x. split; [exact Hin |]. intros acc s1 HI1. apply bind_raises. apply Helem; assumption.
      * intros acc y _. apply preserves_bind; [apply Helem_keep | intros; apply preserves_ret].
      * exists x. split; [exact Hin |]. intros acc s1 HI1. apply bind_raises. apply Helem; assumption.
      * intros acc y _. apply preserves_bind; [apply Hentry_keep | intros; apply preserves_ret].
      * exists x. split; [exact Hin |]. intros acc s1 HI1. apply bind_raises.
        destruct x as [field v]. apply Hentry; assumption.
Qed.

(** Only a COMMIT changes the committed store: a call that journals none
    leaves it as it was. *)
Lemma committed_changes_by_commit (fuel : nat) (models : list value) (st st' : conn)
      (r : outcome value) :
  upsert fuel models st = (r, st') ->
  exists new,
    journal st' = (new ++ journal st)%list /\
    (In EvCommit new \/ committed st' = committed st).
Proof.
  set (I := fun s : conn =>
              exists new, journal s = (new ++ journal st)%list /\
                          (In EvCommit new \/ committed s = committed st)).
  assert (Hins : forall name keys params, preserves I (execute_insert name keys params)).
  { intros name keys params s r0 s' H (new & Hj & Hc).
    destruct (execute_insert_cases _ _ _ _ _ _ H) as [-> | [e ->]].
    - apply execute_insert_ok in H.
      destruct H as (t & t' & vals & rid & r1 & _ & _ & _ & Hc' & Hj' & _).
      exists (EvInsert name rid (identity r1) :: new). split.
      + rewrite Hj', Hj. reflexivity.
      + destruct Hc as [Hc | Hc]; [left; right; exact Hc | right; congruence].
    - apply execute_insert_raise in H. destruct H as (_ & Hc' & Hj').
      exists new. split; [congruence |].
      destruct Hc as [Hc | Hc]; [left; exact Hc | right; congruence]. }
  assert (Hcommit : preserves I commit).
  { intros s r0 s' H (new & Hj & _). unfold commit in H. inversion H; subst.
    exists (EvCommit :: new). simpl. split; [rewrite Hj; reflexivity | left; left; reflexivity]. }
  intros H. destruct (upsert_and_flat_keep I Hins Hcommit fuel) as [Hu _].
  eapply Hu; [exact H |]. exists []. split; [reflexivity | right; reflexivity].
Qed.

Lemma upsert_first_missing (k : nat) (T : string) (fields : list (string * value))
      (post : list value) (st : conn) :
  in_master T (working st) = false ->
  upsert (S k) (VModel T fields :: post) st
    = (Raise (ValueError ("表" ++ T ++ "不存在，请先迁移")), st).
Proof.
  intros HT. cbn [upsert for_each]. unfold bind at 1. unfold bind at 1. unfold bind at 1.
  cbn [upsert_model]. unfold bind at 1.
  unfold _detect_for_table, query. rewrite HT. reflexivity.
Qed.

Lemma upsert_flat_prefix_missing (fuel : nat) (pre post : list value) (T : string)
      (fields : list (string * value)) (st : conn) :
  forallb flat_model pre = true ->
  in_master T (working st) = false ->
  exists e st',
    upsert fuel (pre ++ VModel T fields :: post) st = (Raise e, st') /\
    committed st' = committed st.
Proof.
  intros Hpre HT. destruct fuel as [| k].
  - exists RecursionError, st. split; reflexivity.
  - cbn [upsert].
    set (body := fun (ids : list Z) (m : value) =>
                   i <- upsert_model (upsert k) (_flat k) m ;; ret (append ids i)).
    set (I := fun s : conn => committed s = committed st /\ in_master T (working s) = false).
    assert (Hins : forall name keys params, preserves I (execute_insert name keys params)).
    { intros name keys params s r s' H [Hc Hm]. unfold I. split.
      - destruct (execute_insert_cases _ _ _ _ _ _ H) as [-> | [e ->]].
        + apply execute_insert_ok in H.
          destruct H as (t & t' & vals & rid & r0 & _ & _ & _ & Hc' & _). congruence.
        + apply execute_insert_raise in H. destruct H as (_ & Hc' & _). congruence.
      - eapply no_table_insert; [exact H | exact Hm]. }
    assert (Hloop : preserves I (for_each pre body [])).
    { apply preserves_for_each. intros acc m Hin. apply preserves_bind.
      - apply upsert_flat_model_keeps; [exact Hins |].
        rewrite forallb_forall in Hpre. apply Hpre. exact Hin.
      - intros i. apply preserves_ret. }
    unfold bind at 1. rewrite for_each_app. unfold bind at 1.
    destruct (for_each pre body [] st) as [[ids | e] st1] eqn:E1.
    + destruct (Hloop _ _ _ E1 (conj eq_refl HT)) as [Hc Hm].
      cbn [for_each]. unfold bind at 1. unfold body at 1.
      unfold bind at 1. cbn [upsert_model]. unfold bind at 1.
      unfold _detect_for_table, query. rewrite Hm. simpl.
      eexists. exists st1. split; [reflexivity | exact Hc].
    + destruct (Hloop _ _ _ E1 (conj eq_refl HT)) as [Hc Hm].
      exists e, st1. split; [reflexivity | exact Hc].
Qed.

(** C6, as amended.  A call of [upsert] that holds, at any depth, a record
    of a class without table ends in an error.  The failed call commits
    nothing unless a nested [upsert] completed on the way: the committed
    store is as it was when the journal of the call shows no COMMIT, and in
    particular when the records before the failing one hold no nested
    record.  When the failing record comes first, the error is the
    [ValueError] of the missing table and the connection is untouched. *)
Theorem upsert_missing_table_commits_nothing :
  forall (fuel : nat) (models : list value) (table_name : string) (st : conn),
    in_master table_name (working st) = false ->
    existsb (mentions table_name) models = true ->
    exists e st',
      upsert fuel models st = (Raise e, st') /\
      (forall new, journal st' = (new ++ journal st)%list ->
                   ~ In EvCommit new -> committed st' = committed st) /\
      (forall pre fields post,
          models = (pre ++ VModel table_name fields :: post)%list ->
          forallb flat_model pre = true ->
          committed st' = committed st) /\
      (forall k fields post,
          fuel = S k -> models = VModel table_name fields :: post ->
          e = ValueError ("表" ++ table_name ++ "不存在，请先迁移") /\
          st' = st).
Proof.
  intros fuel models T st HT Hm.
  destruct (missing_table_raises T fuel) as [Hraise _].
  destruct (Hraise models st HT Hm) as (e & st' & Hrun).
  exists e, st'. split; [exact Hrun |]. split; [| split].
  - intros new Hj Hno.
    destruct (committed_changes_by_commit _ _ _ _ _ Hrun) as (new0 & Hj0 & [Hc | Hc]);
      [| exact Hc].
    rewrite Hj0 in Hj. apply app_inv_tail in Hj. subst new0. contradiction.
  - intros pre fields post -> Hpre.
    destruct (upsert_flat_prefix_missing fuel pre post T fields st Hpre HT) as (e0 & st0 & E0 & Hc).
    rewrite Hrun in E0. inversion E0; subst. exact Hc.
  - intros k fields post -> ->.
    rewrite (upsert_first_missing k T fields post st HT) in Hrun.
    inversion Hrun; subst. split; reflexivity.
Qed.

(* ================================================================== *)
(** ** Cascading writes are not atomic *)
(* ================================================================== *)

Lemma find_table_lower (n n' : string) (d : db) :
  lower n = lower n' -> find_table n d = find_table n' d.
Proof.
  intros H. induction d as [| t d IH]; simpl; [reflexivity |].
  unfold same_name. rewrite H, IH. reflexivity.
Qed.

Lemma writes_kept_insert (j0 : list event) (T : string) (o : option sqlval)
      (name : string) (keys : list string) (params : list value) :
  preserves (writes_kept j0 T o) (execute_insert name keys params).
Proof.
  intros st r st' H (new & Hj & Hw & Hc).
  destruct (execute_insert_cases _ _ _ _ _ _ H) as [-> | [e ->]].
  - apply execute_insert_ok in H.
    destruct H as (t & t' & vals & rid' & r' & Ht & Hi & Hw' & Hc' & Hj' & _).
    destruct (insert_into_schema _ _ _ _ _ Hi) as [Hname _].
    destruct (insert_into_records _ _ _ _ _ _ Hi) as [Hnew Hold].
    assert (Hfind : find_table T (working st') =
                    if same_name name T then Some t' else find_table T (working st)).
    { rewrite Hw'. apply (find_table_update T name (fun _ => t') _ t Ht). exact Hname. }
    assert (Hfiled : filed (working st) T o -> filed (working st') T o).
    { intros (t0 & Ht0 & Hrec). unfold filed. rewrite Hfind.
      destruct (same_name name T) eqn:E.
      - apply same_name_iff in E. rewrite (find_table_lower _ _ _ E) in Ht.
        assert (t0 = t) by congruence. subst t0.
        exists t'. split; [reflexivity | apply Hold; exact Hrec].
      - exists t0. split; assumption. }
    exists (EvInsert name rid' (identity r') :: new). repeat split.
    + rewrite Hj', Hj. reflexivity.
    + intros [rid [Heq | Hin]].
      * inversion Heq; subst name rid' o. unfold filed. rewrite Hfind, same_name_refl.
        exists t'. split; [reflexivity | exact Hnew].
      * apply Hfiled. apply Hw. exists rid. exact Hin.
    + intros l1 l2 Hsplit Hin. rewrite Hc'.
      destruct l1 as [| ev l1]; simpl in Hsplit; inversion Hsplit; subst.
      eapply Hc; [reflexivity | exact Hin].
  - apply execute_insert_raise in H. destruct H as (Hw' & Hc' & Hj').
    unfold writes_kept. rewrite Hw', Hc', Hj'.
    exists new. repeat split; assumption.
Qed.

Lemma writes_kept_commit (j0 : list event) (T : string) (o : option sqlval) :
  preserves (writes_kept j0 T o) commit.
Proof.
  intros st r st' H (new & Hj & Hw & Hc).
  unfold commit in H. inversion H; subst; clear H.
  exists (EvCommit :: new). simpl. repeat split.
  - rewrite Hj. reflexivity.
  - intros [rid [Heq | Hin]]; [discriminate | apply Hw; exists rid; exact Hin].
  - intros l1 l2 Hsplit [rid Hin]. apply Hw. exists rid.
    destruct l1 as [| ev l1]; simpl in Hsplit; inversion Hsplit; subst.
    + exact Hin.
    + apply in_or_app. right. right. exact Hin.
Qed.

(* ================================================================== *)
(** ** Worked examples *)
(* ================================================================== *)

Lemma missing_table_returns_default_witness :
  in_master (__name__ User) (working connect) = false /\
  first 10 User (id_eq (SInt 1)) VNone connect = (Ok VNone, connect) /\
  all 10 User None VNone connect = (Ok VNone, connect) /\
  delete User (id_eq (SInt 1)) connect = (Ok tt, connect).
Proof.
  split; [reflexivity |].
  apply (missing_table_returns_default 10 User (id_eq (SInt 1)) None VNone connect).
  reflexivity.
Defined.

Lemma all_returns_default_never_empty_list_witness :
  in_master (__name__ User) (working migrated) = true /\
  matching (Some (id_eq (SInt 5))) (mkTable "User" [("id", INTEGER); ("name", TEXT); ("LISTtags", TEXT)] false 0 []) = [] /\
  all 10 User (Some (id_eq (SInt 5))) (VStr "nobody") migrated = (Ok (VStr "nobody"), migrated).
Proof.
  split; [reflexivity |]. split; [reflexivity |].
  apply (all_returns_default_never_empty_list 10 User (Some (id_eq (SInt 5))) (VStr "nobody") migrated
           (mkTable "User" [("id", INTEGER); ("name", TEXT); ("LISTtags", TEXT)] false 0 []));
    reflexivity.
Defined.

(** C6 as stated fails: the first record carries a nested record, the
    second has no table.  The call raises, and the nested record is
    committed all the same. *)
Lemma upsert_missing_table_partial_commit :
  fst (upsert 10 [parent_of_n; stray] migrated)
    = Raise (ValueError "表Stray不存在，请先迁移") /\
  row_in (committed (snd (upsert 10 [parent_of_n; stray] migrated))) "Child" 1 /\
  ~ row_in (committed migrated) "Child" 1 /\
  committed (snd (upsert 10 [parent_of_n; stray] migrated)) <> committed migrated.
Proof.
  split; [vm_compute; reflexivity |].
  split.
  { eexists. eexists. split; [vm_compute; reflexivity |]. simpl. left. reflexivity. }
  split.
  { intros (t & r & Ht & Hin). vm_compute in Ht. inversion Ht; subst. exact Hin. }
  vm_compute. discriminate.
Qed.

Lemma upsert_missing_table_commits_nothing_witness :
  in_master "Stray" (working migrated) = false /\
  existsb (mentions "Stray") [user_a; stray; user_no_tags] = true /\
  exists e st',
    upsert 10 [user_a; stray; user_no_tags] migrated = (Raise e, st') /\
    (forall new, journal st' = (new ++ journal migrated)%list ->
                 ~ In EvCommit new -> committed st' = committed migrated) /\
    (forall pre fields post,
        [user_a; stray; user_no_tags] = (pre ++ VModel "Stray" fields :: post)%list ->
        forallb flat_model pre = true ->
        committed st' = committed migrated) /\
    (forall k fields post,
        10%nat = S k -> [user_a; stray; user_no_tags] = VModel "Stray" fields :: post ->
        e = ValueError "表Stray不存在，请先迁移" /\ st' = migrated).
Proof.
  split; [reflexivity |]. split; [reflexivity |].
  apply (upsert_missing_table_commits_nothing 10 [user_a; stray; user_no_tags] "Stray" migrated);
    reflexivity.
Defined.

(* ================================================================== *)
(** ** Empty lists *)
(* ================================================================== *)


(* ================================================================== *)
(** ** Where the code departs from its contract *)
(* ================================================================== *)

(** C1.  The end-to-end example: after [auto_migrate(User)] and
    [upsert(User(name="a", tags=["x", "y"]))], which returns identity 1,
    [first(User, "id = ?", 1)] builds the record from [tags=[]].  The branch
    of [load] for sequences appends references and containers only; it has
    no [else] for the scalar elements, which are lost. *)
Theorem first_after_upsert_loses_list_items :
  select_where "User" (fun _ _ => true)
               (committed (snd ((auto_migrate [User] ;;; upsert 10 [user_a]) connect)))
  = inr [[("id", SInt 1); ("name", SText "a");
          ("LISTtags", SText ("[" ++ dquote ++ "x" ++ dquote ++ ", " ++ dquote ++ "y" ++ dquote ++ "]"))]] /\
  fst ((auto_migrate [User] ;;;
        i <- upsert 10 [user_a] ;;
        r <- first 10 User (id_eq (SInt 1)) VNone ;;
        ret (i, r)) connect)
  = Ok (VInt 1, VModel "User" [("id", VInt 1); ("name", VStr "a"); ("tags", VList [])]).
Proof. split; vm_compute; reflexivity. Qed.

(** C3.  For a field declared [list[list[int]]], [auto_migrate] creates the
    column [JSONcells], [upsert] writes to [LISTcells], and the write after
    the migration fails on the missing column. *)
Theorem migrate_and_upsert_disagree_on_column :
  model_columns Grid = [("id", INTEGER); ("JSONcells", TEXT)] /\
  fst (key_values (upsert 9) (_flat 9) [("id", VNone); ("cells", VList [VList [VInt 1]])] connect)
    = Ok (["id"; "LISTcells"], [VNone; VStr ("[" ++ dquote ++ "[1]" ++ dquote ++ "]")]) /\
  fst ((auto_migrate [Grid] ;;; upsert 10 [grid_1]) connect)
    = Raise (OperationalError "table Grid has no column named LISTcells").
Proof. repeat split; vm_compute; reflexivity. Qed.

(** C7.  A child whose identity is a string: [upsert] puts
    [cursor.lastrowid], the hidden rowid 1, into the reference token, the
    loader then looks for a [Label] with [id = '1'], finds none, and [first]
    raises instead of returning the parent. *)
Theorem reference_to_string_identity_is_lost :
  let st := snd ((auto_migrate [Note; Label] ;;; upsert 10 [note_1]) connect) in
  select_where "Label" (fun _ _ => true) (committed st)
    = inr [[("id", SText "k"); ("text", SText "t")]] /\
  select_where "Note" (fun _ _ => true) (committed st)
    = inr [[("id", SInt 1); ("FOREIGNIDlabel", SText "$ID:Label:1")]] /\
  fst (first 10 Note (id_eq (SInt 1)) VNone st) = Raise TypeError.
Proof. repeat split; vm_compute; reflexivity. Qed.

(** For a child whose identity is the rowid the reference resolves: the
    child is written and committed first, the parent's row holds the token,
    and [first] hands the parent's class the loaded row of the child. *)
Example reference_to_rowid_identity_resolves :
  let run := (i <- upsert 10 [parent_of_n] ;;
              r <- first 10 Parent (id_eq (SInt 1)) VNone ;;
              ret (i, r)) migrated in
  fst run = Ok (VInt 1, VModel "Parent" [("id", VInt 1);
                                         ("child", VDict [("id", VInt 1); ("name", VStr "n")])]) /\
  firstn 4 (journal (snd run))
    = [EvCommit; EvInsert "Parent" 1 (Some (SInt 1)); EvCommit; EvInsert "Child" 1 (Some (SInt 1))] /\
  select_where "Parent" (fun _ _ => true) (committed (snd run))
    = inr [[("id", SInt 1); ("FOREIGNIDchild", SText "$ID:Child:1")]] /\
  load 10 (committed (snd run)) (VDict [("id", VInt 1); ("name", VStr "n")])
    = inr (VDict [("id", VInt 1); ("name", VStr "n")]).
Proof. repeat split; vm_compute; reflexivity. Qed.

(* ================================================================== *)
(** ** Migration *)
(* ================================================================== *)

Lemma bind_default (ty : coltype) : bind_param (DEFAULT_VALUE ty) = inr (zero ty).
Proof. destruct ty; reflexivity. Qed.

Lemma affinity_zero (ty : coltype) : apply_affinity ty (zero ty) = zero ty.
Proof. destruct ty; reflexivity. Qed.

Lemma str_in_iff (x : string) (l : list string) : str_in x l = true <-> In x l.
Proof.
  unfold str_in. rewrite existsb_exists. split.
  - intros (y & Hy & E). apply String.eqb_eq in E. subst. exact Hy.
  - intros H. exists x. split; [exact H | apply String.eqb_refl].
Qed.

Lemma str_in_false (x : string) (l : list string) : str_in x l = false <-> ~ In x l.
Proof.
  rewrite <- str_in_iff. destruct (str_in x l); split; intros H; congruence.
Qed.

Lemma has_name_false {A : Type} (c : string) (l : list (string * A)) :
  has_name c l = false -> forall k, In k (map fst l) -> same_name k c = false.
Proof.
  unfold has_name. intros H k Hk. apply in_map_iff in Hk. destruct Hk as (kv & <- & Hin).
  destruct (same_name (fst kv) c) eqn:E; [| reflexivity].
  assert (existsb (fun kv => same_name (fst kv) c) l = true)
    by (apply existsb_exists; exists kv; split; assumption).
  congruence.
Qed.

Lemma lookup_ci_new {A : Type} (c : string) (a : A) (l : list (string * A)) :
  has_name c l = false -> lookup_ci c (l ++ [(c, a)])%list = Some a.
Proof.
  induction l as [| [k v] l IH]; simpl; intros H.
  - rewrite same_name_refl. reflexivity.
  - apply orb_false_iff in H. destruct H as [H1 H2]. rewrite H1. apply IH. exact H2.
Qed.

Lemma distinct_snoc (l : list string) (c : string) :
  distinct l -> (forall k, In k l -> same_name k c = false) -> distinct (l ++ [c])%list.
Proof.
  unfold distinct. intros Hl Hc. rewrite map_app. simpl.
  apply NoDup_app; [exact Hl | constructor; [intros [] | constructor] |].
  intros x Hx [Hy | []]. apply in_map_iff in Hx. destruct Hx as (k & Hk & Hin).
  specialize (Hc k Hin). names.
Qed.

Lemma distinct_inj (l : list string) (a b : string) :
  distinct l -> In a l -> In b l -> lower a = lower b -> a = b.
Proof.
  unfold distinct. induction l as [| x l IH]; simpl; intros Hd Ha Hb E; [contradiction |].
  inversion Hd as [| ? ? Hnot Hd']; subst.
  destruct Ha as [-> | Ha], Hb as [-> | Hb].
  - reflexivity.
  - exfalso. apply Hnot. rewrite E. apply in_map. exact Hb.
  - exfalso. apply Hnot. rewrite <- E. apply in_map. exact Ha.
  - apply IH; assumption.
Qed.

(** *** What the statements of a migration do to the table *)

Lemma table_eq (t u : table) :
  tname t = tname u -> tcols t = tcols u -> tauto t = tauto u -> tseq t = tseq u ->
  trows t = trows u -> t = u.
Proof. destruct t, u; simpl; intros; subst; reflexivity. Qed.

Lemma map_ext_in_rows (f g : Z * row -> Z * row) (l : list (Z * row)) :
  (forall ir, In ir l -> f ir = g ir) -> map f l = map g l.
Proof. apply map_ext_in. Qed.

Lemma extend_nil (t : table) : extend [] t = t.
Proof.
  apply table_eq; simpl; try reflexivity.
  - apply app_nil_r.
  - rewrite <- (map_id (trows t)) at 2. apply map_ext. intros [i r]. simpl.
    rewrite app_nil_r. reflexivity.
Qed.

Lemma extend_extend (a : string * coltype) (A : list (string * coltype)) (t : table) :
  extend A (extend [a] t) = extend (a :: A) t.
Proof.
  apply table_eq; simpl; try reflexivity.
  - rewrite <- app_assoc. reflexivity.
  - rewrite map_map. apply map_ext. intros [i r]. simpl.
    rewrite <- app_assoc. reflexivity.
Qed.

Lemma backfill_row_new (c : string) (v : sqlval) (r : row) :
  (forall k, In k (map fst r) -> same_name k c = false) ->
  backfill_row c v (r ++ [(c, SNull)])%list = (r ++ [(c, v)])%list.
Proof.
  intros H. unfold backfill_row. rewrite map_app. simpl. rewrite same_name_refl. f_equal.
  rewrite <- (map_id r) at 2. apply map_ext_in. intros [k w] Hin. simpl.
  rewrite (H k); [reflexivity |]. apply in_map_iff. exists (k, w). split; [reflexivity | exact Hin].
Qed.

(** ADD COLUMN followed by the backfill of its NULLs. *)
Lemma add_then_backfill (c : string) (ty : coltype) (t : table) :
  aligned t -> has_name c (tcols t) = false ->
  table_backfill c (zero ty) (table_add_column c ty t) = extend [(c, ty)] t.
Proof.
  intros Hal Hc. apply table_eq; simpl; try reflexivity.
  rewrite map_map. apply map_ext_in. intros [i r] Hin. simpl. f_equal.
  apply backfill_row_new. intros k Hk.
  pose proof (Hal _ Hin) as E. simpl in E. rewrite E in Hk.
  eapply has_name_false; [exact Hc | exact Hk].
Qed.

Lemma aligned_extend (A : list (string * coltype)) (t : table) :
  aligned t -> aligned (extend A t).
Proof.
  intros Hal ir Hin. unfold extend in Hin. simpl in Hin.
  apply in_map_iff in Hin. destruct Hin as ([i r] & <- & Hin). simpl.
  pose proof (Hal _ Hin) as E. simpl in E.
  unfold names. simpl. rewrite !map_app, map_map. simpl.
  rewrite E. reflexivity.
Qed.

Lemma filter_filter {A : Type} (p q : A -> bool) (l : list A) :
  filter p (filter q l) = filter (fun a => (q a && p a)%bool) l.
Proof.
  induction l as [| a l IH]; simpl; [reflexivity |].
  destruct (q a); simpl; [destruct (p a) |]; rewrite IH; reflexivity.
Qed.

Lemma filter_kept_nil {A : Type} (l : list (string * A)) :
  filter (fun kv => kept [] (fst kv)) l = l.
Proof. induction l as [| a l IH]; simpl; [reflexivity | f_equal; exact IH]. Qed.

Lemma shrink_nil (t : table) : shrink [] t = t.
Proof.
  apply table_eq; try reflexivity; unfold shrink; cbn [tcols trows].
  - apply filter_kept_nil.
  - rewrite <- (map_id (trows t)) at 2. apply map_ext. intros [i r].
    cbn [fst snd]. rewrite filter_kept_nil. reflexivity.
Qed.

Lemma shrink_cons (x : string) (D : list string) (t : table) :
  shrink D (table_drop_column x t) = shrink (x :: D) t.
Proof.
  apply table_eq; simpl; try reflexivity.
  - unfold without_name. rewrite filter_filter. reflexivity.
  - rewrite map_map. apply map_ext. intros [i r]. simpl. f_equal.
    unfold without_name. rewrite filter_filter. reflexivity.
Qed.

(** *** What a run of the migration does to the connection *)

Lemma execute_ddl_ok (stmt : db -> exn + db) (ev : event) (st st' : conn) :
  execute_ddl stmt ev st = (Ok tt, st') -> stmt (working st) = inr (working st').
Proof.
  unfold execute_ddl. destruct (stmt (working st)) as [e | d']; [discriminate |].
  intros H. inversion H; subst. reflexivity.
Qed.

Lemma execute_update_null_ok (name c : string) (p : value) (st st' : conn) :
  execute_update_null name c p st = (Ok tt, st') ->
  exists v, bind_param p = inr v /\ update_null name c v (working st) = inr (working st').
Proof.
  unfold execute_update_null.
  destruct (update_null name c SNull (working st)); [discriminate |].
  destruct (bind_param p) as [e | v]; [discriminate |].
  simpl. destruct (update_null name c v (working st)) as [e | d'] eqn:E; [discriminate |].
  intros H. inversion H; subst. exists v. split; [reflexivity | exact E].
Qed.

Lemma find_table_update_same (n : string) (f : table -> table) (d : db) (t : table) :
  find_table n d = Some t -> tname (f t) = tname t ->
  find_table n (update_table n f d) = Some (f t).
Proof.
  intros H Hn. rewrite (find_table_update n n f d t H Hn), same_name_refl. reflexivity.
Qed.

(** One turn of the loop over the model's columns. *)
Lemma add_missing_run (T : string) (fields0 : list string) (f : string) (ty : coltype)
      (st st' : conn) (t : table) :
  add_missing T fields0 (f, ty) st = (Ok tt, st') ->
  find_table T (working st) = Some t ->
  (str_in f fields0 = true /\ st' = st) \/
  (str_in f fields0 = false /\ has_name f (tcols t) = false /\
   find_table T (working st') = Some (table_backfill f (zero ty) (table_add_column f ty t))).
Proof.
  unfold add_missing. intros H Ht.
  destruct (str_in f fields0) eqn:E; simpl in H.
  - left. inversion H. split; reflexivity.
  - right. split; [reflexivity |].
    destruct (bind_inv _ _ _ _ _ H) as [([] & st1 & E1 & E2) | (e & _ & Hr)]; [| discriminate].
    apply execute_ddl_ok in E1. unfold add_column in E1. rewrite Ht in E1.
    destruct (has_name f (tcols t)) eqn:Hf; [discriminate |].
    inversion E1 as [Hw1]. split; [reflexivity |].
    assert (Ht1 : find_table T (working st1) = Some (table_add_column f ty t)).
    { rewrite <- Hw1. apply find_table_update_same; [exact Ht | reflexivity]. }
    apply execute_update_null_ok in E2. destruct E2 as (v & Hv & E2).
    rewrite bind_default in Hv. inversion Hv; subst v.
    unfold update_null in E2. rewrite Ht1 in E2.
    cbn [table_add_column tcols] in E2. rewrite (lookup_ci_new f ty _ Hf) in E2.
    inversion E2 as [Hw2]. rewrite affinity_zero.
    apply find_table_update_same; [exact Ht1 | reflexivity].
Qed.

Lemma add_loop_run (T : string) (fields0 : list string) (cols : list (string * coltype)) :
  forall (st st' : conn) (t : table),
    for_each cols (fun _ col => add_missing T fields0 col) tt st = (Ok tt, st') ->
    find_table T (working st) = Some t ->
    exists t',
      find_table T (working st') = Some t' /\
      tname t' = tname t /\
      tcols t' = (tcols t ++ added fields0 cols)%list /\
      (distinct (names t) -> distinct (names t')) /\
      (aligned t -> t' = extend (added fields0 cols) t).
Proof.
  induction cols as [| [f ty] cols IH]; intros st st' t H Ht; simpl in H.
  - inversion H; subst. exists t. simpl. rewrite app_nil_r.
    repeat split; auto. intros _. symmetry. apply extend_nil.
  - destruct (bind_inv _ _ _ _ _ H) as [([] & st1 & E1 & E2) | (e & _ & Hr)]; [| discriminate].
    destruct (add_missing_run _ _ _ _ _ _ _ E1 Ht) as [[Hin ->] | (Hin & Hf & Ht1)].
    + destruct (IH _ _ _ E2 Ht) as (t' & H1 & H2 & H3 & H4 & H5).
      exists t'. unfold added in *. simpl. rewrite Hin. simpl. repeat split; assumption.
    + destruct (IH _ _ _ E2 Ht1) as (t' & H1 & H2 & H3 & H4 & H5).
      exists t'. unfold added in *. simpl. rewrite Hin. simpl.
      split; [exact H1 |]. split; [exact H2 |].
      split; [rewrite H3; simpl; rewrite <- app_assoc; reflexivity |].
      split.
      * intros Hd. apply H4. unfold names. simpl. rewrite map_app. simpl.
        apply distinct_snoc; [exact Hd |]. intros k Hk. eapply has_name_false; eauto.
      * intros Hal. rewrite (add_then_backfill f ty t Hal Hf) in H5.
        rewrite H5; [apply extend_extend | apply aligned_extend; exact Hal].
Qed.

(** When the table has every column of the model, the loop does nothing. *)
Lemma add_loop_skip (T : string) (fields0 : list string) (cols : list (string * coltype))
      (st : conn) :
  (forall col, In col cols -> str_in (fst col) fields0 = true) ->
  for_each cols (fun _ col => add_missing T fields0 col) tt st = (Ok tt, st).
Proof.
  induction cols as [| [f ty] cols IH]; intros H; simpl; [reflexivity |].
  pose proof (H (f, ty) (or_introl eq_refl)) as E. simpl in E.
  unfold bind. unfold add_missing at 1. rewrite E. simpl.
  apply IH. intros col Hc. apply H. right. exact Hc.
Qed.

Lemma drop_loop_run (T : string) (model_fields : list string) (fields : list string) :
  forall (st st' : conn) (t : table),
    for_each fields (fun _ f => drop_extra T model_fields f) tt st = (Ok tt, st') ->
    find_table T (working st) = Some t ->
    find_table T (working st') = Some (shrink (dropped model_fields fields) t).
Proof.
  induction fields as [| f fields IH]; intros st st' t H Ht; simpl in H.
  - inversion H; subst. simpl. rewrite shrink_nil. exact Ht.
  - destruct (bind_inv _ _ _ _ _ H) as [([] & st1 & E1 & E2) | (e & _ & Hr)]; [| discriminate].
    unfold drop_extra in E1. unfold dropped. simpl.
    destruct (negb (str_in f model_fields) && negb (String.eqb f "id"))%bool eqn:Hc.
    + apply execute_ddl_ok in E1. unfold drop_column in E1. rewrite Ht in E1.
      destruct (negb (has_name f (tcols t))); [discriminate |].
      destruct (same_name f "id"); [discriminate |].
      destruct (Nat.leb _ 1); [discriminate |].
      inversion E1 as [Hw1].
      assert (Ht1 : find_table T (working st1) = Some (table_drop_column f t)).
      { rewrite <- Hw1. apply find_table_update_same; [exact Ht | reflexivity]. }
      rewrite (IH _ _ _ E2 Ht1). rewrite shrink_cons. reflexivity.
    + inversion E1; subst st1. apply (IH _ _ _ E2 Ht).
Qed.

Lemma drop_loop_skip (T : string) (model_fields : list string) (fields : list string)
      (st : conn) :
  (forall f, In f fields -> str_in f model_fields = true \/ f = "id") ->
  for_each fields (fun _ f => drop_extra T model_fields f) tt st = (Ok tt, st).
Proof.
  induction fields as [| f fields IH]; intros H; simpl; [reflexivity |].
  unfold bind. unfold drop_extra at 1.
  assert (E : (negb (str_in f model_fields) && negb (String.eqb f "id"))%bool = false).
  { destruct (H f (or_introl eq_refl)) as [-> | ->]; [reflexivity |].
    rewrite andb_false_r. reflexivity. }
  rewrite E. simpl. apply IH. intros g Hg. apply H. right. exact Hg.
Qed.

Lemma find_table_app_none (n : string) (d : db) (t : table) :
  find_table n d = None ->
  find_table n (d ++ [t])%list = if same_name (tname t) n then Some t else None.
Proof.
  induction d as [| t0 d IH]; simpl; [reflexivity |].
  destruct (same_name (tname t0) n); [discriminate | exact IH].
Qed.

(** CREATE TABLE IF NOT EXISTS never fails; the table is there afterwards,
    the one that was there or a new one with the single column [id]. *)
Lemma execute_create_run (T : string) (ty : coltype) (auto : bool) (st st' : conn)
      (r : outcome unit) :
  execute_create T ty auto st = (r, st') ->
  r = Ok tt /\
  exists t0,
    find_table T (working st') = Some t0 /\
    ((find_table T (working st) = Some t0 /\ st' = st) \/
     (find_table T (working st) = None /\ names t0 = ["id"] /\ trows t0 = [])).
Proof.
  unfold execute_create. destruct (find_table T (working st)) as [t |] eqn:Ht.
  - intros H. inversion H; subst. split; [reflexivity |].
    exists t. split; [exact Ht |]. left. split; reflexivity.
  - unfold execute_ddl, create_table. rewrite Ht. intros H. inversion H; subst. simpl.
    split; [reflexivity |].
    exists (mkTable T [("id", ty)] auto 0 []). split.
    + rewrite (find_table_app_none _ _ _ Ht). simpl. rewrite same_name_refl. reflexivity.
    + right. repeat split.
Qed.

(** A successful migration of one model, step by step: the table [t0] it
    starts from, the table [t1] after the loop that adds columns, and the
    table it leaves. *)
Lemma migrate_one_run (m : model) (st st' : conn) :
  migrate_one m st = (Ok tt, st') ->
  exists t0 t1,
    (find_table (__name__ m) (working st) = Some t0 \/
     (find_table (__name__ m) (working st) = None /\ names t0 = ["id"] /\ trows t0 = [])) /\
    __annotations__ m <> [] /\
    tcols t1 = (tcols t0 ++ added (names t0) (model_columns m))%list /\
    (distinct (names t0) -> distinct (names t1)) /\
    (aligned t0 -> t1 = extend (added (names t0) (model_columns m)) t0) /\
    find_table (__name__ m) (working st')
      = Some (shrink (dropped (map fst (model_columns m)) (names t0)) t1).
Proof.
  unfold migrate_one. intros H.
  destruct (bind_inv _ _ _ _ _ H) as [([] & st1 & E1 & H1) | (e & _ & Hr)]; [| discriminate].
  assert (Hc : exists ty auto, execute_create (__name__ m) ty auto st = (Ok tt, st1)).
  { destruct (dict_get "id" (__annotations__ m)) as [[] |]; eauto. }
  destruct Hc as (ty & auto & Hc). clear E1.
  apply execute_create_run in Hc. destruct Hc as [_ (t0 & Ht0 & Hfrom)].
  destruct (bind_inv _ _ _ _ _ H1) as [(fields0 & st2 & E2 & H2) | (e & _ & Hr)]; [| discriminate].
  unfold query in E2. inversion E2; subst fields0 st2. clear E2.
  unfold table_info in H2. rewrite Ht0 in H2. fold (names t0) in H2.
  destruct (bind_inv _ _ _ _ _ H2) as [([] & st3 & E3 & H3) | (e & _ & Hr)]; [| discriminate].
  assert (Hann : __annotations__ m <> [] /\ st3 = st1).
  { destruct (__annotations__ m); [discriminate |]. inversion E3. split; [discriminate | reflexivity]. }
  destruct Hann as [Hann ->]. clear E3.
  destruct (bind_inv _ _ _ _ _ H3) as [([] & st4 & E4 & H4) | (e & _ & Hr)]; [| discriminate].
  destruct (add_loop_run _ _ _ _ _ _ E4 Ht0) as (t1 & Ht1 & _ & Hcols & Hd & Hal).
  exists t0, t1. split.
  { destruct Hfrom as [[Hf ->] | Hf]; [left; exact Hf | right; exact Hf]. }
  split; [exact Hann |]. split; [exact Hcols |]. split; [exact Hd |]. split; [exact Hal |].
  apply (drop_loop_run _ _ _ _ _ _ H4 Ht1).
Qed.

(** A migration with nothing to add and nothing to drop leaves the
    connection as it is. *)
Lemma migrate_one_noop (m : model) (st : conn) (t : table) :
  find_table (__name__ m) (working st) = Some t ->
  __annotations__ m <> [] ->
  (forall col, In col (model_columns m) -> str_in (fst col) (names t) = true) ->
  (forall f, In f (names t) -> str_in f (map fst (model_columns m)) = true \/ f = "id") ->
  migrate_one m st = (Ok tt, st).
Proof.
  intros Ht Hann Ha Hb. unfold migrate_one.
  assert (Hc : forall ty auto, execute_create (__name__ m) ty auto st = (Ok tt, st)).
  { intros ty auto. unfold execute_create. rewrite Ht. reflexivity. }
  rewrite (bind_ok _ _ st st tt).
  2: { destruct (dict_get "id" (__annotations__ m)) as [[] |]; apply Hc. }
  rewrite (bind_ok _ _ st st (names t)).
  2: { unfold query, table_info. rewrite Ht. reflexivity. }
  rewrite (bind_ok _ _ st st tt).
  2: { destruct (__annotations__ m); [contradiction | reflexivity]. }
  rewrite (bind_ok _ _ st st tt).
  2: { apply add_loop_skip. exact Ha. }
  apply drop_loop_skip. exact Hb.
Qed.

Lemma names_shrink (D : list string) (t : table) :
  names (shrink D t) = filter (kept D) (names t).
Proof.
  unfold names, shrink. simpl. induction (tcols t) as [| [k ty] l IH]; simpl; [reflexivity |].
  destruct (kept D k); simpl; rewrite IH; reflexivity.
Qed.

Lemma kept_iff (D : list string) (k : string) :
  kept D k = true <-> forall x, In x D -> same_name k x = false.
Proof.
  unfold kept. rewrite forallb_forall. split; intros H x Hx.
  - apply negb_true_iff. apply H. exact Hx.
  - apply negb_true_iff. apply H. exact Hx.
Qed.

Lemma In_added (fields0 : list string) (cols : list (string * coltype)) (col : string * coltype) :
  In col (added fields0 cols) <-> In col cols /\ ~ In (fst col) fields0.
Proof.
  unfold added. rewrite filter_In, negb_true_iff, str_in_false. reflexivity.
Qed.

Lemma In_dropped (model_fields fields0 : list string) (f : string) :
  In f (dropped model_fields fields0) <->
  In f fields0 /\ ~ In f model_fields /\ f <> "id".
Proof.
  unfold dropped. rewrite filter_In, andb_true_iff, !negb_true_iff, str_in_false.
  rewrite String.eqb_neq. reflexivity.
Qed.

(** After the two loops the table has every column of the model, and
    nothing but them and [id]. *)
Lemma settled_columns (cols : list (string * coltype)) (t0 t1 : table) :
  tcols t1 = (tcols t0 ++ added (names t0) cols)%list ->
  distinct (names t1) ->
  let t2 := shrink (dropped (map fst cols) (names t0)) t1 in
  (forall col, In col cols -> In (fst col) (names t2)) /\
  (forall f, In f (names t2) -> In f (map fst cols) \/ f = "id").
Proof.
  intros Hcols Hd t2.
  assert (Hn1 : names t1 = (names t0 ++ map fst (added (names t0) cols))%list).
  { unfold names. rewrite Hcols, map_app. reflexivity. }
  subst t2. rewrite names_shrink. split.
  - intros col Hcol. apply filter_In.
    assert (Hin1 : In (fst col) (names t1)).
    { rewrite Hn1. apply in_or_app.
      destruct (in_dec string_dec (fst col) (names t0)) as [Hi | Hi]; [left; exact Hi |].
      right. apply in_map. apply In_added. split; assumption. }
    split; [exact Hin1 |].
    apply kept_iff. intros x Hx. apply In_dropped in Hx. destruct Hx as (Hx0 & Hxm & _).
    destruct (same_name (fst col) x) eqn:E; [| reflexivity].
    exfalso. apply Hxm. apply same_name_iff in E.
    assert (Hx1 : In x (names t1)) by (rewrite Hn1; apply in_or_app; left; exact Hx0).
    rewrite <- (distinct_inj _ _ _ Hd Hin1 Hx1 E). apply in_map. exact Hcol.
  - intros f Hf. apply filter_In in Hf. destruct Hf as [Hf Hk].
    rewrite Hn1 in Hf. apply in_app_or in Hf. destruct Hf as [Hf | Hf].
    + destruct (in_dec string_dec f (map fst cols)) as [Hi | Hi]; [left; exact Hi |].
      destruct (string_dec f "id") as [-> | Hid]; [right; reflexivity |].
      exfalso. rewrite kept_iff in Hk.
      assert (E : same_name f f = false).
      { apply Hk. apply In_dropped. repeat split; assumption. }
      rewrite same_name_refl in E. discriminate.
    + left. apply in_map_iff in Hf. destruct Hf as (col & <- & Hc).
      apply In_added in Hc. apply in_map. apply Hc.
Qed.

(** C4.  When [auto_migrate(D)] has returned, calling it again with the
    same definition returns as well, leaves the whole store, and so the
    table's columns, as it was, and adds nothing to the journal but its
    COMMIT: no table is created, no column added, backfilled or dropped.
    The table the first call finds, if any, is a table of SQLite: no two of
    its columns share a name. *)
Theorem auto_migrate_idempotent :
  forall (m : model) (st st1 : conn),
    (forall t, find_table (__name__ m) (working st) = Some t -> distinct (names t)) ->
    auto_migrate [m] st = (Ok tt, st1) ->
    exists st2,
      auto_migrate [m] st1 = (Ok tt, st2) /\
      working st2 = working st1 /\
      committed st2 = committed st1 /\
      journal st2 = EvCommit :: journal st1.
Proof.
  intros m st st1 Hwf H. unfold auto_migrate in H. simpl in H.
  destruct (bind_inv _ _ _ _ _ H) as [([] & sta & E1 & E2) | (e & _ & Hr)]; [| discriminate].
  destruct (bind_inv _ _ _ _ _ E1) as [([] & stb & E3 & E4) | (e & _ & Hr)]; [| discriminate].
  inversion E4; subst stb. clear E4 E1 H.
  unfold commit in E2. inversion E2; subst st1. clear E2.
  destruct (migrate_one_run _ _ _ E3) as (t0 & t1 & Hfrom & Hann & Hcols & Hd & _ & Ht2).
  assert (Hd0 : distinct (names t0)).
  { destruct Hfrom as [Hf | (_ & Hn & _)]; [apply Hwf; exact Hf |].
    rewrite Hn. unfold distinct. simpl. constructor; [intros [] | constructor]. }
  destruct (settled_columns _ _ _ Hcols (Hd Hd0)) as [Ha Hb].
  set (st1 := mkConn (working sta) (working sta) false (lastrowid sta) (EvCommit :: journal sta)).
  assert (Hnoop : migrate_one m st1 = (Ok tt, st1)).
  { apply migrate_one_noop with (t := shrink (dropped (map fst (model_columns m)) (names t0)) t1).
    - exact Ht2.
    - exact Hann.
    - intros col Hc. apply str_in_iff. apply Ha. exact Hc.
    - intros f Hf. destruct (Hb f Hf) as [Hm | Hid]; [left; apply str_in_iff; exact Hm | right; exact Hid]. }
  eexists. split.
  - unfold auto_migrate. simpl.
    rewrite (bind_ok _ _ st1 st1 tt); [reflexivity |].
    rewrite (bind_ok _ _ st1 st1 tt); [reflexivity | exact Hnoop].
  - simpl. repeat split.
Qed.

(** *** Rows across a migration *)

Lemma dict_get_app_l {A : Type} (c : string) (r z : list (string * A)) :
  In c (map fst r) -> dict_get c (r ++ z)%list = dict_get c r.
Proof.
  induction r as [| [k v] r IH]; simpl; [contradiction |].
  intros [-> | H].
  - rewrite String.eqb_refl. reflexivity.
  - destruct (String.eqb k c); [reflexivity | apply IH; exact H].
Qed.

Lemma dict_get_app_r {A : Type} (c : string) (r z : list (string * A)) :
  ~ In c (map fst r) -> dict_get c (r ++ z)%list = dict_get c z.
Proof.
  induction r as [| [k v] r IH]; simpl; [reflexivity |].
  intros H. destruct (String.eqb k c) eqn:E.
  - apply String.eqb_eq in E. exfalso. apply H. left. exact E.
  - apply IH. intros Hin. apply H. right. exact Hin.
Qed.

Lemma dict_get_unique {A : Type} (c : string) (a : A) (l : list (string * A)) :
  NoDup (map fst l) -> In (c, a) l -> dict_get c l = Some a.
Proof.
  induction l as [| [k v] l IH]; simpl; [contradiction |].
  intros Hnd [Heq | Hin]; inversion Hnd as [| ? ? Hnot Hnd']; subst.
  - inversion Heq; subst. rewrite String.eqb_refl. reflexivity.
  - destruct (String.eqb k c) eqn:E; [| apply IH; assumption].
    apply String.eqb_eq in E. subst k. exfalso. apply Hnot.
    apply in_map_iff. exists (c, a). split; [reflexivity | exact Hin].
Qed.

Lemma dict_get_kept {A : Type} (D : list string) (c : string) (l : list (string * A)) :
  kept D c = true ->
  dict_get c (filter (fun kv => kept D (fst kv)) l) = dict_get c l.
Proof.
  intros Hk. induction l as [| [k v] l IH]; simpl; [reflexivity |].
  destruct (String.eqb k c) eqn:E.
  - apply String.eqb_eq in E. subst k. rewrite Hk. simpl. rewrite String.eqb_refl. reflexivity.
  - destruct (kept D k); simpl; [rewrite E |]; exact IH.
Qed.

Lemma distinct_NoDup (l : list string) : distinct l -> NoDup l.
Proof. unfold distinct. apply NoDup_map_inv. Qed.

Lemma Forall2_map_self {X Y : Type} (R : X -> Y -> Prop) (g : X -> Y) (l : list X) :
  (forall x, In x l -> R x (g x)) -> Forall2 R l (map g l).
Proof.
  induction l as [| x l IH]; simpl; intros H; constructor.
  - apply H. left. reflexivity.
  - apply IH. intros y Hy. apply H. right. exact Hy.
Qed.

(** C8.  When [auto_migrate] has brought an existing table up to a model,
    every column of the table that the model still declares is there, and
    so is [id]; the table has the same rows as before, under the same
    rowids; each of them reads as before in every column that was there and
    still is, and reads the zero of the storage type, the empty string for
    TEXT, 0 for INTEGER and 0.0 for REAL, in every column of the model that
    was not there. *)
Theorem additive_migration_keeps_rows :
  forall (m : model) (st st' : conn) (t : table),
    find_table (__name__ m) (working st) = Some t ->
    distinct (names t) ->
    aligned t ->
    auto_migrate [m] st = (Ok tt, st') ->
    exists t',
      find_table (__name__ m) (working st') = Some t' /\
      (forall c, In c (names t) ->
                 In c (map fst (model_columns m)) \/ c = "id" ->
                 In c (names t')) /\
      Forall2 (fun ir ir' =>
                 fst ir' = fst ir /\
                 (forall c, In c (names t) -> In c (names t') ->
                            dict_get c (snd ir') = dict_get c (snd ir)) /\
                 (forall c ty, In (c, ty) (model_columns m) -> ~ In c (names t) ->
                               In (c, ty) (tcols t') /\
                               dict_get c (snd ir') = Some (zero ty)))
              (trows t) (trows t').
Proof.
  intros m st st' t Ht Hd Hal H. unfold auto_migrate in H. simpl in H.
  destruct (bind_inv _ _ _ _ _ H) as [([] & sta & E1 & E2) | (e & _ & Hr)]; [| discriminate].
  destruct (bind_inv _ _ _ _ _ E1) as [([] & stb & E3 & E4) | (e & _ & Hr)]; [| discriminate].
  inversion E4; subst stb. clear E4 E1 H.
  unfold commit in E2. inversion E2; subst st'. clear E2. cbn [working].
  destruct (migrate_one_run _ _ _ E3) as (t0 & t1 & Hfrom & _ & Hcols & Hd1 & Hext & Ht2).
  assert (t0 = t) by (destruct Hfrom as [Hf | [Hf _]]; congruence). subst t0.
  specialize (Hd1 Hd). specialize (Hext Hal).
  set (A := added (names t) (model_columns m)) in *.
  set (D := dropped (map fst (model_columns m)) (names t)) in *.
  assert (Hn1 : names t1 = (names t ++ map fst A)%list).
  { unfold names. rewrite Hcols, map_app. reflexivity. }
  assert (HkeepA : forall c ty, In (c, ty) A -> kept D c = true).
  { intros c ty Hin. apply kept_iff. intros x Hx.
    apply In_dropped in Hx. destruct Hx as (Hx0 & _ & _).
    destruct (proj1 (In_added _ _ _) Hin) as [_ Hc]. simpl in Hc.
    destruct (same_name c x) eqn:E; [| reflexivity].
    exfalso. apply Hc. apply same_name_iff in E.
    assert (Hc1 : In c (names t1)).
    { rewrite Hn1. apply in_or_app. right. apply in_map_iff.
      exists (c, ty). split; [reflexivity | exact Hin]. }
    assert (Hx1 : In x (names t1)) by (rewrite Hn1; apply in_or_app; left; exact Hx0).
    rewrite (distinct_inj _ _ _ Hd1 Hc1 Hx1 E). exact Hx0. }
  assert (HndA : NoDup (map fst A)).
  { apply distinct_NoDup in Hd1. rewrite Hn1 in Hd1.
    apply NoDup_app_remove_l in Hd1. exact Hd1. }
  exists (shrink D t1). split; [exact Ht2 |].
  split.
  { intros c Hc Hdecl. rewrite names_shrink. apply filter_In.
    assert (Hc1 : In c (names t1)) by (rewrite Hn1; apply in_or_app; left; exact Hc).
    split; [exact Hc1 |].
    apply kept_iff. intros x Hx. apply In_dropped in Hx. destruct Hx as (Hx0 & Hxm & Hxid).
    destruct (same_name c x) eqn:E; [| reflexivity].
    exfalso. apply same_name_iff in E.
    assert (Hx1 : In x (names t1)) by (rewrite Hn1; apply in_or_app; left; exact Hx0).
    pose proof (distinct_inj _ _ _ Hd1 Hc1 Hx1 E) as Heq. subst x.
    destruct Hdecl as [Hm | Hid]; [apply Hxm; exact Hm | apply Hxid; exact Hid]. }
  assert (Hrows : trows (shrink D t1)
                  = map (fun ir : Z * row =>
                           (fst ir, filter (fun kv => kept D (fst kv))
                                           (snd ir ++ map (fun c => (fst c, zero (snd c))) A)%list))
                        (trows t)).
  { rewrite Hext. unfold shrink, extend. cbn [trows]. rewrite map_map. reflexivity. }
  rewrite Hrows. apply Forall2_map_self. intros [i r] Hin. cbn [fst snd].
  pose proof (Hal _ Hin) as Hkeys. simpl in Hkeys.
  split; [reflexivity |]. split.
  - intros c Hc Hc'. rewrite names_shrink in Hc'. apply filter_In in Hc'.
    destruct Hc' as [_ Hk].
    rewrite (dict_get_kept D c _ Hk). apply dict_get_app_l. rewrite Hkeys. exact Hc.
  - intros c ty Hcol Hnew.
    assert (HinA : In (c, ty) A) by (apply In_added; split; assumption).
    pose proof (HkeepA c ty HinA) as Hk. split.
    + unfold shrink. cbn [tcols]. apply filter_In. split; [| exact Hk].
      rewrite Hcols. apply in_or_app. right. exact HinA.
    + rewrite (dict_get_kept D c _ Hk). rewrite dict_get_app_r by (rewrite Hkeys; exact Hnew).
      apply dict_get_unique.
      * rewrite map_map. simpl. exact HndA.
      * apply in_map_iff. exists (c, ty). split; [reflexivity | exact HinA].
Qed.

Lemma legacy_users_found : find_table (__name__ User) (working legacy) = Some legacy_users.
Proof. vm_compute. reflexivity. Qed.

Lemma legacy_users_distinct : distinct (names legacy_users).
Proof.
  unfold distinct. simpl. repeat constructor; simpl; intuition discriminate.
Qed.

Lemma legacy_users_aligned : aligned legacy_users.
Proof. intros ir [<- | []]. reflexivity. Qed.

Lemma auto_migrate_idempotent_witness :
  auto_migrate [User] legacy = (Ok tt, snd (auto_migrate [User] legacy)) /\
  exists st2,
    auto_migrate [User] (snd (auto_migrate [User] legacy)) = (Ok tt, st2) /\
    working st2 = working (snd (auto_migrate [User] legacy)) /\
    committed st2 = committed (snd (auto_migrate [User] legacy)) /\
    journal st2 = EvCommit :: journal (snd (auto_migrate [User] legacy)).
Proof.
  assert (H : auto_migrate [User] legacy = (Ok tt, snd (auto_migrate [User] legacy)))
    by (vm_compute; reflexivity).
  split; [exact H |].
  apply (auto_migrate_idempotent User legacy _); [| exact H].
  intros t Ht. rewrite legacy_users_found in Ht. inversion Ht; subst.
  exact legacy_users_distinct.
Defined.

Lemma additive_migration_keeps_rows_witness :
  auto_migrate [User] legacy = (Ok tt, snd (auto_migrate [User] legacy)) /\
  exists t',
    find_table (__name__ User) (working (snd (auto_migrate [User] legacy))) = Some t' /\
    (forall c, In c (names legacy_users) ->
               In c (map fst (model_columns User)) \/ c = "id" ->
               In c (names t')) /\
    Forall2 (fun ir ir' =>
               fst ir' = fst ir /\
               (forall c, In c (names legacy_users) -> In c (names t') ->
                          dict_get c (snd ir') = dict_get c (snd ir)) /\
               (forall c ty, In (c, ty) (model_columns User) -> ~ In c (names legacy_users) ->
                             In (c, ty) (tcols t') /\
                             dict_get c (snd ir') = Some (zero ty)))
            (trows legacy_users) (trows t').
Proof.
  assert (H : auto_migrate [User] legacy = (Ok tt, snd (auto_migrate [User] legacy)))
    by (vm_compute; reflexivity).
  split; [exact H |].
  exact (additive_migration_keeps_rows User legacy _ legacy_users
           legacy_users_found legacy_users_distinct legacy_users_aligned H).
Defined.

(** The migration of the example, spelled out: [nick] is dropped, [LISTtags]
    is added and reads the empty string in the row that was there. *)
Example legacy_migrated :
  working (snd (auto_migrate [User] legacy))
  = [mkTable "User" [("id", INTEGER); ("name", TEXT); ("LISTtags", TEXT)] false 0
             [(1, [("id", SInt 1); ("name", SText "a"); ("LISTtags", SText "")])]].
Proof. vm_compute. reflexivity. Qed.

(* ================================================================== *)
(** ** Reads *)
(* ================================================================== *)

Lemma preserves_lift (I : conn -> Prop) {A : Type} (r : exn + A) : preserves I (lift r).
Proof. intros st o st' H HI. unfold lift in H. destruct r; inversion H; subst; exact HI. Qed.

Lemma first_keeps (I : conn -> Prop) (fuel : nat) (m : model) (cond : condition) (default : value) :
  preserves I (first fuel m cond default).
Proof.
  unfold first. apply preserves_bind; [apply preserves_detect |].
  intros found. destruct (negb found); [apply preserves_ret |].
  apply preserves_bind; [apply preserves_query |].
  intros [| r rows]; [apply preserves_ret |].
  apply preserves_bind; [apply preserves_query | intros; apply preserves_lift].
Qed.

Lemma all_keeps (I : conn -> Prop) (fuel : nat) (m : model) (oc : option condition) (default : value) :
  preserves I (all fuel m oc default).
Proof.
  unfold all. apply preserves_bind; [apply preserves_detect |].
  intros found. destruct (negb found); [apply preserves_ret |].
  apply preserves_bind; [destruct oc; apply preserves_query |].
  intros [| r rows]; [apply preserves_ret |]. cbn [map].
  apply preserves_bind; [| intros; apply preserves_ret].
  apply preserves_for_each. intros acc d _.
  apply preserves_bind; [apply preserves_query |].
  intros kw. apply preserves_bind; [apply preserves_lift | intros; apply preserves_ret].
Qed.

(** X1.  [first], [all] and [convert_to_dict] only read: whatever they
    return or raise, the connection is afterwards exactly as it was, with
    its working store, its committed store, its open transaction if any and
    [cursor.lastrowid]. *)
Theorem reads_leave_the_connection_as_it_is :
  forall (fuel : nat) (m : model) (cond : condition) (ocond : option condition)
         (default : value) (st : conn),
    snd (first fuel m cond default st) = st /\
    snd (all fuel m ocond default st) = st /\
    snd (convert_to_dict fuel default st) = st.
Proof.
  intros fuel m cond ocond default st. repeat split.
  - destruct (first fuel m cond default st) as [r st'] eqn:E. simpl.
    eapply (first_keeps (fun s => s = st)); [exact E | reflexivity].
  - destruct (all fuel m ocond default st) as [r st'] eqn:E. simpl.
    eapply (all_keeps (fun s => s = st)); [exact E | reflexivity].
  - destruct (convert_to_dict fuel default st) as [r st'] eqn:E. simpl.
    eapply (preserves_query (fun s => s = st)); [exact E | reflexivity].
Qed.

(* ================================================================== *)
(** ** What a write leaves untouched *)
(* ================================================================== *)

Lemma schema_update (n : string) (f : table -> table) (d : db) (t0 : table) :
  find_table n d = Some t0 ->
  tname (f t0) = tname t0 -> tcols (f t0) = tcols t0 ->
  schema (update_table n f d) = schema d.
Proof.
  intros H Hn Hc. induction d as [| t d IH]; simpl in *; [discriminate |].
  destruct (same_name (tname t) n) eqn:E.
  - inversion H; subst t0. simpl. rewrite Hn, Hc. reflexivity.
  - simpl. rewrite (IH H). reflexivity.
Qed.

Lemma schema_insert (d0 : list (string * list (string * coltype)))
      (name : string) (keys : list string) (params : list value) :
  preserves (fun s => schema (working s) = d0) (execute_insert name keys params).
Proof.
  intros s r s' H Hs.
  destruct (execute_insert_cases _ _ _ _ _ _ H) as [-> | [e ->]].
  - apply execute_insert_ok in H.
    destruct H as (t & t' & vals & rid & r0 & Ht & Hi & Hw & _).
    apply insert_into_schema in Hi. destruct Hi as [Hn Hc].
    rewrite Hw, (schema_update name _ _ t Ht Hn Hc). exact Hs.
  - apply execute_insert_raise in H. destruct H as (Hw & _). rewrite Hw. exact Hs.
Qed.

Lemma schema_commit (d0 : list (string * list (string * coltype))) :
  preserves (fun s => schema (working s) = d0) commit.
Proof. intros s r s' H Hs. unfold commit in H. inversion H; subst r s'. exact Hs. Qed.

Lemma schema_delete (d0 : list (string * list (string * coltype)))
      (name : string) (cond : condition) :
  preserves (fun s => schema (working s) = d0) (execute_delete name cond).
Proof.
  intros s r s' H Hs. unfold execute_delete, delete_where in H.
  destruct (find_table name (working s)) as [t |] eqn:Ht.
  - inversion H; subst r s'. simpl. rewrite (schema_update name _ _ t Ht); [exact Hs | reflexivity ..].
  - inversion H; subst r s'. exact Hs.
Qed.

(** X2.  [upsert] and [delete] write rows only: however they end, the
    store has the same tables with the same columns as before.  No table is
    created for a record whose class was not migrated, and no column for a
    field the table lacks. *)
Theorem writes_keep_the_schema :
  forall (fuel : nat) (models : list value) (m : model) (cond : condition) (st : conn),
    schema (working (snd (upsert fuel models st))) = schema (working st) /\
    schema (working (snd (delete m cond st))) = schema (working st).
Proof.
  intros fuel models m cond st. split.
  - destruct (upsert fuel models st) as [r st'] eqn:E. simpl.
    destruct (upsert_and_flat_keep (fun s => schema (working s) = schema (working st))
                (schema_insert _) (schema_commit _) fuel) as [Hu _].
    eapply Hu; [exact E | reflexivity].
  - destruct (delete m cond st) as [r st'] eqn:E. simpl.
    assert (Hd : preserves (fun s => schema (working s) = schema (working st)) (delete m cond)).
    { unfold delete. apply preserves_bind; [apply preserves_detect |].
      intros found. destruct (negb found); [apply preserves_ret |].
      apply preserves_bind; [apply schema_delete | intros; apply schema_commit]. }
    eapply Hd; [exact E | reflexivity].
Qed.

Lemma filed_insert (T : string) (o : option sqlval)
      (name : string) (keys : list string) (params : list value) :
  preserves (fun s => filed (working s) T o) (execute_insert name keys params).
Proof.
  intros st r st' H (t0 & Ht0 & Hrec).
  destruct (execute_insert_cases _ _ _ _ _ _ H) as [-> | [e ->]].
  - apply execute_insert_ok in H.
    destruct H as (t & t' & vals & rid' & r' & Ht & Hi & Hw' & _).
    destruct (insert_into_schema _ _ _ _ _ Hi) as [Hname _].
    destruct (insert_into_records _ _ _ _ _ _ Hi) as [_ Hold].
    unfold filed. rewrite Hw'.
    rewrite (find_table_update T name (fun _ => t') _ t Ht Hname).
    destruct (same_name name T) eqn:E.
    + apply same_name_iff in E. rewrite (find_table_lower _ _ _ E) in Ht.
      assert (t0 = t) by congruence. subst t0.
      exists t'. split; [reflexivity | apply Hold; exact Hrec].
    + exists t0. split; assumption.
  - apply execute_insert_raise in H. destruct H as (Hw' & _).
    unfold filed. rewrite Hw'. exists t0. split; assumption.
Qed.

Lemma filed_commit (T : string) (o : option sqlval) :
  preserves (fun s => filed (working s) T o) commit.
Proof. intros s r s' H Hs. unfold commit in H. inversion H; subst. exact Hs. Qed.

Lemma upsert_keeps_filed (T : string) (o : option sqlval) (fuel : nat) (models : list value) :
  preserves (fun s => filed (working s) T o) (upsert fuel models).
Proof.
  destruct (upsert_and_flat_keep (fun s => filed (working s) T o)
              (filed_insert T o) (filed_commit T o) fuel) as [Hu _].
  apply Hu.
Qed.

(** X3.  [upsert] never loses a record: a table that holds a record of
    some identity before the call, whatever the records written and however
    the call ends, holds one of that identity afterwards.  INSERT OR REPLACE
    removes a row only to put another of the same identity in its place. *)
Theorem upsert_never_loses_a_record :
  forall (fuel : nat) (models : list value) (st : conn) (T : string) (o : option sqlval),
    filed (working st) T o ->
    filed (working (snd (upsert fuel models st))) T o.
Proof.
  intros fuel models st T o H.
  destruct (upsert fuel models st) as [r st'] eqn:E. simpl.
  eapply upsert_keeps_filed; [exact E | exact H].
Qed.

Lemma upsert_never_loses_a_record_witness :
  filed (working (snd (upsert 10 [VModel "User" [("id", VInt 1); ("name", VStr "z"); ("nick", VNone)]]
                              legacy)))
        "User" (Some (SInt 1)).
Proof.
  apply (upsert_never_loses_a_record 10 _ legacy "User" (Some (SInt 1))).
  exists legacy_users. split; [vm_compute; reflexivity |].
  exists 1, [("id", SInt 1); ("name", SText "a"); ("nick", SText "al")].
  split; [left; reflexivity |]. split; [reflexivity | intros _; reflexivity].
Defined.

(* ================================================================== *)
(** ** The result of [upsert] *)
(* ================================================================== *)

Lemma upsert_ok_inv (k : nat) (models : list value) (st st' : conn) (v : value) :
  upsert (S k) models st = (Ok v, st') ->
  exists ids st1,
    for_each models (fun ids m => i <- upsert_model (upsert k) (_flat k) m ;; ret (append ids i))
             [] st = (Ok ids, st1) /\
    st' = mkConn (working st1) (working st1) false (lastrowid st1) (EvCommit :: journal st1) /\
    v = match ids with [i] => VInt i | _ => VTuple (map VInt ids) end.
Proof.
  cbn [upsert]. intros H.
  destruct (bind_inv _ _ _ _ _ H) as [(ids & st1 & E1 & E2) | (e & _ & Hr)]; [| discriminate].
  destruct (bind_inv _ _ _ _ _ E2) as [([] & st2 & E3 & E4) | (e & _ & Hr)]; [| discriminate].
  unfold commit in E3. inversion E3; subst st2. inversion E4; subst.
  exists ids, st1. repeat split. exact E1.
Qed.

Lemma upsert_model_ok_lastrowid (u : list value -> M value) (f : value -> M string)
      (m : value) (st st' : conn) (i : Z) :
  upsert_model u f m st = (Ok i, st') -> i = lastrowid st'.
Proof.
  destruct m; simpl; try discriminate. intros H.
  destruct (bind_inv _ _ _ _ _ H) as [(found & st1 & _ & E2) | (e & _ & Hr)]; [| discriminate].
  destruct (negb found); [discriminate |].
  destruct (bind_inv _ _ _ _ _ E2) as [(kv & st2 & _ & E3) | (e & _ & Hr)]; [| discriminate].
  destruct (bind_inv _ _ _ _ _ E3) as [([] & st3 & _ & E4) | (e & _ & Hr)]; [| discriminate].
  inversion E4; subst. reflexivity.
Qed.

(** X4.  When [upsert] returns, everything it wrote is committed and no
    transaction is left open.  For one record it returns an integer,
    [cursor.lastrowid] of the INSERT of that record; for any other number
    of records, none included, a tuple with one integer per record. *)
Theorem upsert_returns_ids_and_commits :
  forall (fuel : nat) (models : list value) (st st' : conn) (v : value),
    upsert fuel models st = (Ok v, st') ->
    committed st' = working st' /\ in_txn st' = false /\
    (forall m, models = [m] -> v = VInt (lastrowid st')) /\
    (List.length models <> 1%nat ->
     exists ids, v = VTuple (map VInt ids) /\ List.length ids = List.length models).
Proof.
  intros fuel models st st' v H. destruct fuel as [| k]; [discriminate |].
  apply upsert_ok_inv in H. destruct H as (ids & st1 & Hloop & -> & ->). simpl.
  split; [reflexivity |]. split; [reflexivity |].
  assert (Hlen : List.length ids = List.length models).
  { apply for_each_grows in Hloop; [exact Hloop |].
    intros acc d s out s' Hb.
    destruct (bind_inv _ _ _ _ _ Hb) as [(i & s1 & _ & E) | (e & _ & E)]; [| discriminate].
    inversion E; subst. unfold append. rewrite length_app. simpl. lia. }
  split.
  - intros m ->. simpl in Hloop.
    destruct (bind_inv _ _ _ _ _ Hloop) as [(acc & s1 & E1 & E2) | (e & _ & E)]; [| discriminate].
    inversion E2; subst acc st1. clear E2.
    destruct (bind_inv _ _ _ _ _ E1) as [(i & s2 & E3 & E4) | (e & _ & E)]; [| discriminate].
    inversion E4; subst. simpl. f_equal. eapply upsert_model_ok_lastrowid. exact E3.
  - intros Hn. exists ids. split; [| exact Hlen].
    destruct ids as [| i [| j ids]]; try reflexivity.
    simpl in Hlen. exfalso. apply Hn. symmetry. exact Hlen.
Qed.

Lemma upsert_returns_ids_and_commits_witness :
  upsert 10 [user_a] migrated = (Ok (VInt 1), snd (upsert 10 [user_a] migrated)) /\
  committed (snd (upsert 10 [user_a] migrated)) = working (snd (upsert 10 [user_a] migrated)) /\
  in_txn (snd (upsert 10 [user_a] migrated)) = false /\
  (forall m, [user_a] = [m] -> VInt 1 = VInt (lastrowid (snd (upsert 10 [user_a] migrated)))) /\
  (List.length [user_a] <> 1%nat ->
   exists ids, VInt 1 = VTuple (map VInt ids) /\ List.length ids = List.length [user_a]).
Proof.
  assert (H : upsert 10 [user_a] migrated = (Ok (VInt 1), snd (upsert 10 [user_a] migrated)))
    by (vm_compute; reflexivity).
  split; [exact H |].
  exact (upsert_returns_ids_and_commits 10 [user_a] migrated _ _ H).
Defined.

Lemma written_is_filed (fuel : nat) (models : list value) (st st' : conn) (r : outcome value)
      (new : list event) (T : string) (rid : Z) (o : option sqlval) :
  upsert fuel models st = (r, st') ->
  journal st' = (new ++ journal st)%list ->
  In (EvInsert T rid o) new ->
  filed (working st') T o.
Proof.
  intros Hrun Hj Hin.
  assert (Hkept : writes_kept (journal st) T o st').
  { destruct (upsert_and_flat_keep (writes_kept (journal st) T o)
                (writes_kept_insert _ _ _) (writes_kept_commit _ _ _) fuel) as [Hu _].
    eapply Hu; [exact Hrun |].
    exists []. simpl. repeat split.
    - intros [x []].
    - intros l1' l2' Hnil. destruct l1'; discriminate. }
  destruct Hkept as (new' & Hj' & Hw & _).
  rewrite Hj' in Hj. apply app_inv_tail in Hj. subst new'.
  apply Hw. exists rid. exact Hin.
Qed.

Lemma filed_has_record (d : db) (T : string) (o : option sqlval) :
  filed d T o -> has_record d T o.
Proof. intros (t & Ht & rid & r & Hin & Hid & _). exists t, rid, r. repeat split; assumption. Qed.

(** X5.  A failed [upsert] is not rolled back.  Every record the call
    wrote before the error is in the working store of the connection when
    the error surfaces, also when no COMMIT followed it; and the next call
    of [upsert] that returns commits it with its own writes. *)
Theorem failed_upsert_is_not_rolled_back :
  forall (fuel : nat) (models : list value) (st st' : conn) (e : exn)
         (new : list event) (T : string) (rid : Z) (o : option sqlval),
    upsert fuel models st = (Raise e, st') ->
    journal st' = (new ++ journal st)%list ->
    In (EvInsert T rid o) new ->
    has_record (working st') T o /\
    (forall fuel2 models2 v st2,
        upsert fuel2 models2 st' = (Ok v, st2) -> has_record (committed st2) T o).
Proof.
  intros fuel models st st' e new T rid o Hrun Hj Hin.
  pose proof (written_is_filed _ _ _ _ _ _ _ _ _ Hrun Hj Hin) as Hf.
  split; [apply filed_has_record; exact Hf |].
  intros fuel2 models2 v st2 H2.
  assert (Hf2 : filed (working st2) T o) by (eapply upsert_keeps_filed; [exact H2 | exact Hf]).
  destruct fuel2 as [| k]; [discriminate |].
  apply upsert_ok_inv in H2. destruct H2 as (ids & st1 & _ & -> & _). simpl in *.
  apply filed_has_record. exact Hf2.
Qed.

Lemma failed_upsert_is_not_rolled_back_witness :
  upsert 10 [child_n; stray] migrated
    = (Raise (ValueError "表Stray不存在，请先迁移"), half_written) /\
  journal half_written = ([EvInsert "Child" 1 (Some (SInt 1))] ++ journal migrated)%list /\
  committed half_written = committed migrated /\
  has_record (working half_written) "Child" (Some (SInt 1)) /\
  (forall fuel2 models2 v st2,
      upsert fuel2 models2 half_written = (Ok v, st2) ->
      has_record (committed st2) "Child" (Some (SInt 1))).
Proof.
  assert (H : upsert 10 [child_n; stray] migrated
              = (Raise (ValueError "表Stray不存在，请先迁移"), half_written))
    by (vm_compute; reflexivity).
  split; [exact H |]. split; [vm_compute; reflexivity |]. split; [vm_compute; reflexivity |].
  apply (failed_upsert_is_not_rolled_back 10 [child_n; stray] migrated half_written _
           [EvInsert "Child" 1 (Some (SInt 1))] "Child" 1 (Some (SInt 1)) H).
  - vm_compute. reflexivity.
  - left. reflexivity.
Defined.

(* ================================================================== *)
(** ** The data-type error of [_flat] *)
(* ================================================================== *)

Section Never.

Variable e0 : exn.

Lemma never_ret {A : Type} (a : A) : never_raises e0 (ret a).
Proof. intros st e st' H. discriminate. Qed.

Lemma never_raise {A : Type} (e : exn) : e <> e0 -> never_raises e0 (@raise A e).
Proof. intros Hne st e' st' H. inversion H; subst. exact Hne. Qed.

Lemma never_bind {A B : Type} (m : M A) (k : A -> M B) :
  never_raises e0 m -> (forall a, never_raises e0 (k a)) -> never_raises e0 (bind m k).
Proof.
  intros Hm Hk st e st' H.
  destruct (bind_inv _ _ _ _ _ H) as [(a & st1 & E1 & E2) | (e' & E1 & E2)].
  - eapply Hk. exact E2.
  - inversion E2; subst. eapply Hm. exact E1.
Qed.

Lemma never_for_each {A S : Type} (body : S -> A -> M S) (l : list A) :
  (forall acc x, In x l -> never_raises e0 (body acc x)) ->
  forall acc, never_raises e0 (for_each l body acc).
Proof.
  induction l as [| x l IH]; intros Hb acc; simpl.
  - apply never_ret.
  - apply never_bind.
    + apply Hb. left. reflexivity.
    + intros a. apply IH. intros acc' y Hy. apply Hb. right. exact Hy.
Qed.

End Never.

Lemma insert_error_is_sqlite's (name : string) (keys : list string) (params : list value)
      (st st' : conn) (e : exn) :
  execute_insert name keys params st = (Raise e, st') -> forall msg, e <> ValueError msg.
Proof.
  unfold execute_insert, prepare_insert, insert_or_replace, no_such_table. intros H msg.
  destruct (find_table name (working st)) as [t |] eqn:Ht;
    [| cbv iota in H; inversion H; subst; intros Hx; discriminate Hx].
  destruct (find _ keys) eqn:Hk; [cbv iota in H; inversion H; subst; intros Hx; discriminate Hx |].
  cbv iota in H.
  destruct (bind_params params) as [e1 | vals] eqn:Hb.
  - inversion H; subst. clear H. revert e Hb.
    induction params as [| p ps IH]; simpl; [discriminate |].
    intros e Hb. destruct (bind_param p) as [e2 | a] eqn:Hp.
    + inversion Hb; subst e. clear Hb IH.
      destruct p; unfold bind_param in Hp; try discriminate;
        try (inversion Hp; subst; intros Hx; discriminate Hx).
      destruct ((- 2 ^ 63 <=? z) && (z <? 2 ^ 63))%bool;
        inversion Hp; subst; intros Hx; discriminate Hx.
    + destruct (bind_params ps) as [e3 | b]; [| discriminate].
      inversion Hb; subst. apply (IH e). reflexivity.
  - cbn [working begin] in H. rewrite Ht in H.
    destruct (insert_into t keys vals) as [e1 | [t' [rid r]]] eqn:Hi; [| discriminate].
    inversion H; subst. clear H.
    unfold insert_into in Hi. rewrite Hk in Hi.
    destruct (negb _); [inversion Hi; discriminate |].
    destruct (lookup_ci "id" (tcols t)) as [[| |] |]; try discriminate.
    unfold insert_rowid in Hi.
    destruct (identity _) as [[| | |] |]; try discriminate; inversion Hi; discriminate.
Qed.

Lemma never_insert (name : string) (keys : list string) (params : list value) :
  never_raises data_type_error (execute_insert name keys params).
Proof. intros st e st' H. eapply insert_error_is_sqlite's. exact H. Qed.

Lemma never_dumps (v : value) : never_raises data_type_error (dumps v).
Proof.
  unfold dumps. destruct (json_dumps v); [apply never_ret | apply never_raise; discriminate].
Qed.

Lemma missing_table_is_not_data_type (T : string) :
  ValueError ("表" ++ T ++ "不存在，请先迁移") <> data_type_error.
Proof. unfold data_type_error. simpl. intros H. inversion H. Qed.

(** Neither method raises the error of [_flat] while [_flat] is handed
    containers only. *)
Lemma data_type_error_never_nested :
  forall fuel : nat,
    (forall models, never_raises data_type_error (upsert fuel models)) /\
    (forall data, is_BaseIterable data = true -> never_raises data_type_error (_flat fuel data)).
Proof.
  induction fuel as [| k [IHu IHf]].
  - split; intros; apply never_raise; discriminate.
  - assert (Hentry : forall fv, never_raises data_type_error (prefixed_entry (upsert k) (_flat k) fv)).
    { intros [field v]. destruct v; simpl; try apply never_ret;
        (apply never_bind; [| intros; apply never_ret]);
        try (apply IHf; reflexivity); apply IHu. }
    assert (Helem : forall v, never_raises data_type_error (flat_element (upsert k) (_flat k) v)).
    { intros v. destruct v; simpl; try apply never_ret;
        (apply never_bind; [| intros; apply never_ret]);
        try (apply IHf; reflexivity); apply IHu. }
    split.
    + intros models. cbn [upsert]. apply never_bind.
      * apply never_for_each. intros acc m _. apply never_bind; [| intros; apply never_ret].
        destruct m; simpl; try (apply never_raise; discriminate).
        apply never_bind.
        { intros st e st' H. unfold _detect_for_table, query in H. discriminate. }
        intros found. destruct (negb found); [apply never_raise; apply missing_table_is_not_data_type |].
        apply never_bind.
        { unfold key_values. apply never_for_each. intros acc0 fv _.
          apply never_bind; [apply Hentry | intros; apply never_ret]. }
        intros kv. apply never_bind; [apply never_insert |].
        intros _ st e st' H. discriminate.
      * intros ids. apply never_bind; [| intros; apply never_ret].
        intros st e st' H. unfold commit in H. discriminate.
    + intros data Hd. cbn [_flat].
      destruct data; simpl in Hd; try discriminate;
        (apply never_bind; [| intros; apply never_dumps]);
        apply never_for_each; intros acc x _;
        (apply never_bind; [| intros; apply never_ret]); auto.
Qed.

(** X6.  [_flat] raises its [ValueError] of the wrong data type when it is
    handed something that is no list, tuple, set or dict, and leaves the
    connection alone then.  Handed a container it never ends in that error,
    whatever the container holds, and neither does [upsert]: a value that
    is no container is never passed on to [_flat]. *)
Theorem data_type_error_only_for_a_scalar :
  forall (fuel : nat) (st : conn),
    (forall models, fst (upsert fuel models st) <> Raise data_type_error) /\
    (forall data, is_BaseIterable data = true ->
                  fst (_flat fuel data st) <> Raise data_type_error) /\
    (forall data, is_BaseIterable data = false ->
                  _flat (S fuel) data st = (Raise data_type_error, st)).
Proof.
  intros fuel st. destruct (data_type_error_never_nested fuel) as [Hu Hf]. repeat split.
  - intros models H. destruct (upsert fuel models st) as [r st'] eqn:E. simpl in H. subst r.
    eapply Hu; [exact E | reflexivity].
  - intros data Hd H. destruct (_flat fuel data st) as [r st'] eqn:E. simpl in H. subst r.
    eapply Hf; [exact Hd | exact E | reflexivity].
  - intros data Hd. destruct data; simpl in Hd; try discriminate; reflexivity.
Qed.

(* ================================================================== *)
(** ** Keys of a write and columns of a migration *)
(* ================================================================== *)

(** X7.  Where a field holds a value of its declared type, the key
    [upsert] (or [_flat], for the item of a dict) writes it under is the
    name of the column [auto_migrate] makes for the field. *)
Theorem upsert_writes_the_migrated_column :
  forall (u : list value -> M value) (f : value -> M string)
         (field : string) (ty : pytype) (v : value) (st st' : conn) (e : string * value),
    declared_as ty v = true ->
    prefixed_entry u f (field, v) st = (Ok e, st') ->
    fst e = fst (model_column field ty).
Proof.
  intros u f field ty v st st' e Hd H.
  assert (Hkey : forall (m : M string) (k : string),
             (s <- m ;; ret (k, VStr s)) st = (Ok e, st') -> fst e = k).
  { intros m k Hb.
    destruct (bind_inv _ _ _ _ _ Hb) as [(s & st1 & _ & E) | (e0 & _ & E)]; [| discriminate].
    inversion E; subst. reflexivity. }
  assert (Hkey' : forall (m : M value) (k cls : string),
             (i <- m ;; ret (k, VStr (token cls i))) st = (Ok e, st') -> fst e = k).
  { intros m k cls Hb.
    destruct (bind_inv _ _ _ _ _ Hb) as [(s & st1 & _ & E) | (e0 & _ & E)]; [| discriminate].
    inversion E; subst. reflexivity. }
  destruct ty as [| | | | | | | name | origin args | name].
  - destruct v; try discriminate; inversion H; reflexivity.
  - destruct v; try discriminate; inversion H; reflexivity.
  - destruct v; try discriminate; inversion H; reflexivity.
  - destruct v; try discriminate; inversion H; reflexivity.
  - destruct v; try discriminate. apply Hkey in H. exact H.
  - destruct v; try discriminate. apply Hkey in H. exact H.
  - destruct v; discriminate.
  - destruct v; try discriminate. apply Hkey' in H. exact H.
  - destruct origin; try (destruct v; discriminate).
    + destruct args as [| a [| b args]]; try (destruct v; discriminate).
      destruct v; try discriminate. apply Hkey in H. rewrite H.
      destruct a; try discriminate; reflexivity.
    + destruct args as [| a [| b [| c args]]]; try (destruct v; try destruct a; discriminate).
      destruct a; try (destruct v; discriminate).
      destruct v; try discriminate. apply Hkey in H. rewrite H.
      destruct b; try discriminate; reflexivity.
    + destruct v; try discriminate; apply Hkey in H; rewrite H; reflexivity.
  - destruct v; discriminate.
Qed.

Lemma upsert_writes_the_migrated_column_witness :
  declared_as (TyAlias TyList [TyStr]) (VList [VStr "x"]) = true /\
  prefixed_entry (upsert 3) (_flat 3) ("tags", VList [VStr "x"]) connect
    = (Ok ("LISTtags", VStr ("[" ++ dquote ++ "x" ++ dquote ++ "]")), connect) /\
  fst ("LISTtags", VStr ("[" ++ dquote ++ "x" ++ dquote ++ "]"))
    = fst (model_column "tags" (TyAlias TyList [TyStr])).
Proof.
  split; [reflexivity |]. split; [reflexivity |].
  apply (upsert_writes_the_migrated_column (upsert 3) (_flat 3) "tags" (TyAlias TyList [TyStr])
           (VList [VStr "x"]) connect connect); reflexivity.
Defined.

(* ================================================================== *)
(** ** Records of scalars *)
(* ================================================================== *)

Lemma filter_none {A : Type} (p : A -> bool) (l : list A) :
  (forall x, In x l -> p x = false) -> filter p l = [].
Proof.
  induction l as [| a l IH]; simpl; intros H; [reflexivity |].
  rewrite (H a (or_introl eq_refl)). apply IH. intros x Hx. apply H. right. exact Hx.
Qed.

Lemma lookup_ci_has_name {A : Type} (k : string) (l : list (string * A)) (a : A) :
  lookup_ci k l = Some a -> has_name k l = true.
Proof.
  unfold has_name. induction l as [| [k' v] l IH]; simpl; [discriminate |].
  destruct (same_name k' k); [reflexivity | exact IH].
Qed.

(** The loader returns a dict without prefixed keys as it is. *)
Lemma load_plain_items (n : nat) (store : db) (items : list (string * value)) :
  forall acc : list (string * value),
    (forall k, In k (map fst items) -> unprefixed k = true) ->
    NoDup (map fst acc ++ map fst items) ->
    fold_err items
      (fun (new_d : list (string * value)) kv =>
         let (k, v) := kv in
         if startswith k FOREIGNID then
           match v with
           | VStr s =>
               match fetch_reference store s with
               | inl e => inl e
               | inr r =>
                   match load n store r with
                   | inl e => inl e
                   | inr x => inr (dict_set (remove_all FOREIGNID k) x new_d)
                   end
               end
           | _ => inl AttributeError
           end
         else if startswith k LIST then
           match loads_or "[]" v with
           | inl e => inl e
           | inr j => match load n store j with
                      | inl e => inl e
                      | inr x => inr (dict_set (remove_all LIST k) x new_d)
                      end
           end
         else if startswith k DICT then
           match loads_or "{}" v with
           | inl e => inl e
           | inr j => match load n store j with
                      | inl e => inl e
                      | inr x => inr (dict_set (remove_all DICT k) x new_d)
                      end
           end
         else if startswith k JSON then
           match loads_or "[]" v with
           | inl e => inl e
           | inr j => match load n store j with
                      | inl e => inl e
                      | inr x => inr (dict_set (remove_all JSON k) x new_d)
                      end
           end
         else inr (dict_set k v new_d)) acc
    = inr (acc ++ items)%list.
Proof.
  induction items as [| [k v] items IH]; intros acc Hun Hnd; cbn [fold_err].
  - rewrite app_nil_r. reflexivity.
  - pose proof (Hun k (or_introl eq_refl)) as Hk. unfold unprefixed in Hk.
    apply negb_true_iff in Hk. repeat (apply orb_false_iff in Hk; destruct Hk as [Hk ?]).
    rewrite Hk, H1, H0, H.
    assert (Hset : dict_set k v acc = (acc ++ [(k, v)])%list).
    { cbn [map] in Hnd. apply NoDup_remove_2 in Hnd.
      assert (Hnot : ~ In k (map fst acc)) by (intros Hi; apply Hnd; apply in_or_app; left; exact Hi).
      clear - Hnot. induction acc as [| [k' v'] acc IH]; simpl; [reflexivity |].
      destruct (String.eqb k' k) eqn:E.
      - apply String.eqb_eq in E. exfalso. apply Hnot. left. exact E.
      - f_equal. apply IH. intros Hi. apply Hnot. right. exact Hi. }
    rewrite Hset, IH.
    + rewrite <- app_assoc. reflexivity.
    + intros k' Hk'. apply Hun. right. exact Hk'.
    + rewrite map_app. cbn [map fst]. rewrite <- app_assoc. exact Hnd.
Qed.

Lemma load_plain (n : nat) (store : db) (d : list (string * value)) :
  (forall k, In k (map fst d) -> unprefixed k = true) ->
  NoDup (map fst d) ->
  load (S n) store (VDict d) = inr (VDict d).
Proof.
  intros Hun Hnd. cbn [load]. rewrite (load_plain_items n store d []); [reflexivity | exact Hun |].
  exact Hnd.
Qed.




































(* ================================================================== *)
(** ** Reference tokens *)
(* ================================================================== *)

Lemma int_of_str_of_int (z : Z) : int_of_str (str_of_int z) = Some z.
Proof.
  unfold int_of_str, str_of_int. rewrite NilZero.isi.
  - simpl. rewrite DecimalZ.of_to. reflexivity.
  - destruct z; simpl; try discriminate.
    intros H. inversion H as [H1]. apply (DecimalPos.Unsigned.to_uint_nonnil p). exact H1.
  - destruct z; simpl; try discriminate.
    intros H. inversion H as [H1]. apply (DecimalPos.Unsigned.to_uint_nonnil p). exact H1.
Qed.

Lemma split_at_separator (sep : ascii) (n : nat) (a b : string) :
  contains (String sep "") a = false ->
  split sep (S n) (a ++ String sep b) = a :: split sep n b.
Proof.
  induction a as [| c a IH]; intros H.
  - simpl. rewrite Ascii.eqb_refl. reflexivity.
  - cbn [contains String.prefix] in H.
    destruct (ascii_dec sep c) as [-> | Hne].
    + destruct a; discriminate.
    + simpl in H. change ((String c a) ++ String sep b) with (String c (a ++ String sep b)).
      cbn [split]. destruct (Ascii.eqb c sep) eqn:E.
      * apply Ascii.eqb_eq in E. congruence.
      * rewrite (IH H). reflexivity.
Qed.

Lemma split_no_more (sep : ascii) (s : string) : split sep 0 s = [s].
Proof. destruct s; reflexivity. Qed.

Lemma token_parts (cls : string) (i : Z) :
  contains ":" cls = false ->
  split ":" 2 (token cls (VInt i)) = [ID; cls; str_of_int i].
Proof.
  intros H. unfold token. cbn [py_str].
  change (ID ++ ":" ++ cls ++ ":" ++ str_of_int i)
    with (ID ++ String ":" (cls ++ String ":" (str_of_int i))).
  rewrite split_at_separator by reflexivity.
  rewrite split_at_separator by exact H.
  rewrite split_no_more. reflexivity.
Qed.

Lemma filter_the_one {A : Type} (p : A -> bool) (key : A -> Z) (l : list A) (x : A) :
  NoDup (map key l) -> In x l ->
  (forall y, In y l -> p y = Z.eqb (key y) (key x)) ->
  filter p l = [x].
Proof.
  induction l as [| a l IH]; simpl; intros Hnd Hin Hp; [contradiction |].
  inversion Hnd as [| ? ? Hnot Hnd']; subst.
  destruct Hin as [-> | Hin].
  - rewrite (Hp x (or_introl eq_refl)), Z.eqb_refl. f_equal.
    apply filter_none. intros y Hy. rewrite (Hp y (or_intror Hy)).
    apply Z.eqb_neq. intros E. apply Hnot. rewrite <- E. apply in_map. exact Hy.
  - rewrite (Hp a (or_introl eq_refl)).
    destruct (Z.eqb (key a) (key x)) eqn:E.
    + apply Z.eqb_eq in E. exfalso. apply Hnot. rewrite E. apply in_map. exact Hin.
    + apply IH; [exact Hnd' | exact Hin |]. intros y Hy. apply Hp. right. exact Hy.
Qed.

(** The rows of a keyed table that [id = ?] selects for the text of [i]. *)
Lemma select_by_id_keyed (d : db) (cls : string) (t : table) (i : Z) (r : row) (p : sqlval) :
  find_table cls d = Some t ->
  keyed t ->
  In (i, r) (trows t) ->
  apply_affinity INTEGER p = SInt i ->
  select_by_id cls p d = inr [r].
Proof.
  intros Ht (Hid & Hrows & Hnd) Hin Hp.
  unfold select_by_id. rewrite Ht, (lookup_ci_has_name _ _ _ Hid).
  rewrite (select_where_rows _ _ _ _ Ht).
  rewrite (filter_the_one _ fst (trows t) (i, r) Hnd Hin); [reflexivity |].
  intros [rid r'] Hy. cbn [fst snd]. unfold id_eq. rewrite Hid.
  pose proof (Hrows _ _ Hy) as E. unfold identity in E. rewrite E.
  unfold sql_eq. rewrite Hp. reflexivity.
Qed.

(** X10.  The token [upsert] writes for a record of integer identity [i]
    leads the loader back to the row: in a table keyed by an integer [id]
    that has a row under [i], the loader's query for the token of [i] gives
    the dict of that row.  Class names hold no colon. *)
Theorem reference_token_resolves :
  forall (d : db) (cls : string) (t : table) (i : Z) (r : row),
    find_table cls d = Some t ->
    keyed t ->
    In (i, r) (trows t) ->
    contains ":" cls = false ->
    fetch_reference d (token cls (VInt i)) = inr (dict_of_row r).
Proof.
  intros d cls t i r Ht Hk Hin Hcls.
  unfold fetch_reference. rewrite (token_parts cls i Hcls). cbn [nth_error].
  rewrite (select_by_id_keyed d cls t i r _ Ht Hk Hin); [reflexivity |].
  cbn [apply_affinity]. rewrite int_of_str_of_int. reflexivity.
Qed.

Lemma legacy_users_keyed : keyed legacy_users.
Proof.
  split; [reflexivity |]. split.
  - intros rid r [E | []]. inversion E; subst. reflexivity.
  - simpl. constructor; [intros [] | constructor].
Qed.

Lemma reference_token_resolves_witness :
  contains ":" "User" = false /\
  fetch_reference (working legacy) (token "User" (VInt 1))
    = inr (dict_of_row [("id", SInt 1); ("name", SText "a"); ("nick", SText "al")]).
Proof.
  split; [reflexivity |].
  apply (reference_token_resolves (working legacy) "User" legacy_users 1
           [("id", SInt 1); ("name", SText "a"); ("nick", SText "al")]).
  - exact legacy_users_found.
  - exact legacy_users_keyed.
  - left. reflexivity.
  - reflexivity.
Defined.

(* ================================================================== *)
(** ** Prefixes on the way back *)
(* ================================================================== *)

Lemma prefix_app (p s : string) : String.prefix p (p ++ s) = true.
Proof.
  induction p as [| c p IH]; simpl; [destruct s; reflexivity |].
  destruct (ascii_dec c c); [exact IH | contradiction].
Qed.

Lemma remove_from_skip (old x s : string) :
  remove_from old (String.length x) (x ++ s) = remove_from old O s.
Proof. induction x as [| c x IH]; simpl; [reflexivity | exact IH]. Qed.

Lemma remove_all_prefix (P s : string) :
  P <> "" -> remove_all P (P ++ s) = remove_all P s.
Proof.
  destruct P as [| a p]; [contradiction |]. intros _.
  unfold remove_all. change (String a p ++ s) with (String a (p ++ s)).
  cbn [remove_from]. change (String a (p ++ s)) with (String a p ++ s).
  rewrite prefix_app. cbn [String.length Nat.pred]. apply remove_from_skip.
Qed.

Lemma remove_from_length (old : string) (s : string) :
  forall k, (String.length (remove_from old k s) <= String.length s)%nat.
Proof.
  induction s as [| c r IH]; intros k; [simpl; lia |].
  destruct k as [| k]; cbn [remove_from].
  - destruct (String.prefix old (String c r)); cbn [String.length].
    + specialize (IH (Nat.pred (String.length old))). lia.
    + specialize (IH O). lia.
  - cbn [String.length]. specialize (IH k). lia.
Qed.

Lemma remove_from_absent (old s : string) :
  old <> "" -> contains old s = false -> remove_from old O s = s.
Proof.
  intros Hne. induction s as [| c r IH]; simpl; [reflexivity |].
  intros H. apply orb_false_iff in H. destruct H as [H1 H2].
  cbn [String.prefix] in H1. destruct old as [| a p]; [contradiction |].
  cbn [remove_from]. change (String.prefix (String a p) (String c r)) with
    (if ascii_dec a c then String.prefix p r else false) in *.
  rewrite H1. rewrite (IH H2). reflexivity.
Qed.

Lemma remove_from_present (old s : string) :
  old <> "" -> contains old s = true ->
  (String.length (remove_from old O s) < String.length s)%nat.
Proof.
  intros Hne. induction s as [| c r IH]; cbn [contains].
  - destruct old; [contradiction | discriminate].
  - cbn [remove_from]. destruct (String.prefix old (String c r)); cbn [orb String.length].
    + intros _. pose proof (remove_from_length old r (Nat.pred (String.length old))). lia.
    + intros H. specialize (IH H). lia.
Qed.

(** X11.  The loader strips a prefix with [str.replace], which removes
    every occurrence: from the key [upsert] made of a prefix and a field
    name it gets the field name back exactly when the name does not contain
    the prefix. *)
Theorem prefix_stripping_restores_the_name :
  forall (P field : string),
    In P [FOREIGNID; LIST; DICT; JSON] ->
    (remove_all P (P ++ field) = field <-> contains P field = false).
Proof.
  intros P field HP.
  assert (Hne : P <> "") by (simpl in HP; intuition (subst; discriminate)).
  rewrite (remove_all_prefix P field Hne).
  assert (Hr : remove_all P field = remove_from P O field) by (destruct P; [contradiction | reflexivity]).
  rewrite Hr. split.
  - intros H. destruct (contains P field) eqn:E; [| reflexivity].
    pose proof (remove_from_present P field Hne E) as Hlt. rewrite H in Hlt. lia.
  - apply remove_from_absent. exact Hne.
Qed.

Lemma prefix_stripping_restores_the_name_witness :
  In LIST [FOREIGNID; LIST; DICT; JSON] /\
  (remove_all LIST (LIST ++ "tags") = "tags" <-> contains LIST "tags" = false) /\
  (remove_all LIST (LIST ++ "PLAYLIST") = "PLAYLIST" <-> contains LIST "PLAYLIST" = false).
Proof.
  assert (H : In LIST [FOREIGNID; LIST; DICT; JSON]) by (right; left; reflexivity).
  split; [exact H |].
  split; apply (prefix_stripping_restores_the_name LIST _ H).
Defined.

Lemma fold_err_list_length (n : nat) (store : db) (items : list value) :
  forall (acc out : list value),
    fold_err items
      (fun (new_d : list value) v =>
         match v with
         | VStr s =>
             if startswith s ID then
               match fetch_reference store s with
               | inl e => inl e
               | inr r => match load n store r with
                          | inl e => inl e
                          | inr x => inr (append new_d x)
                          end
               end
             else inr new_d
         | VList _ | VTuple _ | VSet _ | VDict _ =>
             match load n store v with
             | inl e => inl e
             | inr x => inr (append new_d x)
             end
         | _ => inr new_d
         end) acc = inr out ->
    List.length out = (List.length acc + List.length (filter loadable items))%nat.
Proof.
  induction items as [| v items IH]; intros acc out; cbn [fold_err filter].
  - intros H. inversion H; subst. simpl. lia.
  - destruct v; cbn [loadable is_BaseIterable];
      try (intros H; apply IH in H; exact H).
    + destruct (startswith s ID).
      * destruct (fetch_reference store s); [discriminate |].
        destruct (load n store v); [discriminate |].
        intros H. apply IH in H. unfold append in H. rewrite length_app in H. simpl in *. lia.
      * intros H. apply IH in H. exact H.
    + destruct (load n store (VList l)); [discriminate |].
      intros H. apply IH in H. unfold append in H. rewrite length_app in H. simpl in *. lia.
    + destruct (load n store (VTuple l)); [discriminate |].
      intros H. apply IH in H. unfold append in H. rewrite length_app in H. simpl in *. lia.
    + destruct (load n store (VSet l)); [discriminate |].
      intros H. apply IH in H. unfold append in H. rewrite length_app in H. simpl in *. lia.
    + destruct (load n store (VDict d)); [discriminate |].
      intros H. apply IH in H. unfold append in H. rewrite length_app in H. simpl in *. lia.
Qed.

Lemma fold_err_list_scalars (n : nat) (store : db) (items : list value) :
  filter loadable items = [] ->
  forall acc : list value,
    fold_err items
      (fun (new_d : list value) v =>
         match v with
         | VStr s =>
             if startswith s ID then
               match fetch_reference store s with
               | inl e => inl e
               | inr r => match load n store r with
                          | inl e => inl e
                          | inr x => inr (append new_d x)
                          end
               end
             else inr new_d
         | VList _ | VTuple _ | VSet _ | VDict _ =>
             match load n store v with
             | inl e => inl e
             | inr x => inr (append new_d x)
             end
         | _ => inr new_d
         end) acc = inr acc.
Proof.
  induction items as [| v items IH]; intros Hf acc; cbn [fold_err]; [reflexivity |].
  cbn [filter] in Hf. destruct (loadable v) eqn:E; [discriminate |].
  destruct v; cbn [loadable is_BaseIterable] in E; try discriminate; try (apply IH; exact Hf).
  rewrite E. apply IH. exact Hf.
Qed.

(** X12.  What the loader keeps of a sequence: one element for each text
    that starts like a reference token and for each container, nothing for
    any other element.  A sequence of scalars loads as the empty list, with
    no error, whatever the scalars are. *)
Theorem load_keeps_only_references_and_containers :
  forall (n : nat) (store : db) (items : list value),
    (forall out, load (S n) store (VList items) = inr out ->
                 exists l, out = VList l /\
                           List.length l = List.length (filter loadable items)) /\
    (filter loadable items = [] -> load (S n) store (VList items) = inr (VList [])).
Proof.
  intros n store items. split.
  - intros out. cbn [load].
    match goal with |- context [fold_err items ?f []] => destruct (fold_err items f []) as [e | l] eqn:E end;
      [discriminate |].
    intros H. inversion H; subst out. exists l. split; [reflexivity |].
    apply fold_err_list_length in E. simpl in E. exact E.
  - intros Hf. cbn [load]. rewrite (fold_err_list_scalars n store items Hf). reflexivity.
Qed.

(* ================================================================== *)
(** ** [first], [all] and [delete] together *)
(* ================================================================== *)

Lemma for_each_extends {X Y : Type} (body : list X -> Y -> M (list X)) (l : list Y) :
  (forall acc d st out st',
      body acc d st = (Ok out, st') -> exists x, out = (acc ++ [x])%list) ->
  forall (acc out : list X) (st st' : conn),
    for_each l body acc st = (Ok out, st') ->
    exists xs, out = (acc ++ xs)%list /\ List.length xs = List.length l.
Proof.
  intros Hb. induction l as [| d l IH]; intros acc out st st' H; simpl in H.
  - inversion H; subst. exists []. rewrite app_nil_r. split; reflexivity.
  - destruct (bind_inv _ _ _ _ _ H) as [(a & st1 & E1 & E2) | (e & _ & E)]; [| discriminate].
    apply Hb in E1. destruct E1 as (x & ->).
    apply IH in E2. destruct E2 as (xs & -> & Hlen).
    exists (x :: xs). rewrite <- app_assoc. simpl. split; [reflexivity | lia].
Qed.

(** X13.  When rows match and [all] returns, it returns one record per
    matching row, and [first] returns, under the same condition, the first
    of them. *)
Theorem first_is_the_head_of_all :
  forall (fuel : nat) (m : model) (cond : condition) (default : value)
         (st st' : conn) (t : table) (v : value),
    in_master (__name__ m) (working st) = true ->
    find_table (__name__ m) (working st) = Some t ->
    matching (Some cond) t <> [] ->
    all fuel m (Some cond) default st = (Ok v, st') ->
    exists x xs,
      v = VList (x :: xs) /\
      List.length (x :: xs) = List.length (matching (Some cond) t) /\
      first fuel m cond default st = (Ok x, st).
Proof.
  intros fuel m cond default st st' t v Hm Ht Hsome H.
  unfold all, _detect_for_table in H.
  unfold bind at 1 in H. unfold query at 1 in H. rewrite Hm in H. simpl in H.
  unfold bind at 1 in H. unfold query at 1 in H.
  rewrite (select_where_rows _ _ _ _ Ht) in H.
  unfold first, _detect_for_table.
  unfold bind at 1. unfold query at 1. rewrite Hm. simpl.
  unfold bind at 1. unfold query at 1.
  rewrite (select_where_rows _ _ _ _ Ht).
  unfold matching in Hsome |- *.
  destruct (filter (fun ir => cond t (snd ir)) (trows t)) as [| [rid r] rows]; [contradiction |].
  cbn [map snd] in H |- *.
  destruct (bind_inv _ _ _ _ _ H) as [(ms & st2 & E3 & E4) | (e & _ & E)]; [| discriminate].
  inversion E4; subst v st2. clear E4 H.
  cbn [for_each] in E3.
  destruct (bind_inv _ _ _ _ _ E3) as [(acc & st3 & E5 & E6) | (e & _ & E)]; [| discriminate].
  destruct (bind_inv _ _ _ _ _ E5) as [(kw & st4 & E7 & E8) | (e & _ & E)]; [| discriminate].
  destruct (bind_inv _ _ _ _ _ E8) as [(x & st5 & E9 & E10) | (e & _ & E)]; [| discriminate].
  inversion E10; subst acc st5. clear E10.
  assert (st4 = st).
  { eapply (preserves_query (fun s => s = st)); [exact E7 | reflexivity]. }
  subst st4.
  apply for_each_extends in E6.
  - destruct E6 as (xs & -> & Hlen). exists x, xs. split; [reflexivity |].
    split; [simpl; rewrite Hlen, !length_map; reflexivity |].
    rewrite (bind_ok _ _ st st kw E7).
    unfold lift in E9 |- *. destruct (instantiate m kw); inversion E9; subst. reflexivity.
  - intros acc d s out s' Hb.
    destruct (bind_inv _ _ _ _ _ Hb) as [(kw' & s1 & _ & F1) | (e & _ & E)]; [| discriminate].
    destruct (bind_inv _ _ _ _ _ F1) as [(y & s2 & _ & F2) | (e & _ & E)]; [| discriminate].
    inversion F2; subst. exists y. reflexivity.
Qed.

Lemma first_is_the_head_of_all_witness :
  in_master (__name__ User_v0) (working legacy) = true /\
  matching (Some (id_eq (SInt 1))) legacy_users <> [] /\
  exists x xs,
    VList [VModel "User" [("id", VInt 1); ("name", VStr "a"); ("nick", VStr "al")]] = VList (x :: xs) /\
    List.length (x :: xs) = List.length (matching (Some (id_eq (SInt 1))) legacy_users) /\
    first 10 User_v0 (id_eq (SInt 1)) VNone legacy = (Ok x, legacy).
Proof.
  assert (Hm : matching (Some (id_eq (SInt 1))) legacy_users <> []) by (vm_compute; discriminate).
  split; [reflexivity |]. split; [exact Hm |].
  apply (first_is_the_head_of_all 10 User_v0 (id_eq (SInt 1)) VNone legacy legacy legacy_users).
  - reflexivity.
  - exact legacy_users_found.
  - exact Hm.
  - vm_compute. reflexivity.
Defined.

Lemma first_no_match (fuel : nat) (m : model) (cond : condition) (default : value)
      (st : conn) (t : table) :
  in_master (__name__ m) (working st) = true ->
  find_table (__name__ m) (working st) = Some t ->
  matching (Some cond) t = [] ->
  first fuel m cond default st = (Ok default, st).
Proof.
  intros Hm Ht Hnone. unfold first, _detect_for_table.
  unfold bind at 1. unfold query at 1. rewrite Hm. simpl.
  unfold bind, query. unfold matching in Hnone.
  rewrite (select_where_rows _ _ _ _ Ht), Hnone. reflexivity.
Qed.

Lemma all_no_match (fuel : nat) (m : model) (cond : condition) (default : value)
      (st : conn) (t : table) :
  in_master (__name__ m) (working st) = true ->
  find_table (__name__ m) (working st) = Some t ->
  matching (Some cond) t = [] ->
  all fuel m (Some cond) default st = (Ok default, st).
Proof.
  intros Hm Ht Hnone. unfold all, _detect_for_table.
  unfold bind at 1. unfold query at 1. rewrite Hm. simpl.
  unfold bind, query. unfold matching in Hnone.
  rewrite (select_where_rows _ _ _ _ Ht), Hnone. reflexivity.
Qed.

(** X14.  [delete] on an existing table returns with its work committed;
    the table keeps its columns and exactly the rows the condition did not
    select, every other table is as before, and [first] and [all] under the
    same condition then return the default.  The condition reads the row it
    is asked about, not the other rows of the table. *)
Theorem delete_removes_what_it_matches :
  forall (fuel : nat) (m : model) (cond : condition) (default : value)
         (st : conn) (t : table),
    in_master (__name__ m) (working st) = true ->
    find_table (__name__ m) (working st) = Some t ->
    (forall rows r, cond (with_rows t rows) r = cond t r) ->
    exists st',
      delete m cond st = (Ok tt, st') /\
      committed st' = working st' /\
      find_table (__name__ m) (working st')
        = Some (with_rows t (filter (fun ir => negb (cond t (snd ir))) (trows t))) /\
      (forall n, same_name (__name__ m) n = false ->
                 find_table n (working st') = find_table n (working st)) /\
      first fuel m cond default st' = (Ok default, st') /\
      all fuel m (Some cond) default st' = (Ok default, st').
Proof.
  intros fuel m cond default st t Hm Ht Hcond.
  set (N := __name__ m) in *.
  set (f := fun t0 : table =>
              mkTable (tname t0) (tcols t0) (tauto t0) (tseq t0)
                      (filter (fun ir => negb (cond t0 (snd ir))) (trows t0))).
  set (st' := mkConn (update_table N f (working st)) (update_table N f (working st)) false
                     (lastrowid st) (EvCommit :: EvDelete N :: journal st)).
  assert (Hft : find_table N (working st') = Some (f t)).
  { apply find_table_update_same; [exact Ht | reflexivity]. }
  assert (Hmt : in_master N (working st') = true).
  { unfold st'. cbn [working]. rewrite (in_master_update N N f _ t Ht eq_refl). exact Hm. }
  assert (Hnone : matching (Some cond) (f t) = []).
  { unfold matching. cbn [f trows]. apply filter_none. intros [rid r] Hin.
    apply filter_In in Hin. destruct Hin as [_ Hneg]. cbn [snd] in *.
    apply negb_true_iff in Hneg.
    change (f t) with (with_rows t (filter (fun ir => negb (cond t (snd ir))) (trows t))).
    rewrite Hcond. exact Hneg. }
  exists st'. split; [| split; [| split; [| split; [| split]]]].
  - unfold delete, _detect_for_table. unfold bind at 1. unfold query at 1.
    fold N. rewrite Hm. simpl. unfold bind, execute_delete, delete_where. rewrite Ht. reflexivity.
  - reflexivity.
  - exact Hft.
  - intros n Hn. unfold st'. cbn [working].
    rewrite (find_table_update n N f _ t Ht eq_refl), Hn. reflexivity.
  - apply (first_no_match fuel m cond default st' (f t) Hmt Hft Hnone).
  - apply (all_no_match fuel m cond default st' (f t) Hmt Hft Hnone).
Qed.

Lemma delete_removes_what_it_matches_witness :
  in_master (__name__ User_v0) (working legacy) = true /\
  exists st',
    delete User_v0 (id_eq (SInt 1)) legacy = (Ok tt, st') /\
    committed st' = working st' /\
    find_table (__name__ User_v0) (working st')
      = Some (with_rows legacy_users
                (filter (fun ir => negb (id_eq (SInt 1) legacy_users (snd ir))) (trows legacy_users))) /\
    (forall n, same_name (__name__ User_v0) n = false ->
               find_table n (working st') = find_table n (working legacy)) /\
    first 10 User_v0 (id_eq (SInt 1)) VNone st' = (Ok VNone, st') /\
    all 10 User_v0 (Some (id_eq (SInt 1))) VNone st' = (Ok VNone, st').
Proof.
  split; [reflexivity |].
  apply (delete_removes_what_it_matches 10 User_v0 (id_eq (SInt 1)) VNone legacy legacy_users).
  - reflexivity.
  - exact legacy_users_found.
  - intros rows r. reflexivity.
Defined.

(* ================================================================== *)
(** ** Migration, continued *)
(* ================================================================== *)

(** X15.  A class without annotations of its own cannot be migrated:
    [auto_migrate] raises the [ValueError] of the failed unpacking of
    [zip()], before any later class is looked at and without a COMMIT.  The
    table exists afterwards all the same: the one that was there, untouched,
    or a new one with the single column [id]. *)
Theorem auto_migrate_needs_an_annotation :
  forall (m : model) (rest : list model) (st : conn),
    __annotations__ m = [] ->
    exists st',
      auto_migrate (m :: rest) st
        = (Raise (ValueError "not enough values to unpack (expected 2, got 0)"), st') /\
      (forall t, find_table (__name__ m) (working st) = Some t -> st' = st) /\
      (find_table (__name__ m) (working st) = None ->
       find_table (__name__ m) (working st')
         = Some (mkTable (__name__ m) [("id", INTEGER)] true 0 []) /\
       journal st' = EvCreateTable (__name__ m) :: journal st).
Proof.
  intros m rest st Hann.
  unfold auto_migrate. cbn [for_each]. unfold migrate_one. rewrite Hann. cbn [dict_get].
  unfold bind, execute_create, query.
  destruct (find_table (__name__ m) (working st)) as [t |] eqn:Ht.
  - exists st. split; [reflexivity |]. split; [reflexivity | discriminate].
  - unfold execute_ddl. eexists. split; [reflexivity |]. split; [discriminate |].
    intros _. cbn [working journal]. split; [| reflexivity].
    unfold create_table. rewrite Ht. rewrite (find_table_app_none _ _ _ Ht).
    cbn [tname]. rewrite same_name_refl. reflexivity.
Qed.

Lemma auto_migrate_needs_an_annotation_witness :
  __annotations__ Empty = [] /\
  exists st',
    auto_migrate [Empty; User] connect
      = (Raise (ValueError "not enough values to unpack (expected 2, got 0)"), st') /\
    (forall t, find_table (__name__ Empty) (working connect) = Some t -> st' = connect) /\
    (find_table (__name__ Empty) (working connect) = None ->
     find_table (__name__ Empty) (working st')
       = Some (mkTable (__name__ Empty) [("id", INTEGER)] true 0 []) /\
     journal st' = EvCreateTable (__name__ Empty) :: journal connect).
Proof.
  split; [reflexivity |].
  apply (auto_migrate_needs_an_annotation Empty [User] connect). reflexivity.
Defined.

Section Migration_preserves.

Variable P : db -> Prop.
Variable T : string.

Hypothesis create_keeps : forall ty auto d, find_table T d = None -> P d -> P (create_table T ty auto d).
Hypothesis update_keeps :
  forall (f : table -> table) d t,
    find_table T d = Some t -> tname (f t) = tname t -> P d -> P (update_table T f d).

Lemma keeps_create (ty : coltype) (auto : bool) :
  preserves (fun s => P (working s)) (execute_create T ty auto).
Proof.
  intros s r s' H HP. unfold execute_create in H.
  destruct (find_table T (working s)) eqn:Ht.
  - inversion H; subst r s'. exact HP.
  - unfold execute_ddl in H. inversion H; subst r s'. simpl. apply create_keeps; assumption.
Qed.

Lemma keeps_add (c : string) (ty : coltype) :
  preserves (fun s => P (working s)) (execute_ddl (add_column T c ty) (EvAddColumn T c ty)).
Proof.
  intros s r s' H HP. unfold execute_ddl, add_column in H.
  destruct (find_table T (working s)) as [t |] eqn:Ht; [| inversion H; subst r s'; exact HP].
  destruct (has_name c (tcols t)); inversion H; subst r s'; [exact HP |].
  simpl. apply (update_keeps _ _ t); [exact Ht | reflexivity | exact HP].
Qed.

Lemma keeps_drop (c : string) :
  preserves (fun s => P (working s)) (execute_ddl (drop_column T c) (EvDropColumn T c)).
Proof.
  intros s r s' H HP. unfold execute_ddl, drop_column in H.
  destruct (find_table T (working s)) as [t |] eqn:Ht; [| inversion H; subst r s'; exact HP].
  destruct (negb (has_name c (tcols t))); [inversion H; subst r s'; exact HP |].
  destruct (same_name c "id"); [inversion H; subst r s'; exact HP |].
  destruct (Nat.leb _ 1); inversion H; subst r s'; [exact HP |].
  simpl. apply (update_keeps _ _ t); [exact Ht | reflexivity | exact HP].
Qed.

Lemma update_null_keeps (c : string) (v : sqlval) (d d' : db) :
  update_null T c v d = inr d' -> P d -> P d'.
Proof.
  unfold update_null. destruct (find_table T d) as [t |] eqn:Ht; [| discriminate].
  destruct (lookup_ci c (tcols t)); [| discriminate].
  intros H HP. inversion H; subst d'.
  apply (update_keeps _ _ t); [exact Ht | reflexivity | exact HP].
Qed.

Lemma keeps_backfill (c : string) (p : value) :
  preserves (fun s => P (working s)) (execute_update_null T c p).
Proof.
  intros s r s' H HP. unfold execute_update_null in H.
  destruct (update_null T c SNull (working s)); [inversion H; subst r s'; exact HP |].
  destruct (bind_param p) as [e | v]; [inversion H; subst r s'; exact HP |].
  simpl in H.
  destruct (update_null T c v (working s)) as [e | d'] eqn:E; inversion H; subst r s'; [exact HP |].
  simpl. eapply update_null_keeps; [exact E | exact HP].
Qed.

End Migration_preserves.

(** The migration of one model keeps what CREATE TABLE and the rewriting of
    its own table keep. *)
Lemma migrate_one_keeps (P : db -> Prop) (m : model) :
  (forall ty auto d, find_table (__name__ m) d = None -> P d -> P (create_table (__name__ m) ty auto d)) ->
  (forall (f : table -> table) d t,
      find_table (__name__ m) d = Some t -> tname (f t) = tname t -> P d ->
      P (update_table (__name__ m) f d)) ->
  preserves (fun s => P (working s)) (migrate_one m).
Proof.
  intros Hc Hu. unfold migrate_one.
  apply preserves_bind.
  { destruct (dict_get "id" (__annotations__ m)) as [[] |]; apply keeps_create; assumption. }
  intros _. apply preserves_bind; [apply preserves_query |].
  intros fields0. apply preserves_bind.
  { destruct (__annotations__ m); [apply preserves_raise | apply preserves_ret]. }
  intros _. apply preserves_bind.
  - apply preserves_for_each. intros acc [c ty] _. unfold add_missing.
    destruct (negb (str_in c fields0)); [| apply preserves_ret].
    apply preserves_bind; [apply keeps_add; assumption |].
    intros _. apply keeps_backfill; assumption.
  - intros _. apply preserves_for_each. intros acc f _. unfold drop_extra.
    destruct (negb (str_in f _) && negb (String.eqb f "id"))%bool; [| apply preserves_ret].
    apply keeps_drop; assumption.
Qed.

Lemma find_table_app_other (n : string) (d : db) (t : table) :
  same_name (tname t) n = false -> find_table n (d ++ [t])%list = find_table n d.
Proof.
  intros H. induction d as [| t0 d IH]; simpl; [rewrite H; reflexivity |].
  destruct (same_name (tname t0) n); [reflexivity | exact IH].
Qed.

Lemma find_table_create_other (n T : string) (ty : coltype) (auto : bool) (d : db) :
  same_name T n = false -> find_table n (create_table T ty auto d) = find_table n d.
Proof.
  intros H. unfold create_table. destruct (find_table T d); [reflexivity |].
  apply find_table_app_other. exact H.
Qed.

(** The migration of a model leaves every other table as it is. *)
Lemma migrate_one_frame (n : string) (o : option table) (m : model) :
  same_name (__name__ m) n = false ->
  preserves (fun s => find_table n (working s) = o) (migrate_one m).
Proof.
  intros Hn. apply (migrate_one_keeps (fun d => find_table n d = o)).
  - intros ty auto d _ H. rewrite (find_table_create_other _ _ _ _ _ Hn). exact H.
  - intros f d t Ht Hf H. rewrite (find_table_update n _ f d t Ht Hf), Hn. exact H.
Qed.

Lemma migrate_all_frame (n : string) (o : option table) (args : list model) :
  (forall m, In m args -> same_name (__name__ m) n = false) ->
  preserves (fun s => find_table n (working s) = o) (for_each args (fun _ m => migrate_one m) tt).
Proof.
  intros H. apply preserves_for_each. intros acc m Hin. apply migrate_one_frame. apply H. exact Hin.
Qed.

(** X16.  [auto_migrate] touches no table but those of its arguments: a
    table whose name is none of theirs, up to case, is afterwards what it
    was, however the call ends. *)
Theorem auto_migrate_leaves_other_tables :
  forall (args : list model) (n : string) (st : conn),
    (forall m, In m args -> same_name (__name__ m) n = false) ->
    find_table n (working (snd (auto_migrate args st))) = find_table n (working st).
Proof.
  intros args n st H.
  destruct (auto_migrate args st) as [r st'] eqn:E. simpl.
  assert (Hp : preserves (fun s => find_table n (working s) = find_table n (working st))
                         (auto_migrate args)).
  { unfold auto_migrate. apply preserves_bind; [apply migrate_all_frame; exact H |].
    intros _ s r0 s' Hc Hs. unfold commit in Hc. inversion Hc; subst r0 s'. exact Hs. }
  eapply Hp; [exact E | reflexivity].
Qed.

Lemma auto_migrate_leaves_other_tables_witness :
  working (snd (auto_migrate [User_v0] migrated)) <> working migrated /\
  find_table "Child" (working (snd (auto_migrate [User_v0] migrated)))
    = find_table "Child" (working migrated).
Proof.
  split; [vm_compute; discriminate |].
  apply (auto_migrate_leaves_other_tables [User_v0] "Child" migrated).
  intros m [<- | []]. reflexivity.
Defined.

Lemma in_master_iff (n : string) (d : db) : in_master n d = true <-> In n (map tname d).
Proof.
  unfold in_master. rewrite existsb_exists, in_map_iff. split.
  - intros (t & Hin & E). apply String.eqb_eq in E. exists t. split; assumption.
  - intros (t & E & Hin). exists t. split; [exact Hin | apply String.eqb_eq; exact E].
Qed.

Lemma update_table_names (n : string) (f : table -> table) (d : db) (t0 : table) :
  find_table n d = Some t0 -> tname (f t0) = tname t0 ->
  map tname (update_table n f d) = map tname d.
Proof.
  intros H Hn. induction d as [| t d IH]; simpl in *; [discriminate |].
  destruct (same_name (tname t) n) eqn:E.
  - inversion H; subst t0. simpl. rewrite Hn. reflexivity.
  - simpl. rewrite (IH H). reflexivity.
Qed.

Lemma create_table_names (T : string) (ty : coltype) (auto : bool) (d : db) :
  find_table T d = None -> map tname (create_table T ty auto d) = (map tname d ++ [T])%list.
Proof. intros H. unfold create_table. rewrite H, map_app. reflexivity. Qed.

(** Once in the catalogue, a name stays there through every migration. *)
Lemma migrate_one_keeps_name (N : string) (m : model) :
  preserves (fun s => In N (map tname (working s))) (migrate_one m).
Proof.
  apply (migrate_one_keeps (fun d => In N (map tname d))).
  - intros ty auto d Hnone H. rewrite (create_table_names _ _ _ _ Hnone).
    apply in_or_app. left. exact H.
  - intros f d t Ht Hf H. rewrite (update_table_names _ f d t Ht Hf). exact H.
Qed.

(** No table is named [N] up to case without being named [N]. *)
Lemma migrate_one_keeps_spelling (N : string) (m : model) :
  (same_name (__name__ m) N = true -> __name__ m = N) ->
  preserves (fun s => forall x, In x (map tname (working s)) -> same_name x N = true -> x = N)
            (migrate_one m).
Proof.
  intros Hm.
  apply (migrate_one_keeps (fun d => forall x, In x (map tname d) -> same_name x N = true -> x = N)).
  - intros ty auto d Hnone H x Hx. rewrite (create_table_names _ _ _ _ Hnone) in Hx.
    apply in_app_or in Hx. destruct Hx as [Hx | [<- | []]]; [apply H; exact Hx | exact Hm].
  - intros f d t Ht Hf H. rewrite (update_table_names _ f d t Ht Hf). exact H.
Qed.

Lemma for_each_unit_app_ok {A : Type} (body : unit -> A -> M unit) (l1 l2 : list A) (x : A)
      (st st' : conn) :
  for_each (l1 ++ x :: l2)%list body tt st = (Ok tt, st') ->
  exists s1 s2,
    for_each l1 body tt st = (Ok tt, s1) /\
    body tt x s1 = (Ok tt, s2) /\
    for_each l2 body tt s2 = (Ok tt, st').
Proof.
  rewrite for_each_app. intros H.
  destruct (bind_inv _ _ _ _ _ H) as [([] & s1 & E1 & E2) | (e & _ & Hr)]; [| discriminate].
  simpl in E2.
  destruct (bind_inv _ _ _ _ _ E2) as [([] & s2 & E3 & E4) | (e & _ & Hr)]; [| discriminate].
  exists s1, s2. repeat split; assumption.
Qed.

Lemma auto_migrate_ok_inv (args : list model) (st st' : conn) :
  auto_migrate args st = (Ok tt, st') ->
  exists s1,
    for_each args (fun _ m => migrate_one m) tt st = (Ok tt, s1) /\
    working st' = working s1 /\ committed st' = working s1.
Proof.
  unfold auto_migrate. intros H.
  destruct (bind_inv _ _ _ _ _ H) as [([] & s1 & E1 & E2) | (e & _ & Hr)]; [| discriminate].
  unfold commit in E2. inversion E2; subst st'. exists s1. repeat split. exact E1.
Qed.

(** X17.  After [auto_migrate] has returned, the table of each of its
    arguments is found by [_detect_for_table], in the working and in the
    committed store, so that [upsert], [first], [all] and [delete] do not
    take the class for one without table.  SQLite tells table names apart
    without regard to case and the detection with regard to it: the name of
    the class is spelled like any table or argument of the same name up to
    case. *)
Theorem migrated_table_is_detected :
  forall (args : list model) (m : model) (st st' : conn),
    (forall t, In t (working st) -> same_name (tname t) (__name__ m) = true ->
               tname t = __name__ m) ->
    (forall m', In m' args -> same_name (__name__ m') (__name__ m) = true ->
                __name__ m' = __name__ m) ->
    In m args ->
    auto_migrate args st = (Ok tt, st') ->
    in_master (__name__ m) (working st') = true /\
    in_master (__name__ m) (committed st') = true.
Proof.
  intros args m st st' Hst Hargs Hin H.
  apply auto_migrate_ok_inv in H. destruct H as (s3 & Hloop & -> & ->).
  assert (In (__name__ m) (map tname (working s3))); [| split; apply in_master_iff; assumption].
  set (N := __name__ m) in *.
  set (J := fun s : conn => forall x, In x (map tname (working s)) -> same_name x N = true -> x = N).
  assert (HJ : forall m', In m' args -> preserves J (migrate_one m')).
  { intros m' Hm'. apply migrate_one_keeps_spelling. apply Hargs. exact Hm'. }
  apply in_split in Hin. destruct Hin as (pre & post & ->).
  apply for_each_unit_app_ok in Hloop. destruct Hloop as (s1 & s2 & E1 & E2 & E3).
  assert (J1 : J s1).
  { eapply (preserves_for_each J); [| exact E1 |].
    - intros acc m' Hm'. apply HJ. apply in_or_app. left. exact Hm'.
    - intros x Hx. apply in_map_iff in Hx. destruct Hx as (t & <- & Ht). apply Hst. exact Ht. }
  assert (J2 : J s2).
  { eapply HJ; [| exact E2 | exact J1]. apply in_or_app. right. left. reflexivity. }
  assert (H2 : In N (map tname (working s2))).
  { destruct (migrate_one_run _ _ _ E2) as (t0 & t1 & _ & _ & _ & _ & _ & Ht2).
    fold N in Ht2. set (t2 := shrink _ t1) in Ht2.
    pose proof (find_table_In _ _ _ Ht2) as Hin2.
    pose proof (find_table_name _ _ _ Ht2) as Hn2.
    rewrite <- (J2 (tname t2)); [apply in_map; exact Hin2 | apply in_map; exact Hin2 | exact Hn2]. }
  eapply (preserves_for_each (fun s => In N (map tname (working s)))); [| exact E3 | exact H2].
  intros acc m' _. apply migrate_one_keeps_name.
Qed.

Lemma migrated_table_is_detected_witness :
  auto_migrate [Parent; Child; User] connect = (Ok tt, migrated) /\
  in_master (__name__ Child) (working migrated) = true /\
  in_master (__name__ Child) (committed migrated) = true.
Proof.
  assert (H : auto_migrate [Parent; Child; User] connect = (Ok tt, migrated))
    by (vm_compute; reflexivity).
  split; [exact H |].
  apply (migrated_table_is_detected [Parent; Child; User] Child connect migrated).
  - intros t [].
  - intros m' [<- | [<- | [<- | []]]] E; vm_compute in E; try discriminate E; reflexivity.
  - right. left. reflexivity.
  - exact H.
Defined.

(** X18.  After [auto_migrate] has returned, the table of an argument has
    a column for every field of the model and no column besides them and
    [id].  A column that was there and stays keeps the type it was declared
    with, whatever the model declares now; a column that is new has the
    type the model gives it.  No other argument has the same name. *)
Theorem migration_settles_the_columns :
  forall (pre post : list model) (m : model) (st st' : conn),
    (forall m', In m' (pre ++ post) -> same_name (__name__ m') (__name__ m) = false) ->
    (forall t, find_table (__name__ m) (working st) = Some t -> distinct (names t)) ->
    auto_migrate (pre ++ m :: post) st = (Ok tt, st') ->
    exists t',
      find_table (__name__ m) (working st') = Some t' /\
      (forall c ty, In (c, ty) (model_columns m) -> In c (names t')) /\
      (forall c, In c (names t') -> In c (map fst (model_columns m)) \/ c = "id") /\
      (forall t c ty, find_table (__name__ m) (working st) = Some t ->
                      In (c, ty) (tcols t) -> In c (names t') -> In (c, ty) (tcols t')) /\
      (forall c ty, In (c, ty) (model_columns m) ->
                    (forall t, find_table (__name__ m) (working st) = Some t -> ~ In c (names t)) ->
                    c <> "id" -> In (c, ty) (tcols t')).
Proof.
  intros pre post m st st' Hother Hwf H.
  apply auto_migrate_ok_inv in H. destruct H as (s3 & Hloop & -> & _).
  apply for_each_unit_app_ok in Hloop. destruct Hloop as (s1 & s2 & E1 & E2 & E3).
  set (N := __name__ m) in *.
  assert (F1 : find_table N (working s1) = find_table N (working st)).
  { eapply (migrate_all_frame N (find_table N (working st)) pre); [| exact E1 | reflexivity].
    intros m' Hm'. apply Hother. apply in_or_app. left. exact Hm'. }
  destruct (migrate_one_run _ _ _ E2) as (t0 & t1 & Hfrom & _ & Hcols & Hd & _ & Ht2).
  fold N in Hfrom, Ht2. rewrite F1 in Hfrom.
  assert (F3 : find_table N (working s3) = find_table N (working s2)).
  { eapply (migrate_all_frame N (find_table N (working s2)) post); [| exact E3 | reflexivity].
    intros m' Hm'. apply Hother. apply in_or_app. right. exact Hm'. }
  assert (Hd0 : distinct (names t0)).
  { destruct Hfrom as [Hf | (_ & Hn & _)]; [apply Hwf; exact Hf |].
    rewrite Hn. unfold distinct. simpl. constructor; [intros [] | constructor]. }
  destruct (settled_columns _ _ _ Hcols (Hd Hd0)) as [Ha Hb].
  set (D := dropped (map fst (model_columns m)) (names t0)) in *.
  exists (shrink D t1). split; [rewrite F3; exact Ht2 |].
  split; [intros c ty Hc; apply (Ha (c, ty)); exact Hc |].
  split; [exact Hb |].
  assert (Hkeep : forall c ty, In (c, ty) (tcols t1) -> In c (names (shrink D t1)) ->
                               In (c, ty) (tcols (shrink D t1))).
  { intros c ty Hin Hc. rewrite names_shrink in Hc. apply filter_In in Hc.
    unfold shrink. cbn [tcols]. apply filter_In. split; [exact Hin | apply Hc]. }
  split.
  - intros t c ty Ht Hin Hc.
    assert (t0 = t) by (destruct Hfrom as [Hf | [Hf _]]; congruence). subst t0.
    apply Hkeep; [| exact Hc]. rewrite Hcols. apply in_or_app. left. exact Hin.
  - intros c ty Hcol Hnew Hid.
    apply Hkeep; [| apply (Ha (c, ty)); exact Hcol].
    rewrite Hcols. apply in_or_app. right. apply In_added. split; [exact Hcol |].
    simpl. destruct Hfrom as [Hf | (_ & Hn & _)]; [apply Hnew; exact Hf |].
    rewrite Hn. intros [E | []]. apply Hid. symmetry. exact E.
Qed.

Lemma migration_settles_the_columns_witness :
  auto_migrate ([] ++ User :: [])%list legacy = (Ok tt, snd (auto_migrate [User] legacy)) /\
  exists t',
    find_table (__name__ User) (working (snd (auto_migrate [User] legacy))) = Some t' /\
    (forall c ty, In (c, ty) (model_columns User) -> In c (names t')) /\
    (forall c, In c (names t') -> In c (map fst (model_columns User)) \/ c = "id") /\
    (forall t c ty, find_table (__name__ User) (working legacy) = Some t ->
                    In (c, ty) (tcols t) -> In c (names t') -> In (c, ty) (tcols t')) /\
    (forall c ty, In (c, ty) (model_columns User) ->
                  (forall t, find_table (__name__ User) (working legacy) = Some t ->
                             ~ In c (names t)) ->
                  c <> "id" -> In (c, ty) (tcols t')).
Proof.
  assert (H : auto_migrate ([] ++ User :: [])%list legacy
              = (Ok tt, snd (auto_migrate [User] legacy)))
    by (vm_compute; reflexivity).
  split; [exact H |].
  apply (migration_settles_the_columns [] [] User legacy _); [| | exact H].
  - intros m' [].
  - intros t Ht. rewrite legacy_users_found in Ht. inversion Ht; subst.
    exact legacy_users_distinct.
Defined.

(* ================================================================== *)
(** ** Dicts and lists of scalars, through JSON *)
(* ================================================================== *)

Lemma append_assoc (a b c : string) : (a ++ b) ++ c = a ++ (b ++ c).
Proof. induction a as [| x a IH]; simpl; [reflexivity | rewrite IH; reflexivity]. Qed.

Lemma length_append (a b : string) :
  String.length (a ++ b) = (String.length a + String.length b)%nat.
Proof. induction a as [| x a IH]; simpl; [reflexivity | rewrite IH; reflexivity]. Qed.

Lemma substring_all (s : string) : substring 0 (String.length s) s = s.
Proof. induction s as [| c s IH]; simpl; [reflexivity | rewrite IH; reflexivity]. Qed.

Lemma substring_skip (a s : string) (n : nat) :
  substring (String.length a) n (a ++ s) = substring 0 n s.
Proof. induction a as [| c a IH]; simpl; [reflexivity | exact IH]. Qed.

Lemma strip_literal_app (lit rest : string) : strip_literal lit (lit ++ rest) = Some rest.
Proof.
  unfold strip_literal. rewrite prefix_app. f_equal.
  rewrite length_append, Nat.add_comm, Nat.add_sub, substring_skip. apply substring_all.
Qed.

Lemma parse_escaped_char (c : ascii) (r : string) :
  parse_string_body (json_escape_char c ++ r) = cons_char c (parse_string_body r).
Proof. destruct c as [[] [] [] [] [] [] [] []]; reflexivity. Qed.

(** A JSON string is read back as the text it was written from. *)
Lemma parse_escaped (s rest : string) :
  parse_string_body (json_escape s ++ dquote ++ rest) = Some (s, rest).
Proof.
  induction s as [| c s IH]; [reflexivity |].
  cbn [json_escape]. rewrite append_assoc, parse_escaped_char, IH. reflexivity.
Qed.

Lemma parse_quoted (f : nat) (s rest : string) :
  parse_value (S f) (json_quote s ++ rest) = Some (VStr s, rest).
Proof.
  unfold json_quote. rewrite !append_assoc.
  change (dquote ++ json_escape s ++ dquote ++ rest)
    with (String (ascii_of_nat 34) (json_escape s ++ dquote ++ rest)).
  cbn [parse_value]. change (nat_of_ascii (ascii_of_nat 34)) with 34%nat. cbn [Nat.eqb].
  rewrite parse_escaped. reflexivity.
Qed.

Lemma parse_null (f : nat) (rest : string) :
  parse_value (S f) ("null" ++ rest) = Some (VNone, rest).
Proof.
  change ("null" ++ rest) with (String "n" ("ull" ++ rest)). cbn [parse_value].
  change (String "n" ("ull" ++ rest)) with ("null" ++ rest).
  rewrite strip_literal_app. reflexivity.
Qed.

Lemma parse_true (f : nat) (rest : string) :
  parse_value (S f) ("true" ++ rest) = Some (VBool true, rest).
Proof.
  change ("true" ++ rest) with (String "t" ("rue" ++ rest)). cbn [parse_value].
  change (String "t" ("rue" ++ rest)) with ("true" ++ rest).
  rewrite (strip_literal_app "true"). reflexivity.
Qed.

Lemma parse_false (f : nat) (rest : string) :
  parse_value (S f) ("false" ++ rest) = Some (VBool false, rest).
Proof.
  change ("false" ++ rest) with (String "f" ("alse" ++ rest)). cbn [parse_value].
  change (String "f" ("alse" ++ rest)) with ("false" ++ rest).
  rewrite (strip_literal_app "false"). reflexivity.
Qed.

(** The digits of a number, and what follows them. *)
Lemma span_digits_of_uint (d : Decimal.uint) (rest : string) :
  closing rest ->
  span_digits (NilEmpty.string_of_uint d ++ rest) = (NilEmpty.string_of_uint d, rest).
Proof.
  intros (c & r & -> & Hc).
  induction d; cbn [NilEmpty.string_of_uint String.append];
    try (cbn [span_digits]; change (is_digit _) with true; cbv iota; rewrite IHd; reflexivity).
  destruct Hc as [-> | [-> | ->]]; reflexivity.
Qed.

Lemma to_uint_head (p : positive) : forall u, Pos.to_uint p <> Decimal.D0 u.
Proof.
  intros u H.
  assert (E : Decimal.unorm (Pos.to_uint p) = Pos.to_uint p).
  { rewrite <- (DecimalPos.Unsigned.to_of (Pos.to_uint p)).
    rewrite DecimalPos.Unsigned.of_to. reflexivity. }
  unfold Decimal.unorm in E.
  destruct (Decimal.nzhead (Pos.to_uint p)) eqn:Hn.
  - rewrite <- E in H. inversion H; subst.
    apply (DecimalPos.Unsigned.to_uint_nonzero p). symmetry. exact E.
  - rewrite H in E. apply (DecimalFacts.nzhead_nonzero (Pos.to_uint p) u0). rewrite Hn. reflexivity.
  - rewrite H in E. discriminate.
  - rewrite H in E. discriminate.
  - rewrite H in E. discriminate.
  - rewrite H in E. discriminate.
  - rewrite H in E. discriminate.
  - rewrite H in E. discriminate.
  - rewrite H in E. discriminate.
  - rewrite H in E. discriminate.
  - rewrite H in E. discriminate.
Qed.

(** A text that starts with a digit, or with a minus sign and a digit, is
    read as a number. *)
Lemma parse_value_digit (f : nat) (c : ascii) (r : string) :
  is_digit c = true -> parse_value (S f) (String c r) = parse_number (String c r).
Proof.
  destruct c as [[] [] [] [] [] [] [] []]; intros H; try discriminate H; reflexivity.
Qed.

Lemma parse_value_minus (f : nat) (c : ascii) (r : string) :
  is_digit c = true ->
  parse_value (S f) (String "-" (String c r)) = parse_number (String "-" (String c r)).
Proof.
  destruct c as [[] [] [] [] [] [] [] []]; intros H; try discriminate H; reflexivity.
Qed.

Lemma no_fraction (rest : string) : closing rest -> parse_frac rest = (EmptyString, rest).
Proof. intros (c & r & -> & [-> | [-> | ->]]); reflexivity. Qed.

Lemma no_exponent (rest : string) : closing rest -> parse_exp rest = (EmptyString, rest).
Proof. intros (c & r & -> & [-> | [-> | ->]]); reflexivity. Qed.

(** The digits of a positive number: at least one, the first of them not
    a zero. *)
Lemma digits_of_positive (p : positive) :
  exists c r, NilEmpty.string_of_uint (Pos.to_uint p) = String c r /\
              is_digit c = true /\ Nat.eqb (nat_of_ascii c) 48 = false /\
              NilZero.string_of_uint (Pos.to_uint p) = String c r.
Proof.
  pose proof (DecimalPos.Unsigned.to_uint_nonnil p) as Hnil.
  pose proof (to_uint_head p) as Hzero.
  destruct (Pos.to_uint p) as [| u | u | u | u | u | u | u | u | u | u];
    [contradiction | exfalso; apply (Hzero u); reflexivity | ..];
    eexists; eexists; (split; [reflexivity |]); repeat split.
Qed.

Lemma parse_int_part_digits (d : Decimal.uint) (c : ascii) (r rest : string) :
  NilEmpty.string_of_uint d = String c r ->
  is_digit c = true -> Nat.eqb (nat_of_ascii c) 48 = false ->
  closing rest ->
  parse_int_part (String c r ++ rest) = Some (String c r, rest).
Proof.
  intros Hd Hc H0 Hrest. cbn [String.append parse_int_part]. rewrite H0, Hc.
  change (String c (r ++ rest)) with (String c r ++ rest).
  rewrite <- Hd, span_digits_of_uint by exact Hrest. reflexivity.
Qed.

(** [json.loads] reads the text of an integer back as the integer. *)
Lemma parse_integer (f : nat) (z : Z) (rest : string) :
  closing rest -> parse_value (S f) (str_of_int z ++ rest) = Some (VInt z, rest).
Proof.
  intros Hrest. pose proof (int_of_str_of_int z) as Hz.
  unfold str_of_int in *. destruct z as [| p | p]; cbn [Z.to_int NilZero.string_of_int] in *.
  - destruct Hrest as (c & r & -> & [-> | [-> | ->]]); reflexivity.
  - destruct (digits_of_positive p) as (c & r & Hd & Hc & H0 & Hs). rewrite Hs in *.
    cbn [String.append]. rewrite (parse_value_digit f c _ Hc).
    change (String c (r ++ rest)) with (String c r ++ rest).
    unfold parse_number.
    assert (Hsign : Nat.eqb (nat_of_ascii c) 45 = false).
    { clear - Hc. destruct c as [[] [] [] [] [] [] [] []]; try discriminate Hc; reflexivity. }
    cbn [String.append]. rewrite Hsign.
    change (String c (r ++ rest)) with (String c r ++ rest).
    rewrite (parse_int_part_digits _ c r rest Hd Hc H0 Hrest).
    rewrite (no_fraction rest Hrest), (no_exponent rest Hrest).
    cbn [String.append]. rewrite Hz. reflexivity.
  - destruct (digits_of_positive p) as (c & r & Hd & Hc & H0 & Hs). rewrite Hs in *.
    cbn [String.append]. rewrite (parse_value_minus f c _ Hc).
    unfold parse_number. change (Nat.eqb (nat_of_ascii "-") 45) with true. cbv iota.
    change (String c (r ++ rest)) with (String c r ++ rest).
    rewrite (parse_int_part_digits _ c r rest Hd Hc H0 Hrest).
    rewrite (no_fraction rest Hrest), (no_exponent rest Hrest).
    change ("-" ++ String c r) with (String "-" (String c r)). rewrite Hz. reflexivity.
Qed.

(** [json.loads] reads the text [json.dumps] writes for a scalar back as the
    scalar, up to what follows it. *)
Lemma parse_scalar (f : nat) (v : value) (t rest : string) :
  json_exact v = true -> json_dumps v = Some t -> closing rest ->
  parse_value (S f) (t ++ rest) = Some (v, rest) /\ skip_ws (t ++ rest) = t ++ rest.
Proof.
  intros Hv Ht Hrest. destruct v; try discriminate Hv; cbn [json_dumps] in Ht.
  - inversion Ht; subst t. split; [apply parse_null | reflexivity].
  - destruct b; inversion Ht; subst t; (split; [| reflexivity]);
      [apply parse_true | apply parse_false].
  - inversion Ht; subst t. split; [apply parse_integer; exact Hrest |].
    unfold str_of_int. destruct z as [| p | p]; cbn [Z.to_int NilZero.string_of_int].
    + reflexivity.
    + destruct (digits_of_positive p) as (c & r & _ & Hc & _ & ->).
      cbn [String.append skip_ws].
      assert (E : is_ws c = false)
        by (clear - Hc; destruct c as [[] [] [] [] [] [] [] []]; try discriminate Hc; reflexivity).
      rewrite E. reflexivity.
    + reflexivity.
  - inversion Ht; subst t. split; [apply parse_quoted |].
    unfold json_quote. rewrite !append_assoc. reflexivity.
Qed.

Lemma closing_brace (rest : string) : closing ("}" ++ rest).
Proof. exists "}"%char, rest. split; [reflexivity | right; left; reflexivity]. Qed.

Lemma closing_bracket (rest : string) : closing ("]" ++ rest).
Proof. exists "]"%char, rest. split; [reflexivity | right; right; reflexivity]. Qed.

Lemma closing_comma (rest : string) : closing (", " ++ rest).
Proof. exists ","%char, (" " ++ rest). split; [reflexivity | left; reflexivity]. Qed.

Lemma join_cons (sep p : string) (r : list string) :
  r <> [] -> join sep (p :: r) = p ++ sep ++ join sep r.
Proof. destruct r; [contradiction | reflexivity]. Qed.

Lemma skip_ws_quoted (s rest : string) : skip_ws (json_quote s ++ rest) = json_quote s ++ rest.
Proof. unfold json_quote. rewrite !append_assoc. reflexivity. Qed.

Lemma join_members_start (d : list (string * value)) (items : list string) (rest : string) :
  Forall2 member_text d items -> d <> [] ->
  skip_ws (join ", " items ++ rest) = join ", " items ++ rest.
Proof.
  intros HF Hd. destruct d as [| [k v] d]; [contradiction |].
  inversion HF as [| ? it ? items' (t & _ & ->) HF']; subst. clear HF. rename items' into items.
  destruct items as [| it' items].
  - cbn [join fst]. rewrite !append_assoc. apply skip_ws_quoted.
  - rewrite join_cons by discriminate. cbn [fst]. rewrite !append_assoc. apply skip_ws_quoted.
Qed.

Lemma parse_members_step (f : nat) (q : ascii) (r0 : string) :
  parse_members (S f) (String q r0) =
  if Nat.eqb (nat_of_ascii q) 34 then
    match parse_string_body r0 with
    | None => None
    | Some (key, r1) =>
        match skip_ws r1 with
        | String c r2 =>
            if Nat.eqb (nat_of_ascii c) 58 then
              match parse_value f (skip_ws r2) with
              | None => None
              | Some (v, rest) =>
                  match skip_ws rest with
                  | String c' r3 =>
                      if Nat.eqb (nat_of_ascii c') 125 then Some ([(key, v)], r3)
                      else if Nat.eqb (nat_of_ascii c') 44 then
                        match parse_members f (skip_ws r3) with
                        | Some (ps, rest') => Some ((key, v) :: ps, rest')
                        | None => None
                        end
                      else None
                  | EmptyString => None
                  end
              end
            else None
        | EmptyString => None
        end
    end
  else None.
Proof. reflexivity. Qed.

Lemma skip_ws_space (s : string) : skip_ws (String " " s) = skip_ws s.
Proof. reflexivity. Qed.

(** One member of a JSON object, read back, and what is read next. *)
Lemma parse_member (f : nat) (k : string) (v : value) (t more : string) :
  json_exact v = true -> json_dumps v = Some t -> closing more ->
  parse_members (S (S f)) (json_quote k ++ ": " ++ t ++ more) =
  match more with
  | String c r =>
      if Nat.eqb (nat_of_ascii c) 125 then Some ([(k, v)], r)
      else if Nat.eqb (nat_of_ascii c) 44 then
        match parse_members (S f) (skip_ws r) with
        | Some (ps, rest') => Some ((k, v) :: ps, rest')
        | None => None
        end
      else None
  | EmptyString => None
  end.
Proof.
  intros Hv Ht Hmore.
  unfold json_quote. rewrite !append_assoc.
  change (dquote ++ json_escape k ++ dquote ++ ": " ++ t ++ more)
    with (String (ascii_of_nat 34) (json_escape k ++ dquote ++ ": " ++ t ++ more)).
  rewrite parse_members_step.
  change (Nat.eqb (nat_of_ascii (ascii_of_nat 34)) 34) with true. cbv iota.
  rewrite parse_escaped.
  change (skip_ws (": " ++ t ++ more)) with (String ":" (String " " (t ++ more))). cbv iota.
  change (Nat.eqb (nat_of_ascii ":") 58) with true. cbv iota.
  rewrite skip_ws_space.
  destruct (parse_scalar f v t more Hv Ht Hmore) as [Hp Hs].
  rewrite Hs, Hp.
  destruct Hmore as (c & r & -> & [-> | [-> | ->]]); reflexivity.
Qed.

(** The members of a JSON object, read back. *)
Lemma parse_members_of (d : list (string * value)) (items : list string) :
  Forall2 member_text d items ->
  (forall kv, In kv d -> json_exact (snd kv) = true) ->
  d <> [] ->
  forall (f : nat) (rest : string),
    (List.length d < f)%nat ->
    parse_members f (join ", " items ++ "}" ++ rest) = Some (d, rest).
Proof.
  induction 1 as [| [k v] it d items (t & Ht & ->) HF IH]; intros Hex Hne f rest Hf;
    [exfalso; apply Hne; reflexivity |].
  clear Hne. cbn [fst snd] in *.
  destruct f as [| [| f]]; [simpl in Hf; lia | simpl in Hf; lia |].
  assert (Hv : json_exact v = true) by (apply (Hex (k, v)); left; reflexivity).
  destruct d as [| kv' d'].
  - inversion HF; subst items. cbn [join]. rewrite !append_assoc.
    rewrite (parse_member f k v t _ Hv Ht (closing_brace rest)). reflexivity.
  - assert (Hitems : items <> []) by (inversion HF; discriminate).
    rewrite join_cons by exact Hitems. rewrite !append_assoc.
    rewrite (parse_member f k v t _ Hv Ht (closing_comma _)).
    change (", " ++ join ", " items ++ "}" ++ rest)
      with (String "," (String " " (join ", " items ++ "}" ++ rest))).
    change (Nat.eqb (nat_of_ascii ",") 125) with false.
    change (Nat.eqb (nat_of_ascii ",") 44) with true. cbv iota.
    rewrite skip_ws_space.
    rewrite (join_members_start (kv' :: d') items _ HF) by discriminate.
    rewrite IH; [reflexivity | | discriminate |].
    + intros kv Hin. apply Hex. right. exact Hin.
    + simpl in Hf |- *. lia.
Qed.

Lemma dumps_exact (v : value) : json_exact v = true -> exists t, json_dumps v = Some t.
Proof.
  destruct v; intros H; try discriminate H; cbn [json_dumps]; try (eexists; reflexivity).
  destruct b; eexists; reflexivity.
Qed.

(** The text [json.dumps] writes for a dict of scalars. *)
Lemma dumps_dict (d : list (string * value)) :
  (forall kv, In kv d -> json_exact (snd kv) = true) ->
  exists items,
    Forall2 member_text d items /\
    json_dumps (VDict d) = Some ("{" ++ join ", " items ++ "}").
Proof.
  intros Hex.
  assert (G : exists items,
             Forall2 member_text d items /\
             all_some (map (fun kv => option_map (fun t => json_quote (fst kv) ++ ": " ++ t)
                                                 (json_dumps (snd kv))) d) = Some items).
  { induction d as [| [k v] d IH]; [exists []; split; [constructor | reflexivity] |].
    destruct IH as (items & HF & Hall); [intros kv Hin; apply Hex; right; exact Hin |].
    destruct (dumps_exact v (Hex (k, v) (or_introl eq_refl))) as (t & Ht).
    exists ((json_quote k ++ ": " ++ t) :: items). split.
    - constructor; [exists t; split; [exact Ht | reflexivity] | exact HF].
    - cbn [map all_some fold_right fst snd] in *. rewrite Ht. cbn [option_map].
      unfold all_some in Hall. rewrite Hall. reflexivity. }
  destruct G as (items & HF & Hall). exists items. split; [exact HF |].
  cbn [json_dumps]. rewrite Hall. reflexivity.
Qed.

Lemma member_text_nonempty (kv : string * value) (it : string) :
  member_text kv it -> (1 <= String.length it)%nat.
Proof.
  intros (t & _ & ->). unfold json_quote. rewrite !append_assoc.
  change (dquote ++ ?x) with (String (ascii_of_nat 34) x). cbn [String.length]. lia.
Qed.

Lemma join_length (d : list (string * value)) (items : list string) :
  Forall2 member_text d items -> (List.length d <= String.length (join ", " items))%nat.
Proof.
  induction 1 as [| kv it d items Hm HF IH]; [simpl; lia |].
  pose proof (member_text_nonempty kv it Hm) as H1.
  destruct items as [| it' items].
  - inversion HF; subst. simpl. lia.
  - rewrite join_cons by discriminate. rewrite !length_append. simpl in *. lia.
Qed.

Lemma dict_set_fresh {A : Type} (k : string) (v : A) (acc : list (string * A)) :
  ~ In k (map fst acc) -> dict_set k v acc = (acc ++ [(k, v)])%list.
Proof.
  induction acc as [| [k' v'] acc IH]; simpl; intros Hnot; [reflexivity |].
  destruct (String.eqb k' k) eqn:E.
  - apply String.eqb_eq in E. exfalso. apply Hnot. left. exact E.
  - f_equal. apply IH. intros Hi. apply Hnot. right. exact Hi.
Qed.

(** Assigning the items of a dict one by one to an empty dict gives the
    dict, when its keys are distinct. *)
Lemma fold_dict_set (pairs acc : list (string * value)) :
  NoDup (map fst acc ++ map fst pairs) ->
  fold_left (fun d kv => dict_set (fst kv) (snd kv) d) pairs acc = (acc ++ pairs)%list.
Proof.
  revert acc. induction pairs as [| [k v] pairs IH]; intros acc Hnd; cbn [fold_left].
  - rewrite app_nil_r. reflexivity.
  - cbn [fst snd map] in *. rewrite dict_set_fresh.
    + rewrite IH; [rewrite <- app_assoc; reflexivity |].
      rewrite map_app. cbn [map fst]. rewrite <- app_assoc. exact Hnd.
    + apply NoDup_remove_2 in Hnd. intros Hi. apply Hnd. apply in_or_app. left. exact Hi.
Qed.

Lemma parse_value_brace (f : nat) (r : string) :
  parse_value (S f) (String "{" r) =
  match skip_ws r with
  | String c' r' =>
      if Nat.eqb (nat_of_ascii c') 125 then Some (VDict [], r')
      else match parse_members f (String c' r') with
           | Some (pairs, rest) =>
               Some (VDict (fold_left (fun d kv => dict_set (fst kv) (snd kv) d) pairs []), rest)
           | None => None
           end
  | EmptyString => None
  end.
Proof. reflexivity. Qed.

(** [json.loads] reads the text of a dict of scalars back as the dict. *)
Lemma loads_dumps_dict (d : list (string * value)) (s : string) :
  NoDup (map fst d) ->
  (forall kv, In kv d -> json_exact (snd kv) = true) ->
  json_dumps (VDict d) = Some s ->
  json_loads s = Some (VDict d) /\ s <> "".
Proof.
  intros Hnd Hex Hs.
  destruct (dumps_dict d Hex) as (items & HF & Hd). rewrite Hd in Hs. inversion Hs; subst s.
  split; [| discriminate].
  unfold json_loads.
  change (skip_ws (String "{" (join ", " items ++ "}"))) with (String "{" (join ", " items ++ "}")).
  set (len := String.length (String "{" (join ", " items ++ "}"))).
  replace (2 * len + 2)%nat with (S (2 * len + 1))%nat by lia.
  rewrite parse_value_brace.
  destruct d as [| kv d].
  - inversion HF; subst items. reflexivity.
  - rewrite (join_members_start (kv :: d) items "}" HF) by discriminate.
    assert (Hstart : exists r, join ", " items ++ "}" = String (ascii_of_nat 34) r).
    { inversion HF as [| ? it ? items' (t & _ & ->) HF']; subst.
      destruct items' as [| it' items'].
      - cbn [join]. unfold json_quote. rewrite !append_assoc. eexists. reflexivity.
      - rewrite join_cons by discriminate. unfold json_quote. rewrite !append_assoc.
        eexists. reflexivity. }
    destruct Hstart as (r & Hr). rewrite Hr.
    change (Nat.eqb (nat_of_ascii (ascii_of_nat 34)) 125) with false. cbv iota.
    rewrite <- Hr.
    change (join ", " items ++ "}") with (join ", " items ++ "}" ++ "").
    rewrite (parse_members_of (kv :: d) items HF Hex); [| discriminate |].
    + rewrite (fold_dict_set (kv :: d) []) by exact Hnd. reflexivity.
    + pose proof (join_length _ _ HF) as Hl. unfold len.
      cbn [String.length]. rewrite !length_append. simpl in Hl |- *. lia.
Qed.

Lemma json_exact_scalar (v : value) : json_exact v = true -> is_scalar v = true.
Proof. destruct v; intros H; try discriminate H; reflexivity. Qed.

(** [_flat] on a dict of scalars writes nothing and returns the text of the
    dict. *)
Lemma flat_dict_of_scalars (k : nat) (d : list (string * value)) (s : string) (st : conn) :
  NoDup (map fst d) ->
  (forall kv, In kv d -> is_scalar (snd kv) = true) ->
  json_dumps (VDict d) = Some s ->
  _flat (S k) (VDict d) st = (Ok s, st).
Proof.
  intros Hnd Hsc Hs. cbn [_flat].
  assert (G : forall items acc,
             NoDup (map fst acc ++ map fst items) ->
             (forall kv, In kv items -> is_scalar (snd kv) = true) ->
             for_each items
               (fun return_data kv =>
                  e <- prefixed_entry (upsert k) (_flat k) kv ;;
                  ret (dict_set (fst e) (snd e) return_data)) acc st
             = (Ok (acc ++ items)%list, st)).
  { induction items as [| [key v] items IH]; intros acc Hn Hi; cbn [for_each].
    - rewrite app_nil_r. reflexivity.
    - assert (E : prefixed_entry (upsert k) (_flat k) (key, v) st = (Ok (key, v), st)).
      { pose proof (Hi (key, v) (or_introl eq_refl)) as Hv.
        destruct v; simpl in Hv; try discriminate; reflexivity. }
      unfold bind at 1. unfold bind at 1. rewrite E. cbn [ret fst snd].
      cbn [map fst] in Hn. rewrite dict_set_fresh.
      + rewrite IH; [rewrite <- app_assoc; reflexivity | |].
        * rewrite map_app. cbn [map fst]. rewrite <- app_assoc. exact Hn.
        * intros kv Hin. apply Hi. right. exact Hin.
      + apply NoDup_remove_2 in Hn. intros Hin. apply Hn. apply in_or_app. left. exact Hin. }
  rewrite (bind_ok _ _ st st d (G d [] Hnd Hsc)).
  unfold dumps. rewrite Hs. reflexivity.
Qed.

(** The loader at a row with the one column [DICT<field>] or
    [LIST<field>]. *)
Lemma load_DICT_entry (n : nat) (store : db) (key : string) (v : value) :
  startswith key FOREIGNID = false -> startswith key LIST = false ->
  startswith key DICT = true ->
  load (S n) store (VDict [(key, v)]) =
  match loads_or "{}" v with
  | inl e => inl e
  | inr j => match load n store j with
             | inl e => inl e
             | inr x => inr (VDict [(remove_all DICT key, x)])
             end
  end.
Proof.
  intros H1 H2 H3. cbn [load fold_err]. rewrite H1, H2, H3.
  destruct (loads_or "{}" v) as [e | j]; [reflexivity |].
  destruct (load n store j); reflexivity.
Qed.

Lemma load_LIST_entry (n : nat) (store : db) (key : string) (v : value) :
  startswith key FOREIGNID = false -> startswith key LIST = true ->
  load (S n) store (VDict [(key, v)]) =
  match loads_or "[]" v with
  | inl e => inl e
  | inr j => match load n store j with
             | inl e => inl e
             | inr x => inr (VDict [(remove_all LIST key, x)])
             end
  end.
Proof.
  intros H1 H2. cbn [load fold_err]. rewrite H1, H2.
  destruct (loads_or "[]" v) as [e | j]; [reflexivity |].
  destruct (load n store j); reflexivity.
Qed.

(** X19.  A field that holds a dict of scalars is read back as it was
    written.  The values are [None], booleans, integers or texts, the keys
    are distinct and start with no prefix of the adapter, and the field
    name does not contain [DICT].  Then [_flat] gives the field the key
    [DICT] followed by its name and the JSON text of the dict as value,
    without touching the connection, and the loader makes of this entry the
    field with the dict it held, with the keys in their order. *)
Theorem dict_of_scalars_round_trip :
  forall (k n : nat) (store : db) (field : string) (d : list (string * value)) (st : conn),
    NoDup (map fst d) ->
    (forall key v, In (key, v) d -> unprefixed key = true /\ json_exact v = true) ->
    contains DICT field = false ->
    exists s,
      prefixed_entry (upsert (S k)) (_flat (S k)) (field, VDict d) st
        = (Ok (DICT ++ field, VStr s), st) /\
      load (S (S n)) store (VDict [(DICT ++ field, VStr s)]) = inr (VDict [(field, VDict d)]).
Proof.
  intros k n store field d st Hnd Hd Hfield.
  assert (Hex : forall kv, In kv d -> json_exact (snd kv) = true).
  { intros [key v] Hin. apply (Hd key v Hin). }
  destruct (dumps_dict d Hex) as (items & _ & Hs).
  set (s := "{" ++ join ", " items ++ "}") in *.
  destruct (loads_dumps_dict d s Hnd Hex Hs) as [Hload Hne].
  exists s. split.
  - cbn [prefixed_entry].
    rewrite (bind_ok _ _ st st s); [reflexivity |].
    apply flat_dict_of_scalars; [exact Hnd | | exact Hs].
    intros kv Hin. apply json_exact_scalar. apply Hex. exact Hin.
  - rewrite load_DICT_entry;
      [| reflexivity | reflexivity | unfold startswith; apply prefix_app].
    unfold loads_or.
    assert (E : String.eqb s "" = false) by (apply String.eqb_neq; exact Hne).
    rewrite E, Hload.
    rewrite (load_plain n store d).
    + rewrite (remove_all_prefix DICT field) by discriminate.
      assert (Hr : remove_all DICT field = field)
        by (apply (remove_from_absent DICT field); [discriminate | exact Hfield]).
      rewrite Hr. reflexivity.
    + intros key Hin. apply in_map_iff in Hin. destruct Hin as ([key' v] & <- & Hin).
      apply (Hd key' v Hin).
    + exact Hnd.
Qed.

Lemma dict_of_scalars_round_trip_witness :
  exists s,
    prefixed_entry (upsert 1) (_flat 1)
        ("opts", VDict [("lang", VStr "zh"); ("level", VInt (-3)); ("on", VBool true)]) connect
      = (Ok (DICT ++ "opts", VStr s), connect) /\
    load 2 [] (VDict [(DICT ++ "opts", VStr s)])
      = inr (VDict [("opts", VDict [("lang", VStr "zh"); ("level", VInt (-3)); ("on", VBool true)])]).
Proof.
  apply (dict_of_scalars_round_trip 0 0 [] "opts"
           [("lang", VStr "zh"); ("level", VInt (-3)); ("on", VBool true)] connect).
  - repeat constructor; simpl; intuition discriminate.
  - intros key v Hin. simpl in Hin.
    destruct Hin as [E | [E | [E | []]]]; inversion E; subst; split; reflexivity.
  - reflexivity.
Defined.

Lemma scalar_text_start (v : value) (t : string) :
  json_exact v = true -> json_dumps v = Some t ->
  exists c r, t = String c r /\ is_ws c = false /\ Nat.eqb (nat_of_ascii c) 93 = false.
Proof.
  intros Hv Ht. destruct v; try discriminate Hv; cbn [json_dumps] in Ht.
  - inversion Ht. eexists; eexists; repeat split.
  - destruct b; inversion Ht; eexists; eexists; repeat split.
  - inversion Ht. unfold str_of_int.
    destruct z as [| p | p]; cbn [Z.to_int NilZero.string_of_int].
    + eexists; eexists; repeat split.
    + destruct (digits_of_positive p) as (c & r & _ & Hc & _ & ->).
      exists c, r. split; [reflexivity |].
      clear - Hc. destruct c as [[] [] [] [] [] [] [] []]; try discriminate Hc; split; reflexivity.
    + eexists; eexists; repeat split.
  - inversion Ht. unfold json_quote.
    exists (ascii_of_nat 34), (json_escape s ++ dquote). repeat split.
Qed.

Lemma parse_elements_step (f : nat) (s : string) :
  parse_elements (S f) s =
  match parse_value f s with
  | None => None
  | Some (v, rest) =>
      match skip_ws rest with
      | String c r =>
          if Nat.eqb (nat_of_ascii c) 93 then Some ([v], r)
          else if Nat.eqb (nat_of_ascii c) 44 then
            match parse_elements f (skip_ws r) with
            | Some (vs, rest') => Some (v :: vs, rest')
            | None => None
            end
          else None
      | EmptyString => None
      end
  end.
Proof. reflexivity. Qed.

Lemma join_elements_start (l : list value) (items : list string) (rest : string) :
  Forall2 (fun v t => json_dumps v = Some t) l items ->
  (forall v, In v l -> json_exact v = true) ->
  l <> [] ->
  exists c r, join ", " items ++ rest = String c r /\
              is_ws c = false /\ Nat.eqb (nat_of_ascii c) 93 = false.
Proof.
  intros HF Hex Hl. destruct l as [| v l]; [contradiction |].
  inversion HF as [| ? t ? items' Ht HF']; subst.
  destruct (scalar_text_start v t (Hex v (or_introl eq_refl)) Ht) as (c & r & -> & Hw & Hb).
  destruct items' as [| t' items'].
  - cbn [join String.append]. exists c, (r ++ rest). repeat split; assumption.
  - rewrite join_cons by discriminate. cbn [String.append]. eexists c, _. repeat split; assumption.
Qed.

(** The elements of a JSON array, read back. *)
Lemma parse_elements_of (l : list value) (items : list string) :
  Forall2 (fun v t => json_dumps v = Some t) l items ->
  (forall v, In v l -> json_exact v = true) ->
  l <> [] ->
  forall (f : nat) (rest : string),
    (List.length l < f)%nat ->
    parse_elements f (join ", " items ++ "]" ++ rest) = Some (l, rest).
Proof.
  induction 1 as [| v t l items Ht HF IH]; intros Hex Hne f rest Hf;
    [exfalso; apply Hne; reflexivity |].
  clear Hne.
  destruct f as [| [| f]]; [simpl in Hf; lia | simpl in Hf; lia |].
  assert (Hv : json_exact v = true) by (apply Hex; left; reflexivity).
  rewrite parse_elements_step.
  destruct l as [| v' l'].
  - inversion HF; subst items. cbn [join].
    destruct (parse_scalar f v t _ Hv Ht (closing_bracket rest)) as [Hp _].
    rewrite Hp. reflexivity.
  - assert (Hitems : items <> []) by (inversion HF; discriminate).
    rewrite join_cons by exact Hitems. rewrite !append_assoc.
    destruct (parse_scalar f v t _ Hv Ht (closing_comma (join ", " items ++ "]" ++ rest)))
      as [Hp _].
    rewrite Hp.
    change (skip_ws (", " ++ join ", " items ++ "]" ++ rest))
      with (String "," (String " " (join ", " items ++ "]" ++ rest))). cbv iota.
    change (Nat.eqb (nat_of_ascii ",") 93) with false.
    change (Nat.eqb (nat_of_ascii ",") 44) with true. cbv iota.
    rewrite skip_ws_space.
    destruct (join_elements_start (v' :: l') items ("]" ++ rest) HF) as (c & r & E & Hw & _);
      [intros x Hx; apply Hex; right; exact Hx | discriminate |].
    assert (Hskip : skip_ws (join ", " items ++ "]" ++ rest) = join ", " items ++ "]" ++ rest).
    { rewrite E. cbn [skip_ws]. rewrite Hw. reflexivity. }
    rewrite Hskip, IH; [reflexivity | | discriminate |].
    + intros x Hx. apply Hex. right. exact Hx.
    + simpl in Hf |- *. lia.
Qed.

Lemma dumps_list (l : list value) :
  (forall v, In v l -> json_exact v = true) ->
  exists items,
    Forall2 (fun v t => json_dumps v = Some t) l items /\
    json_dumps (VList l) = Some ("[" ++ join ", " items ++ "]").
Proof.
  intros Hex.
  assert (G : exists items,
             Forall2 (fun v t => json_dumps v = Some t) l items /\
             all_some (map json_dumps l) = Some items).
  { induction l as [| v l IH]; [exists []; split; [constructor | reflexivity] |].
    destruct IH as (items & HF & Hall); [intros x Hx; apply Hex; right; exact Hx |].
    destruct (dumps_exact v (Hex v (or_introl eq_refl))) as (t & Ht).
    exists (t :: items). split; [constructor; assumption |].
    cbn [map all_some fold_right] in *. rewrite Ht.
    unfold all_some in Hall. rewrite Hall. reflexivity. }
  destruct G as (items & HF & Hall). exists items. split; [exact HF |].
  cbn [json_dumps]. rewrite Hall. reflexivity.
Qed.

Lemma join_length_list (l : list value) (items : list string) :
  Forall2 (fun v t => json_dumps v = Some t) l items ->
  (forall v, In v l -> json_exact v = true) ->
  (List.length l <= String.length (join ", " items))%nat.
Proof.
  induction 1 as [| v t l items Ht HF IH]; intros Hex; [simpl; lia |].
  destruct (scalar_text_start v t (Hex v (or_introl eq_refl)) Ht) as (c & r & -> & _).
  assert (IH' : (List.length l <= String.length (join ", " items))%nat)
    by (apply IH; intros x Hx; apply Hex; right; exact Hx).
  destruct items as [| t' items].
  - inversion HF; subst. simpl. lia.
  - rewrite join_cons by discriminate. rewrite !length_append. simpl in *. lia.
Qed.

Lemma parse_value_bracket (f : nat) (r : string) :
  parse_value (S f) (String "[" r) =
  match skip_ws r with
  | String c' r' =>
      if Nat.eqb (nat_of_ascii c') 93 then Some (VList [], r')
      else match parse_elements f (String c' r') with
           | Some (items, rest) => Some (VList items, rest)
           | None => None
           end
  | EmptyString => None
  end.
Proof. reflexivity. Qed.

(** [json.loads] reads the text of a list of scalars back as the list. *)
Lemma loads_dumps_list (l : list value) (s : string) :
  (forall v, In v l -> json_exact v = true) ->
  json_dumps (VList l) = Some s ->
  json_loads s = Some (VList l) /\ s <> "".
Proof.
  intros Hex Hs.
  destruct (dumps_list l Hex) as (items & HF & Hd). rewrite Hd in Hs. inversion Hs; subst s.
  split; [| discriminate].
  unfold json_loads.
  change (skip_ws (String "[" (join ", " items ++ "]"))) with (String "[" (join ", " items ++ "]")).
  set (len := String.length (String "[" (join ", " items ++ "]"))).
  replace (2 * len + 2)%nat with (S (2 * len + 1))%nat by lia.
  rewrite parse_value_bracket.
  destruct l as [| v l].
  - inversion HF; subst items. reflexivity.
  - destruct (join_elements_start (v :: l) items "]" HF Hex) as (c & r & E & Hw & Hb);
      [discriminate |].
    rewrite E. cbn [skip_ws]. rewrite Hw, Hb. rewrite <- E.
    change (join ", " items ++ "]") with (join ", " items ++ "]" ++ "").
    rewrite (parse_elements_of (v :: l) items HF Hex); [reflexivity | discriminate |].
    pose proof (join_length_list _ _ HF Hex) as Hl. unfold len.
    cbn [String.length]. rewrite !length_append. simpl in Hl |- *. lia.
Qed.

(** [_flat] on a list of scalars writes nothing and returns the text of the
    list. *)
Lemma flat_list_of_scalars (k : nat) (l : list value) (s : string) (st : conn) :
  (forall v, In v l -> is_scalar v = true) ->
  json_dumps (VList l) = Some s ->
  _flat (S k) (VList l) st = (Ok s, st).
Proof.
  intros Hsc Hs. cbn [_flat].
  assert (G : forall items acc,
             (forall v, In v items -> is_scalar v = true) ->
             for_each items
               (fun return_data v =>
                  x <- flat_element (upsert k) (_flat k) v ;;
                  ret (append return_data x)) acc st
             = (Ok (acc ++ items)%list, st)).
  { induction items as [| v items IH]; intros acc Hi; cbn [for_each].
    - rewrite app_nil_r. reflexivity.
    - assert (E : flat_element (upsert k) (_flat k) v st = (Ok v, st)).
      { pose proof (Hi v (or_introl eq_refl)) as Hv.
        destruct v; simpl in Hv; try discriminate; reflexivity. }
      unfold bind at 1. unfold bind at 1. rewrite E. cbn [ret]. unfold append.
      rewrite IH; [rewrite <- app_assoc; reflexivity |].
      intros x Hx. apply Hi. right. exact Hx. }
  rewrite (bind_ok _ _ st st l (G l [] Hsc)).
  unfold dumps. rewrite Hs. reflexivity.
Qed.

Lemma load_list_of_scalars (n : nat) (store : db) (l : list value) :
  filter loadable l = [] -> load (S n) store (VList l) = inr (VList []).
Proof.
  intros Hf. cbn [load]. rewrite (fold_err_list_scalars n store l Hf). reflexivity.
Qed.

(** X20.  A field that holds a list of scalars is stored whole and read
    back empty.  The elements are [None], booleans, integers or texts, none
    of the texts starting like a reference token, and the field name does
    not contain [LIST].  Then [_flat] stores the JSON text of the list, from
    which [json.loads] gets the list back; but the loader, which keeps
    references and containers only, returns the field with the empty
    list. *)
Theorem list_of_scalars_reads_back_empty :
  forall (k n : nat) (store : db) (field : string) (l : list value) (st : conn),
    (forall v, In v l -> json_exact v = true /\ loadable v = false) ->
    contains LIST field = false ->
    exists s,
      prefixed_entry (upsert (S k)) (_flat (S k)) (field, VList l) st
        = (Ok (LIST ++ field, VStr s), st) /\
      json_loads s = Some (VList l) /\
      load (S (S n)) store (VDict [(LIST ++ field, VStr s)]) = inr (VDict [(field, VList [])]).
Proof.
  intros k n store field l st Hl Hfield.
  assert (Hex : forall v, In v l -> json_exact v = true) by (intros v Hin; apply (Hl v Hin)).
  destruct (dumps_list l Hex) as (items & _ & Hs).
  set (s := "[" ++ join ", " items ++ "]") in *.
  destruct (loads_dumps_list l s Hex Hs) as [Hload Hne].
  exists s. split; [| split; [exact Hload |]].
  - cbn [prefixed_entry].
    rewrite (bind_ok _ _ st st s); [reflexivity |].
    apply flat_list_of_scalars; [| exact Hs].
    intros v Hin. apply json_exact_scalar. apply Hex. exact Hin.
  - rewrite load_LIST_entry; [| reflexivity | unfold startswith; apply prefix_app].
    unfold loads_or.
    assert (E : String.eqb s "" = false) by (apply String.eqb_neq; exact Hne).
    rewrite E, Hload.
    rewrite load_list_of_scalars.
    + rewrite (remove_all_prefix LIST field) by discriminate.
      assert (Hr : remove_all LIST field = field)
        by (apply (remove_from_absent LIST field); [discriminate | exact Hfield]).
      rewrite Hr. reflexivity.
    + apply filter_none. intros v Hin. apply (Hl v Hin).
Qed.

Lemma list_of_scalars_reads_back_empty_witness :
  exists s,
    prefixed_entry (upsert 1) (_flat 1) ("tags", VList [VStr "a"; VInt 7; VNone]) connect
      = (Ok (LIST ++ "tags", VStr s), connect) /\
    json_loads s = Some (VList [VStr "a"; VInt 7; VNone]) /\
    load 2 [] (VDict [(LIST ++ "tags", VStr s)]) = inr (VDict [("tags", VList [])]).
Proof.
  apply (list_of_scalars_reads_back_empty 0 0 [] "tags" [VStr "a"; VInt 7; VNone] connect).
  - intros v Hin. simpl in Hin.
    destruct Hin as [E | [E | [E | []]]]; subst; split; reflexivity.
  - reflexivity.
Defined.

(* ================================================================== *)
(** ** A record inside a record *)
(* ================================================================== *)



















(* ================================================================== *)
(** ** Cascading writes are not atomic, continued *)
(* ================================================================== *)









(* ================================================================== *)
(** ** Empty lists, through the store *)
(* ================================================================== *)










